(** * nebula.gl: the immutable editor of GeoJSON feature collections

    A shallow embedding of [src/lib/editable-feature-collection.js]: the
    class [EditableFeatureCollection] and the functions
    [immutablyReplacePosition], [immutablyRemovePosition] and
    [flattenPositions].

    - [Tree]: coordinates are immutable trees; the functions are pure and
      return either a value or the exception the JavaScript code throws.
    - [Heap]: arrays and objects live in a store and are named by
      references, so that sharing, allocation and the assignments
      [updated[k] = v] of the source are visible.
    - [Refinement]: a store read back as trees; the functions of [Heap]
      compute what the functions of [Tree] compute.
    - [Shape] and [Sharing]: what an edit keeps of the coordinates, as
      values and as objects of the store.
    - [Layer]: [modules/core/src/lib/layers/editable-layer.js], the layer
      that turns the pointer events of the canvas into clicks and drags.

    Indexes are integers.  An array is the list of its elements: a property
    of an array object that is not an element is not kept, and an empty slot
    reads as [undefined]. *)

From Stdlib Require Import ZArith Lia.
From stdpp Require Import base list strings sorting.

Open Scope Z_scope.

(** ** JavaScript array primitives on lists *)

Section js_array.
Context {A : Type}.

(** The normalisation [Array.prototype.slice] applies to each of its two
    arguments: a negative index counts from the end, and the outcome is
    clamped to [0, len]. *)
Definition clamp (len k : Z) : Z :=
  if k <? 0 then Z.max (len + k) 0 else Z.min k len.

(** [arr.slice(start, stop)] *)
Definition slice (l : list A) (start stop : Z) : list A :=
  let len := Z.of_nat (length l) in
  let k := clamp len start in
  let final := clamp len stop in
  take (Z.to_nat (final - k)) (drop (Z.to_nat k) l).

(** [arr.slice(start)]: the second argument defaults to the length. *)
Definition slice_from (l : list A) (start : Z) : list A :=
  slice l start (Z.of_nat (length l)).

(** [arr[i]] as an option: [None] is JavaScript's [undefined], the answer
    for every index that is not an element of the array. *)
Definition at_index (l : list A) (i : Z) : option A :=
  if i <? 0 then None else l !! Z.to_nat i.

(** [arr[k] = v] with [hole] standing for the slots an assignment past the
    end leaves empty.  A negative [k] names a property of the array object
    and not one of its elements: the elements are unchanged. *)
Definition store (hole : A) (l : list A) (k : Z) (v : A) : list A :=
  if k <? 0 then l
  else if k <? Z.of_nat (length l) then <[Z.to_nat k := v]> l
  else l ++ replicate (Z.to_nat k - length l)%nat hole ++ [v].

(** [[...arr.slice(0, i), x, ...arr.slice(i + 1)]] *)
Definition splice_in (l : list A) (i : Z) (x : A) : list A :=
  slice l 0 i ++ [x] ++ slice_from l (i + 1).

(** [[...arr.slice(0, i), ...arr.slice(i + 1)]] *)
Definition splice_out (l : list A) (i : Z) : list A :=
  slice l 0 i ++ slice_from l (i + 1).
End js_array.

(** ** Exceptions *)

(** [TypeError] is what the engine raises for a property read on
    [undefined] or a call of something that is not a function; [Error msg]
    is [throw Error(msg)] in the source. *)
Inductive exn :=
| TypeError
| Error (message : string).

Inductive result (A : Type) :=
| Ok (a : A)
| Throw (e : exn).
Arguments Ok {A} a.
Arguments Throw {A} e.

#[global] Instance result_ret : MRet result := fun A a => Ok a.
#[global] Instance result_bind : MBind result := fun A B f m =>
  match m with
  | Ok a => f a
  | Throw e => Throw e
  end.

Definition msg_no_index : string :=
  "Must specify the index of the position to remove".
Definition msg_triangle : string :=
  "Cannot remove a position from a triangle as it will no longer be a polygon".
Definition msg_unhandled (type : string) : string :=
  ("Unhandled geometry type: " ++ type)%string.

(** [type === 'Polygon' || type === 'MultiPolygon'] *)
Definition polygonal (type : string) : bool :=
  bool_decide (type = "Polygon") || bool_decide (type = "MultiPolygon").

(** [k === 0 || k === len - 1], the test that guards the ring repair. *)
Definition is_end (len k : Z) : bool :=
  (k =? 0) || (k =? len - 1).

(** * The tree model *)

Module Tree.

(** A coordinates value: a number, an array, or [undefined], which is what
    [coordinates[i]] hands to the recursive call when [i] is not an index of
    the array.  The code never computes with the numbers. *)
#[warnings="-register-all"]
Inductive value :=
| Undef
| Num (n : Z)
| Arr (elems : list value).

(** The sibling fields of a feature, of a geometry and of a collection are
    opaque to the code: the object spread copies them. *)
Inductive json :=
| JStr (s : string)
| JVal (v : value).

Record Geometry := {
  type : string;
  coordinates : value;
  geometry_rest : list (string * json) }.

Record Feature := {
  geometry : Geometry;
  feature_rest : list (string * json) }.

Record FeatureCollection := {
  features : list Feature;
  collection_rest : list (string * json) }.

Record EditableFeatureCollection := {
  featureCollection : FeatureCollection }.

Definition getObject (this : EditableFeatureCollection) : FeatureCollection :=
  featureCollection this.

(** [coordinates[i]] *)
Definition index (l : list value) (i : Z) : value :=
  default Undef (at_index l i).

(** [immutablyReplacePosition] once [positionIndexes] is known to be an
    array.  [coordinates.slice] is the first thing evaluated in both array
    branches, so a [coordinates] that is no array ends in a [TypeError]
    before the recursive call is made. *)
Fixpoint immutablyReplacePosition_at (coordinates : value)
    (positionIndexes : list Z) (updatedPosition : value)
    (isPolygonal : bool) : result value :=
  match positionIndexes with
  | [] => Ok updatedPosition
  | i :: rest =>
    match coordinates with
    | Arr elems =>
      let len := Z.of_nat (length elems) in
      match rest with
      | [] =>
        let updated := splice_in elems i updatedPosition in
        if isPolygonal && is_end len i
        then Ok (Arr (store Undef (store Undef updated 0 updatedPosition)
                        (len - 1) updatedPosition))
        else Ok (Arr updated)
      | _ :: _ =>
        inner ← immutablyReplacePosition_at (index elems i) rest
                  updatedPosition isPolygonal;
        Ok (Arr (splice_in elems i inner))
      end
    | _ => Throw TypeError
    end
  end.

(** [positionIndexes] is [None] when the caller passes [null] or
    [undefined]: the test [!positionIndexes] of the source. *)
Definition immutablyReplacePosition (coordinates : value)
    (positionIndexes : option (list Z)) (updatedPosition : value)
    (isPolygonal : bool) : result value :=
  match positionIndexes with
  | None => Ok coordinates
  | Some path =>
    immutablyReplacePosition_at coordinates path updatedPosition isPolygonal
  end.

(** The ring repair of [immutablyRemovePosition], run when the removed
    index [i] is an end of a ring that had [len] positions. *)
Definition repair_removed (updated : list value) (len i : Z) : list value :=
  let last := Z.of_nat (length updated) - 1 in
  if i =? 0 then store Undef updated last (index updated 0)
  else if i =? len - 1 then store Undef updated 0 (index updated last)
  else updated.

Fixpoint immutablyRemovePosition_at (coordinates : value)
    (positionIndexes : list Z) (isPolygonal : bool) : result value :=
  match positionIndexes with
  | [] => Throw (Error msg_no_index)
  | i :: rest =>
    match coordinates with
    | Arr elems =>
      let len := Z.of_nat (length elems) in
      match rest with
      | [] =>
        if isPolygonal && (len <? 5) then Throw (Error msg_triangle)
        else
          let updated := splice_out elems i in
          if isPolygonal && is_end len i
          then Ok (Arr (repair_removed updated len i))
          else Ok (Arr updated)
      | _ :: _ =>
        inner ← immutablyRemovePosition_at (index elems i) rest isPolygonal;
        Ok (Arr (splice_in elems i inner))
      end
    | _ => Throw TypeError
    end
  end.

Definition immutablyRemovePosition (coordinates : value)
    (positionIndexes : option (list Z)) (isPolygonal : bool) : result value :=
  match positionIndexes with
  | None => Ok coordinates
  | Some path => immutablyRemovePosition_at coordinates path isPolygonal
  end.

(** The tail shared by [replacePosition] and [removePosition]: the two
    object spreads and the rebuilt [features] array. *)
Definition with_coordinates (this : FeatureCollection) (featureIndex : Z)
    (featureToUpdate : Feature) (updatedCoordinates : value)
    : FeatureCollection :=
  let updatedFeature :=
    {| geometry :=
         {| type := type (geometry featureToUpdate);
            coordinates := updatedCoordinates;
            geometry_rest := geometry_rest (geometry featureToUpdate) |};
       feature_rest := feature_rest featureToUpdate |} in
  {| features := splice_in (features this) featureIndex updatedFeature;
     collection_rest := collection_rest this |}.

(** [features[featureIndex]] is [undefined] outside the array, and the
    read of [.geometry] on it is a [TypeError]. *)
Definition replacePosition (this : EditableFeatureCollection)
    (featureIndex : Z) (positionIndexes : option (list Z))
    (updatedPosition : value) : result EditableFeatureCollection :=
  match at_index (features (featureCollection this)) featureIndex with
  | None => Throw TypeError
  | Some featureToUpdate =>
    let isPolygonal := polygonal (type (geometry featureToUpdate)) in
    updatedCoordinates ←
      immutablyReplacePosition (coordinates (geometry featureToUpdate))
        positionIndexes updatedPosition isPolygonal;
    Ok {| featureCollection :=
            with_coordinates (featureCollection this) featureIndex
              featureToUpdate updatedCoordinates |}
  end.

Definition removePosition (this : EditableFeatureCollection)
    (featureIndex : Z) (positionIndexes : option (list Z))
    : result EditableFeatureCollection :=
  match at_index (features (featureCollection this)) featureIndex with
  | None => Throw TypeError
  | Some featureToUpdate =>
    let isPolygonal := polygonal (type (geometry featureToUpdate)) in
    updatedCoordinates ←
      immutablyRemovePosition (coordinates (geometry featureToUpdate))
        positionIndexes isPolygonal;
    Ok {| featureCollection :=
            with_coordinates (featureCollection this) featureIndex
              featureToUpdate updatedCoordinates |}
  end.

(** An edit handle: the object [{position, positionIndexes}]. *)
Record EditHandle := {
  position : value;
  positionIndexes : list Z }.

(** [ring.map((position, index) => ({position, positionIndexes: [...prefix, index]}))];
    [.map] on a value that is no array is a [TypeError]. *)
Definition map_positions (prefix : list Z) (ring : value)
    : result (list EditHandle) :=
  match ring with
  | Arr elems =>
    Ok (imap (fun index position =>
                {| position := position;
                   positionIndexes := prefix ++ [Z.of_nat index] |}) elems)
  | _ => Throw TypeError
  end.

(** The loop [for (b = ...; b < rings.length; b++) positions =
    positions.concat(rings[b].map(...))], with [b] the index of the head of
    [rings] and [positions] the accumulator. *)
Fixpoint concat_rings (prefix : list Z) (b : nat) (rings : list value)
    (positions : list EditHandle) : result (list EditHandle) :=
  match rings with
  | [] => Ok positions
  | ring :: rest =>
    handles ← map_positions (prefix ++ [Z.of_nat b]) ring;
    concat_rings prefix (S b) rest (positions ++ handles)
  end.

(** A loop bounded by [v.length]: on a number the length is [undefined] and
    the body never runs; on [undefined] the read of [.length] throws. *)
Definition for_length (v : value)
    (body : list value -> list EditHandle -> result (list EditHandle))
    (positions : list EditHandle) : result (list EditHandle) :=
  match v with
  | Arr elems => body elems positions
  | Num _ => Ok positions
  | Undef => Throw TypeError
  end.

(** The outer loop of the [MultiPolygon] case. *)
Fixpoint concat_polygons (a : nat) (polygons : list value)
    (positions : list EditHandle) : result (list EditHandle) :=
  match polygons with
  | [] => Ok positions
  | polygon :: rest =>
    positions' ← for_length polygon (concat_rings [Z.of_nat a] 0) positions;
    concat_polygons (S a) rest positions'
  end.

Definition flattenPositions (g : Geometry) : result (list EditHandle) :=
  let type := type g in
  if bool_decide (type = "Point") then
    Ok [ {| position := coordinates g; positionIndexes := [] |} ]
  else if bool_decide (type = "MultiPoint") || bool_decide (type = "LineString")
  then map_positions [] (coordinates g)
  else if bool_decide (type = "Polygon")
          || bool_decide (type = "MultiLineString")
  then for_length (coordinates g) (concat_rings [] 0) []
  else if bool_decide (type = "MultiPolygon")
  then for_length (coordinates g) (concat_polygons 0) []
  else Throw (Error (msg_unhandled type)).

Definition getEditHandles (this : EditableFeatureCollection)
    (featureIndex : Z) : result (list EditHandle) :=
  match at_index (features (featureCollection this)) featureIndex with
  | None => Throw TypeError
  | Some feature => flattenPositions (geometry feature)
  end.

(** The value a path addresses: every index must be an element of the
    array it indexes. *)
Fixpoint descend (v : value) (path : list Z) : option value :=
  match path with
  | [] => Some v
  | i :: rest =>
    match v with
    | Arr elems => at_index elems i ≫= fun x => descend x rest
    | _ => None
    end
  end.

(** The nesting depth of the coordinates of each supported type. *)
Definition depth_of (type : string) : option nat :=
  if bool_decide (type = "Point") then Some 0%nat
  else if bool_decide (type = "MultiPoint") || bool_decide (type = "LineString")
  then Some 1%nat
  else if bool_decide (type = "Polygon")
          || bool_decide (type = "MultiLineString")
  then Some 2%nat
  else if bool_decide (type = "MultiPolygon") then Some 3%nat
  else None.

(** Coordinates nested [d] arrays deep; what sits below is not looked at. *)
Fixpoint well_shaped (d : nat) (v : value) : Prop :=
  match d with
  | O => True
  | S d' =>
    match v with
    | Arr elems => Forall (well_shaped d') elems
    | _ => False
    end
  end.

(** The handle [h] of a position, seen from the array that holds at index
    [i] the value that holds the position. *)
Definition under (i : Z) (h : EditHandle) : EditHandle :=
  {| position := position h; positionIndexes := i :: positionIndexes h |}.

(** The enumeration of the positions [d] levels below [v] as the
    specification words it: one handle per position, the containers visited
    in order from the outermost to the innermost, each handle carrying the
    indexes that lead to its position. *)
Fixpoint enumerate (d : nat) (v : value) : list EditHandle :=
  match d with
  | O => [ {| position := v; positionIndexes := [] |} ]
  | S d' =>
    match v with
    | Arr elems =>
      mjoin (imap (fun i x => under (Z.of_nat i) <$> enumerate d' x) elems)
    | _ => []
    end
  end.

(** When the loops of [flattenPositions] run to their end on coordinates
    of a type of depth [d]: every value [.map] is called on is an array, and
    every value whose [.length] bounds a loop is an array or a number. *)
Definition is_array (v : value) : bool :=
  match v with Arr _ => true | _ => false end.

Definition loopable (v : value) : bool :=
  match v with
  | Arr rings => forallb is_array rings
  | Num _ => true
  | Undef => false
  end.

Definition flattens (d : nat) (v : value) : bool :=
  match d with
  | 0%nat => true
  | 1%nat => is_array v
  | 2%nat => loopable v
  | 3%nat =>
    match v with
    | Arr polygons => forallb loopable polygons
    | Num _ => true
    | Undef => false
    end
  | _ => false
  end.

(** The handles the loops of [flattenPositions] add for one ring and for
    one polygon. *)
Definition handle_at (prefix : list Z) (i : nat) (x : value) : EditHandle :=
  {| position := x; positionIndexes := prefix ++ [Z.of_nat i] |}.

Definition ring_handles (prefix : list Z) (v : value) : list EditHandle :=
  match v with
  | Arr elems => imap (handle_at prefix) elems
  | _ => []
  end.

Definition polygon_handles (a : nat) (v : value) : list EditHandle :=
  match v with
  | Arr rings =>
    mjoin (imap (fun b ring => ring_handles [Z.of_nat a; Z.of_nat b] ring) rings)
  | _ => []
  end.

(** The order of index paths of one length: the first index that differs
    decides. *)
Fixpoint lex_lt (p q : list Z) : Prop :=
  match p, q with
  | i :: p', j :: q' => i < j \/ (i = j /\ lex_lt p' q')
  | _, _ => False
  end.

(** A ring is closed when its first and last positions agree. *)
Definition closed (ring : list value) : Prop :=
  at_index ring 0 = at_index ring (Z.of_nat (length ring) - 1).

(** Every ring [d - 1] levels below [v] is closed. *)
Fixpoint rings_closed (d : nat) (v : value) : Prop :=
  match d, v with
  | 1%nat, Arr ring => closed ring
  | S (S _ as d'), Arr elems => Forall (rings_closed d') elems
  | _, _ => True
  end.

(** Equality of coordinates values, and the number of distinct positions
    of a ring. *)
Fixpoint value_eqb (x y : value) : bool :=
  match x, y with
  | Undef, Undef => true
  | Num m, Num n => m =? n
  | Arr xs, Arr ys =>
    (fix go (xs ys : list value) : bool :=
       match xs, ys with
       | [], [] => true
       | x :: xs, y :: ys => value_eqb x y && go xs ys
       | _, _ => false
       end) xs ys
  | _, _ => false
  end.

Fixpoint distinct (l : list value) : list value :=
  match l with
  | [] => []
  | x :: rest =>
    if existsb (value_eqb x) rest then distinct rest else x :: distinct rest
  end.

(** *** Concrete data used by the examples *)

Definition pt (x y : Z) : value := Arr [Num x; Num y].

Definition triangle : list value := [pt 0 0; pt 1 0; pt 1 1; pt 0 0].
Definition square : list value := [pt 0 0; pt 1 0; pt 1 1; pt 0 1; pt 0 0].

Definition feature_of (type : string) (coordinates : value) : Feature :=
  {| geometry := {| type := type; coordinates := coordinates;
                    geometry_rest := [] |};
     feature_rest := [("type", JStr "Feature"); ("id", JVal (Num 7))] |}.

Definition collection_of (fs : list Feature) : EditableFeatureCollection :=
  {| featureCollection :=
       {| features := fs;
          collection_rest := [("type", JStr "FeatureCollection")] |} |}.

Definition two_triangles : EditableFeatureCollection :=
  collection_of
    [feature_of "MultiPolygon" (Arr [Arr [Arr triangle]; Arr [Arr triangle]])].

Definition line : EditableFeatureCollection :=
  collection_of [feature_of "LineString" (Arr [pt 0 0; pt 1 1])].

Definition triangle_polygon : EditableFeatureCollection :=
  collection_of [feature_of "Polygon" (Arr [Arr triangle])].

Definition square_polygon : EditableFeatureCollection :=
  collection_of [feature_of "Polygon" (Arr [Arr square])].

End Tree.

(** * The heap model *)

Module Heap.

(** Objects are named by their address in the store. *)
Abbreviation loc := nat (only parsing).

(** What a slot of a coordinates array (or of the [features] array) holds:
    [undefined], a number, or a reference to an object. *)
Inductive val :=
| VUndef
| VNum (n : Z)
| VRef (l : loc).

(** The value of an opaque sibling field. *)
Inductive field :=
| FStr (s : string)
| FVal (v : val).

(** The store is typed after the data model of the GeoJSON objects the
    class is given: arrays, geometries [{type, coordinates, ...}], features
    [{geometry, ...}], collections [{features, ...}] and the instances of
    [EditableFeatureCollection] with their single field.  [rest] holds the
    other own properties of an object, in order. *)
Inductive obj :=
| OArray (elems : list val)
| OGeometry (type : string) (coordinates : val) (rest : list (string * field))
| OFeature (geometry : loc) (rest : list (string * field))
| OCollection (features : loc) (rest : list (string * field))
| OEditor (featureCollection : loc).

Abbreviation heap := (list obj) (only parsing).

(** Computations read and extend the store and may throw; the store a
    computation leaves is kept when it throws. *)
Definition M (A : Type) : Type := heap -> result A * heap.

#[global] Instance M_ret : MRet M := fun A a h => (Ok a, h).
#[global] Instance M_bind : MBind M := fun A B f m h =>
  match m h with
  | (Ok a, h') => f a h'
  | (Throw e, h') => (Throw e, h')
  end.

Definition throw {A} (e : exn) : M A := fun h => (Throw e, h).

(** A new object is placed at the first free address. *)
Definition alloc (o : obj) : M loc := fun h => (Ok (length h), h ++ [o]).

(** The elements of the array [v] refers to.  This is every use the source
    makes of a value as an array ([v.slice], [v.length] before a [v.slice],
    [v[i]] after one): on [undefined] and on anything that is no array the
    outcome is a [TypeError]. *)
Definition array_of (v : val) : M (list val) := fun h =>
  match v with
  | VRef l =>
    match h !! l with
    | Some (OArray elems) => (Ok elems, h)
    | _ => (Throw TypeError, h)
    end
  | _ => (Throw TypeError, h)
  end.

Definition array_length (v : val) : M Z :=
  elems ← array_of v; mret (Z.of_nat (length elems)).

Definition index (l : list val) (i : Z) : val :=
  default VUndef (at_index l i).

(** [arr[k] = v], in place. *)
Definition assign (arr : loc) (k : Z) (v : val) : M unit := fun h =>
  match h !! arr with
  | Some (OArray elems) =>
    (Ok (), <[arr := OArray (store VUndef elems k v)]> h)
  | _ => (Throw TypeError, h)
  end.

(** The readers of the typed fields.  A reference to an object of another
    kind than the data model gives does not occur in a well-typed store;
    the readers answer it with a [TypeError]. *)
Definition read_editor (this : loc) : M loc := fun h =>
  match h !! this with
  | Some (OEditor fc) => (Ok fc, h)
  | _ => (Throw TypeError, h)
  end.

Definition read_collection (fc : loc) : M (loc * list (string * field)) :=
  fun h =>
  match h !! fc with
  | Some (OCollection fs rest) => (Ok (fs, rest), h)
  | _ => (Throw TypeError, h)
  end.

(** [featureToUpdate.geometry. ...]: a [TypeError] when [featureToUpdate]
    is [undefined], and also when it has no [geometry]. *)
Definition read_feature (v : val) : M (loc * list (string * field)) :=
  fun h =>
  match v with
  | VRef l =>
    match h !! l with
    | Some (OFeature g rest) => (Ok (g, rest), h)
    | _ => (Throw TypeError, h)
    end
  | _ => (Throw TypeError, h)
  end.

Definition read_geometry (g : loc)
    : M (string * val * list (string * field)) := fun h =>
  match h !! g with
  | Some (OGeometry type coordinates rest) => (Ok (type, coordinates, rest), h)
  | _ => (Throw TypeError, h)
  end.

(** [new EditableFeatureCollection(featureCollection)] *)
Definition new_EditableFeatureCollection (featureCollection : loc) : M loc :=
  alloc (OEditor featureCollection).

Definition getObject (this : loc) : M loc := read_editor this.

(** The array literals allocate the array they build; the arrays made by
    [.slice] on the way are dropped at once and are not given an address.
    [coordinates.length] is read again at each of its occurrences. *)
Fixpoint immutablyReplacePosition_at (coordinates : val)
    (positionIndexes : list Z) (updatedPosition : val)
    (isPolygonal : bool) : M val :=
  match positionIndexes with
  | [] => mret updatedPosition
  | i :: rest =>
    match rest with
    | [] =>
      elems ← array_of coordinates;
      updated ← alloc (OArray (splice_in elems i updatedPosition));
      len ← array_length coordinates;
      if isPolygonal && is_end len i then
        assign updated 0 updatedPosition;;
        len ← array_length coordinates;
        assign updated (len - 1) updatedPosition;;
        mret (VRef updated)
      else mret (VRef updated)
    | _ :: _ =>
      before ← array_of coordinates;
      inner ← immutablyReplacePosition_at (index before i) rest
                updatedPosition isPolygonal;
      after ← array_of coordinates;
      l ← alloc (OArray (slice before 0 i ++ [inner] ++ slice_from after (i + 1)));
      mret (VRef l)
    end
  end.

Definition immutablyReplacePosition (coordinates : val)
    (positionIndexes : option (list Z)) (updatedPosition : val)
    (isPolygonal : bool) : M val :=
  match positionIndexes with
  | None => mret coordinates
  | Some path =>
    immutablyReplacePosition_at coordinates path updatedPosition isPolygonal
  end.

(** [updated[updated.length - 1] = updated[0]] *)
Definition copy_first_to_last (updated : loc) : M unit :=
  n ← array_length (VRef updated);
  elems ← array_of (VRef updated);
  assign updated (n - 1) (index elems 0).

(** [updated[0] = updated[updated.length - 1]] *)
Definition copy_last_to_first (updated : loc) : M unit :=
  elems ← array_of (VRef updated);
  n ← array_length (VRef updated);
  assign updated 0 (index elems (n - 1)).

Fixpoint immutablyRemovePosition_at (coordinates : val)
    (positionIndexes : list Z) (isPolygonal : bool) : M val :=
  match positionIndexes with
  | [] => throw (Error msg_no_index)
  | i :: rest =>
    match rest with
    | [] =>
      elems ← array_of coordinates;
      if isPolygonal && (Z.of_nat (length elems) <? 5)
      then throw (Error msg_triangle)
      else
        updated ← alloc (OArray (splice_out elems i));
        len ← array_length coordinates;
        if isPolygonal && is_end len i then
          (if i =? 0 then copy_first_to_last updated
           else
             len ← array_length coordinates;
             if i =? len - 1 then copy_last_to_first updated else mret ());;
          mret (VRef updated)
        else mret (VRef updated)
    | _ :: _ =>
      before ← array_of coordinates;
      inner ← immutablyRemovePosition_at (index before i) rest isPolygonal;
      after ← array_of coordinates;
      l ← alloc (OArray (slice before 0 i ++ [inner] ++ slice_from after (i + 1)));
      mret (VRef l)
    end
  end.

Definition immutablyRemovePosition (coordinates : val)
    (positionIndexes : option (list Z)) (isPolygonal : bool) : M val :=
  match positionIndexes with
  | None => mret coordinates
  | Some path => immutablyRemovePosition_at coordinates path isPolygonal
  end.

(** [this.featureCollection.features[featureIndex]] *)
Definition feature_at (this : loc) (featureIndex : Z) : M val :=
  fc ← read_editor this;
  '(fs, _) ← read_collection fc;
  elems ← array_of (VRef fs);
  mret (index elems featureIndex).

(** The tail shared by [replacePosition] and [removePosition]: the two
    object spreads, the rebuilt [features] array and the constructor call.
    The spreads read the objects again. *)
Definition with_coordinates (this : loc) (featureIndex : Z)
    (featureToUpdate : val) (updatedCoordinates : val) : M loc :=
  '(g, feature_rest) ← read_feature featureToUpdate;
  '(type, _, geometry_rest) ← read_geometry g;
  updatedGeometry ← alloc (OGeometry type updatedCoordinates geometry_rest);
  updatedFeature ← alloc (OFeature updatedGeometry feature_rest);
  fc ← read_editor this;
  '(fs, collection_rest) ← read_collection fc;
  elems ← array_of (VRef fs);
  updatedFeatures ←
    alloc (OArray (splice_in elems featureIndex (VRef updatedFeature)));
  updatedFeatureCollection ←
    alloc (OCollection updatedFeatures collection_rest);
  new_EditableFeatureCollection updatedFeatureCollection.

Definition replacePosition (this : loc) (featureIndex : Z)
    (positionIndexes : option (list Z)) (updatedPosition : val) : M loc :=
  featureToUpdate ← feature_at this featureIndex;
  '(g, _) ← read_feature featureToUpdate;
  '(type, coordinates, _) ← read_geometry g;
  let isPolygonal := polygonal type in
  updatedCoordinates ←
    immutablyReplacePosition coordinates positionIndexes updatedPosition
      isPolygonal;
  with_coordinates this featureIndex featureToUpdate updatedCoordinates.

Definition removePosition (this : loc) (featureIndex : Z)
    (positionIndexes : option (list Z)) : M loc :=
  featureToUpdate ← feature_at this featureIndex;
  '(g, _) ← read_feature featureToUpdate;
  '(type, coordinates, _) ← read_geometry g;
  let isPolygonal := polygonal type in
  updatedCoordinates ←
    immutablyRemovePosition coordinates positionIndexes isPolygonal;
  with_coordinates this featureIndex featureToUpdate updatedCoordinates.

(** The value a path addresses in the store. *)
Fixpoint descend (h : heap) (v : val) (path : list Z) : option val :=
  match path with
  | [] => Some v
  | i :: rest =>
    match v with
    | VRef l =>
      match h !! l with
      | Some (OArray elems) => at_index elems i ≫= fun x => descend h x rest
      | _ => None
      end
    | _ => None
    end
  end.

(** ** A frame rule for computations

    [frames n m Q]: run from a store of at least [n] cells, [m] leaves the
    first [n] cells as they were, never shrinks the store, and on a normal
    return establishes [Q]. *)
Definition frames {A} (n : nat) (m : M A) (Q : A -> heap -> Prop) : Prop :=
  forall h r h',
    (n <= length h)%nat -> m h = (r, h') ->
    (length h <= length h')%nat /\ take n h' = take n h /\
    match r with Ok a => Q a h' | Throw _ => True end.

(** A computation that only reads. *)
Definition reads {A} (m : M A) : Prop := forall h, (m h).2 = h.

(** What the shared tail returns: a new editor around a new collection. *)
Definition fresh_editor (n : nat) (this' : loc) (h' : heap) : Prop :=
  (n <= this')%nat /\
  exists fc', h' !! this' = Some (OEditor fc') /\ (n <= fc')%nat.

(** The receiver [this] holds a collection whose feature [i] is the object
    [fl], with the geometry [g]. *)
Record targets (h : heap) (this : loc) (i : Z)
    (fc fs : loc) (rest : list (string * field)) (elems : list val)
    (fl g : loc) (frest : list (string * field))
    (ty : string) (c : val) (grest : list (string * field)) : Prop := {
  targets_editor : h !! this = Some (OEditor fc);
  targets_collection : h !! fc = Some (OCollection fs rest);
  targets_features : h !! fs = Some (OArray elems);
  targets_index : at_index elems i = Some (VRef fl);
  targets_feature : h !! fl = Some (OFeature g frest);
  targets_geometry : h !! g = Some (OGeometry ty c grest) }.

(** The store the shared tail leaves: five new objects, the last of them
    the editor it returns. *)
Definition rebuilt (h : heap) (i : Z) (rest : list (string * field))
    (elems : list val) (frest : list (string * field)) (ty : string)
    (c' : val) (grest : list (string * field)) : heap :=
  let n := length h in
  h ++ [ OGeometry ty c' grest;
         OFeature n frest;
         OArray (splice_in elems i (VRef (n + 1)));
         OCollection (n + 2) rest;
         OEditor (n + 3) ].

(** What [updated] holds after the ring repair of
    [immutablyRemovePosition]. *)
Definition repaired (updated : list val) (len i : Z) : list val :=
  let last := Z.of_nat (length updated) - 1 in
  if i =? 0 then store VUndef updated last (index updated 0)
  else if i =? len - 1 then store VUndef updated 0 (index updated last)
  else updated.

(** *** A concrete store: one Polygon feature with the ring
    [[0,0],[1,0],[1,1],[0,0]], and a LineString feature. *)
Definition example_heap : heap :=
  [ OArray [VNum 0; VNum 0];                            (* 0 *)
    OArray [VNum 1; VNum 0];                            (* 1 *)
    OArray [VNum 1; VNum 1];                            (* 2 *)
    OArray [VRef 0; VRef 1; VRef 2; VRef 0];            (* 3: the ring *)
    OArray [VRef 3];                                    (* 4 *)
    OGeometry "Polygon" (VRef 4) [];                    (* 5 *)
    OFeature 5 [("type", FStr "Feature")];              (* 6 *)
    OArray [VRef 0; VRef 2];                            (* 7 *)
    OGeometry "LineString" (VRef 7) [];                 (* 8 *)
    OFeature 8 [("type", FStr "Feature")];              (* 9 *)
    OArray [VRef 6; VRef 9];                            (* 10 *)
    OCollection 10 [("type", FStr "FeatureCollection")];(* 11 *)
    OEditor 11 ].                                       (* 12 *)

End Heap.

(** * The heap model read back as trees *)

Module Refinement.
Import Heap.

(** [repr h v t]: in the store [h] the value [v] stands for the tree [t]. *)
#[warnings="-register-all"]
Inductive repr (h : heap) : val -> Tree.value -> Prop :=
| repr_undef : repr h VUndef Tree.Undef
| repr_num n : repr h (VNum n) (Tree.Num n)
| repr_array l elems ts :
    h !! l = Some (OArray elems) ->
    Forall2 (repr h) elems ts ->
    repr h (VRef l) (Tree.Arr ts).

Inductive repr_field (h : heap) : field -> Tree.json -> Prop :=
| repr_str s : repr_field h (FStr s) (Tree.JStr s)
| repr_val v t : repr h v t -> repr_field h (FVal v) (Tree.JVal t).

Definition repr_fields (h : heap) (fs : list (string * field))
    (js : list (string * Tree.json)) : Prop :=
  Forall2 (fun a b => a.1 = b.1 /\ repr_field h a.2 b.2) fs js.

Definition repr_feature (h : heap) (v : val) (f : Tree.Feature) : Prop :=
  exists fl g frest c grest,
    v = VRef fl /\
    h !! fl = Some (OFeature g frest) /\
    h !! g = Some (OGeometry (Tree.type (Tree.geometry f)) c grest) /\
    repr h c (Tree.coordinates (Tree.geometry f)) /\
    repr_fields h grest (Tree.geometry_rest (Tree.geometry f)) /\
    repr_fields h frest (Tree.feature_rest f).

Definition repr_editor (h : heap) (this : loc)
    (T : Tree.EditableFeatureCollection) : Prop :=
  exists fc fs rest elems,
    h !! this = Some (OEditor fc) /\
    h !! fc = Some (OCollection fs rest) /\
    h !! fs = Some (OArray elems) /\
    Forall2 (repr_feature h) elems
      (Tree.features (Tree.featureCollection T)) /\
    repr_fields h rest (Tree.collection_rest (Tree.featureCollection T)).

(** The outcome [r] of a heap computation, in the store [h'] it leaves,
    stands for the outcome [R] of the tree function: the same exception, or
    a value that stands for the tree value. *)
Definition refines {A B} (rel : heap -> A -> B -> Prop)
    (h' : heap) (r : result A) (R : result B) : Prop :=
  match R with
  | Ok t => exists a, r = Ok a /\ rel h' a t
  | Throw e => r = Throw e
  end.

(** [h'] holds every object of [h]. *)
Definition extends (h h' : heap) : Prop :=
  forall l o, h !! l = Some o -> h' !! l = Some o.

End Refinement.

(** * Shapes of coordinates *)

Module Shape.
Import Tree.

(** The ring the terminal step of [immutablyReplacePosition] builds. *)
Definition replaced (ring : list value) (k : Z) (pos : value) (b : bool)
    : list value :=
  if b && is_end (Z.of_nat (length ring)) k
  then store Undef (store Undef (splice_in ring k pos) 0 pos)
         (Z.of_nat (length ring) - 1) pos
  else splice_in ring k pos.

(** Two values with the same arrays down to [d] levels: what
    [flattenPositions] looks at on coordinates of depth [d]. *)
Fixpoint same_shape (d : nat) (v w : value) : Prop :=
  match d with
  | O => True
  | S d' =>
    match v, w with
    | Arr vs, Arr ws => Forall2 (same_shape d') vs ws
    | Num _, Num _ => True
    | Undef, Undef => True
    | _, _ => False
    end
  end.

(** Two values with arrays in the same places down to [d] levels, whatever
    the lengths of the arrays of the last level: what decides whether the
    loops of [flattenPositions] run to their end. *)
Fixpoint same_arrays (d : nat) (v w : value) : Prop :=
  match d with
  | O => True
  | S d' =>
    match v, w with
    | Arr vs, Arr ws =>
      match d' with
      | O => True
      | S _ => Forall2 (same_arrays d') vs ws
      end
    | Num _, Num _ => True
    | Undef, Undef => True
    | _, _ => False
    end
  end.

(** The ring the terminal step of [immutablyRemovePosition] builds, when
    the guard lets it through. *)
Definition removed (ring : list value) (k : Z) (b : bool) : list value :=
  if b && is_end (Z.of_nat (length ring)) k
  then repair_removed (splice_out ring k) (Z.of_nat (length ring)) k
  else splice_out ring k.

(** The last index of [path] is the first or the last index of the array
    it addresses in [c]. *)
Fixpoint on_ring_end (c : value) (path : list Z) : bool :=
  match path, c with
  | [k], Arr ring => is_end (Z.of_nat (length ring)) k
  | i :: (_ :: _) as rest, Arr elems => on_ring_end (index elems i) rest
  | _, _ => false
  end.

(** The six type names [flattenPositions] has a case for. *)
Definition supported_types : list string :=
  ["Point"; "MultiPoint"; "LineString"; "Polygon"; "MultiLineString";
   "MultiPolygon"].

End Shape.

(** * What an edit copies and what it shares *)

Module Sharing.
Import Heap.

(** [copied_along n h h' c c' path]: going down [path] from [c] in the
    store [h] and from [c'] in the store [h'], each array met from [c']
    lies at an address from [n] on, is as long as the array met from [c],
    and holds off the path what that one holds: the same numbers and the
    same references. *)
Fixpoint copied_along (n : nat) (h h' : heap) (c c' : val) (path : list Z)
    : Prop :=
  match path with
  | [] => True
  | i :: rest =>
    exists l elems l' elems',
      c = VRef l /\ h !! l = Some (OArray elems) /\
      c' = VRef l' /\ h' !! l' = Some (OArray elems') /\
      (n <= l')%nat /\
      length elems' = length elems /\
      (forall j, j <> i -> at_index elems' j = at_index elems j) /\
      copied_along n h h' (index elems i) (index elems' i) rest
  end.

(** The slots of a ring of [len] positions that the terminal step of
    [immutablyReplacePosition] writes: [k], and both ends when [k] is an
    end of a polygon ring. *)
Definition written (len k : Z) (b : bool) (j : Z) : bool :=
  (j =? k) || (b && is_end len k && is_end len j).

(** The slot of the original ring of [len] positions whose content the
    slot [j] of the ring returned by [immutablyRemovePosition] holds. *)
Definition origin (len k : Z) (b : bool) (j : Z) : Z :=
  if b && is_end len k then
    if k =? 0 then (if j =? len - 2 then 1 else j + 1)
    else (if j =? 0 then len - 2 else j)
  else if j <? k then j else j + 1.

(** The collection [example_heap] holds, as a value. *)
Definition example_tree : Tree.EditableFeatureCollection :=
  {| Tree.featureCollection :=
       {| Tree.features :=
            [ {| Tree.geometry :=
                   {| Tree.type := "Polygon";
                      Tree.coordinates := Tree.Arr [Tree.Arr Tree.triangle];
                      Tree.geometry_rest := [] |};
                 Tree.feature_rest := [("type", Tree.JStr "Feature")] |};
              {| Tree.geometry :=
                   {| Tree.type := "LineString";
                      Tree.coordinates :=
                        Tree.Arr [Tree.pt 0 0; Tree.pt 1 1];
                      Tree.geometry_rest := [] |};
                 Tree.feature_rest := [("type", Tree.JStr "Feature")] |} ];
          Tree.collection_rest :=
            [("type", Tree.JStr "FeatureCollection")] |} |}.

(** A store with a LineString of three positions. *)
Definition example_line_heap : heap :=
  [ OArray [VNum 0; VNum 0];                            (* 0 *)
    OArray [VNum 1; VNum 0];                            (* 1 *)
    OArray [VNum 1; VNum 1];                            (* 2 *)
    OArray [VRef 0; VRef 1; VRef 2];                    (* 3 *)
    OGeometry "LineString" (VRef 3) [];                 (* 4 *)
    OFeature 4 [];                                      (* 5 *)
    OArray [VRef 5];                                    (* 6 *)
    OCollection 6 [];                                   (* 7 *)
    OEditor 7 ].                                        (* 8 *)

End Sharing.

(** * The pointer gestures of [EditableLayer]

    modules/core/src/lib/layers/editable-layer.js.  The layer turns the
    pointer events of the canvas into calls of seven overridable handlers.
    The model runs its methods on a [World]: the object
    [this.state._editableLayerState], the listeners of
    [this.context.gl.canvas], and a counter that names the functions
    [bind] makes.  It records each call of a handler with its argument.

    What is taken from the environment: deck.gl's [setState] merges its
    argument into [this.state] before it returns; the handlers do not write
    [_editableLayerState]; [addEventListener] appends a listener unless the
    same function is registered for the same type, [removeEventListener]
    takes it off, and [bind] returns a function no one else holds;
    a listener of another owner does not touch the layer; [unproject] and
    [pickObject] are whatever the context of the event makes them;
    coordinates are whole pixels.  A run stops at the first exception. *)

Module Layer.

(** [clientX] and [clientY] of a pointer event. *)
Record PointerEvent := {
  clientX : Z;
  clientY : Z }.

(** The four methods that are bound and registered. *)
Inductive Method :=
| M_onPointerMove
| M_onPointerDown
| M_onPointerUp
| M_onDoubleClick.

(** A function: [method.bind(this)], with the number that tells it from
    every other function, or a function of some other owner. *)
Inductive Fn :=
| Bound (m : Method) (id : nat)
| Foreign (id : nat).

#[global] Instance Method_eq_dec : EqDecision Method :=
  ltac:(solve_decision).
#[global] Instance Fn_eq_dec : EqDecision Fn := ltac:(solve_decision).

(** [this.state._editableLayerState.pointerHandlers] *)
Record Handlers := {
  onPointerMove : Fn;
  onPointerDown : Fn;
  onPointerUp : Fn;
  onDoubleClick : Fn }.

(** Minimum number of pixels the pointer must move from the original
    pointer down to be considered dragging. *)
Definition MINIMUM_POINTER_MOVE_THRESHOLD_PIXELS : Z := 7.

(** [screenCoords1] is read from the state and may be [null]. *)
Definition movedEnoughForDrag (screenCoords1 : option (Z * Z))
    (screenCoords2 : Z * Z) : result bool :=
  match screenCoords1 with
  | None => Throw TypeError
  | Some screenCoords1 =>
    Ok ((Z.abs (screenCoords1.1 - screenCoords2.1)
           >? MINIMUM_POINTER_MOVE_THRESHOLD_PIXELS)
        || (Z.abs (screenCoords1.2 - screenCoords2.2)
              >? MINIMUM_POINTER_MOVE_THRESHOLD_PIXELS))
  end.

(** The listeners of the canvas without the first registration of
    [listener] for [type]. *)
Fixpoint without (type : string) (listener : Fn)
    (listeners : list (string * Fn)) : list (string * Fn) :=
  match listeners with
  | [] => []
  | l :: rest =>
    if bool_decide (l = (type, listener)) then rest
    else l :: without type listener rest
  end.

Section layer.
(** A ground position is what [viewport.unproject] returns and a pick an
    element of what [layerManager.pickObject] returns; the layer hands them
    on and looks at the number of picks only. *)
Context {Ground Pick : Type}.

(** [this.context] while an event is handled: the corner of
    [gl.canvas.getBoundingClientRect()], [viewport.unproject] and
    [layerManager.pickObject] as a function of the position, the radius and
    the depth it is asked with. *)
Record LayerContext := {
  canvasRect : Z * Z;
  unproject : Z * Z -> Ground;
  pickObject : Z * Z -> Z -> option Z -> list Pick }.

Record EditableLayerState := {
  pointerHandlers : option Handlers;
  pointerDownPicks : option (list Pick);
  pointerDownScreenCoords : option (Z * Z);
  pointerDownGroundCoords : option Ground;
  isDragging : bool }.

(** The calls of the overridable handlers, with the fields of the event
    each is given. *)
Inductive Call :=
| OnClick (picks : option (list Pick)) (screenCoords : Z * Z)
    (groundCoords : Ground)
| OnDoubleClick (groundCoords : Ground)
| OnStartDragging (picks : option (list Pick)) (screenCoords : Z * Z)
    (groundCoords : Ground) (dragStartScreenCoords : option (Z * Z))
    (dragStartGroundCoords : option Ground)
| OnStopDragging (picks : option (list Pick)) (screenCoords : Z * Z)
    (groundCoords : Ground) (dragStartScreenCoords : option (Z * Z))
    (dragStartGroundCoords : option Ground)
| OnPointerMove (screenCoords : Z * Z) (groundCoords : Ground)
    (picks : list Pick) (isDragging : bool)
    (dragStartPicks : option (list Pick))
    (dragStartScreenCoords : option (Z * Z))
    (dragStartGroundCoords : option Ground) (sourceEvent : PointerEvent)
| OnPointerDown (screenCoords : Z * Z) (groundCoords : Ground)
    (picks : list Pick) (sourceEvent : PointerEvent)
| OnPointerUp (screenCoords : Z * Z) (groundCoords : Ground)
    (sourceEvent : PointerEvent).

Record World := {
  state : EditableLayerState;
  canvas : list (string * Fn);
  bound : nat }.

(** A method runs on a world, may throw, and leaves a world and the calls
    it made, in order. *)
Definition L (A : Type) : Type := World -> result A * World * list Call.

#[global] Instance L_ret : MRet L := fun A a w => (Ok a, w, []).
#[global] Instance L_bind : MBind L := fun A B f m w =>
  match m w with
  | (Ok a, w', calls) =>
    let '(r, w'', calls') := f a w' in (r, w'', calls ++ calls')
  | (Throw e, w', calls) => (Throw e, w', calls)
  end.

Definition lift {A} (r : result A) : L A := fun w => (r, w, []).

Definition call (c : Call) : L unit := fun w => (Ok (), w, [c]).

(** [this.state._editableLayerState] *)
Definition getState : L EditableLayerState := fun w => (Ok (state w), w, []).

(** [this.setState({ _editableLayerState: s })] *)
Definition setState (s : EditableLayerState) : L unit := fun w =>
  (Ok (), {| state := s; canvas := canvas w; bound := bound w |}, []).

(** [method.bind(this)] *)
Definition bind (m : Method) : L Fn := fun w =>
  (Ok (Bound m (bound w)),
   {| state := state w; canvas := canvas w; bound := S (bound w) |}, []).

(** [this.context.gl.canvas.addEventListener(type, listener)] *)
Definition addEventListener (type : string) (listener : Fn) : L unit :=
  fun w =>
  (Ok (),
   {| state := state w;
      canvas := if bool_decide ((type, listener) ∈ canvas w) then canvas w
                else canvas w ++ [(type, listener)];
      bound := bound w |}, []).

(** [this.context.gl.canvas.removeEventListener(type, listener)] *)
Definition removeEventListener (type : string) (listener : Fn) : L unit :=
  fun w =>
  (Ok (),
   {| state := state w;
      canvas := without type listener (canvas w);
      bound := bound w |}, []).

Definition initializeState : L unit :=
  setState {| pointerHandlers := None;
              pointerDownPicks := None;
              pointerDownScreenCoords := None;
              pointerDownGroundCoords := None;
              isDragging := false |}.

(** [this.state._editableLayerState.pointerHandlers = h], in place. *)
Definition assign_pointerHandlers (h : option Handlers) : L unit :=
  s ← getState;
  setState {| pointerHandlers := h;
              pointerDownPicks := pointerDownPicks s;
              pointerDownScreenCoords := pointerDownScreenCoords s;
              pointerDownGroundCoords := pointerDownGroundCoords s;
              isDragging := isDragging s |}.

(** [this.state._editableLayerState.pointerHandlers.<field>]: a
    [TypeError] on [null]. *)
Definition pointerHandler (field : Handlers -> Fn) : L Fn :=
  s ← getState;
  match pointerHandlers s with
  | Some h => mret (field h)
  | None => lift (Throw TypeError)
  end.

Definition _removePointerHandlers : L unit :=
  s ← getState;
  match pointerHandlers s with
  | Some _ =>
    (f ← pointerHandler onPointerMove; removeEventListener "pointermove" f);;
    (f ← pointerHandler onPointerDown; removeEventListener "pointerdown" f);;
    (f ← pointerHandler onPointerUp; removeEventListener "pointerup" f);;
    (f ← pointerHandler onDoubleClick; removeEventListener "dblclick" f)
  | None => mret ()
  end;;
  assign_pointerHandlers None.

Definition _addPointerHandlers : L unit :=
  move ← bind M_onPointerMove;
  down ← bind M_onPointerDown;
  up ← bind M_onPointerUp;
  double ← bind M_onDoubleClick;
  assign_pointerHandlers
    (Some {| onPointerMove := move;
             onPointerDown := down;
             onPointerUp := up;
             onDoubleClick := double |});;
  (f ← pointerHandler onPointerMove; addEventListener "pointermove" f);;
  (f ← pointerHandler onPointerDown; addEventListener "pointerdown" f);;
  (f ← pointerHandler onPointerUp; addEventListener "pointerup" f);;
  (f ← pointerHandler onDoubleClick; addEventListener "dblclick" f).

Definition finalizeState : L unit := _removePointerHandlers.

Definition updateState : L unit :=
  _removePointerHandlers;; _addPointerHandlers.

Definition getScreenCoords (context : LayerContext)
    (pointerEvent : PointerEvent) : Z * Z :=
  (clientX pointerEvent - (canvasRect context).1,
   clientY pointerEvent - (canvasRect context).2).

Definition getGroundCoords (context : LayerContext) (screenCoords : Z * Z)
    : Ground :=
  unproject context (screenCoords.1, screenCoords.2).

Definition _onDoubleClick (context : LayerContext) (event : PointerEvent)
    : L unit :=
  let screenCoords := getScreenCoords context event in
  let groundCoords := getGroundCoords context screenCoords in
  call (OnDoubleClick groundCoords).

Definition _onPointerDown (context : LayerContext) (event : PointerEvent)
    : L unit :=
  let screenCoords := getScreenCoords context event in
  let groundCoords := getGroundCoords context screenCoords in
  let picks :=
    pickObject context (screenCoords.1, screenCoords.2) 10 None in
  s ← getState;
  setState {| pointerHandlers := pointerHandlers s;
              pointerDownScreenCoords := Some screenCoords;
              pointerDownGroundCoords := Some groundCoords;
              pointerDownPicks := Some picks;
              isDragging := false |};;
  call (OnPointerDown screenCoords groundCoords picks event).

Definition _onPointerMove (context : LayerContext) (event : PointerEvent)
    : L unit :=
  let screenCoords := getScreenCoords context event in
  let groundCoords := getGroundCoords context screenCoords in
  s ← getState;
  let downPicks := pointerDownPicks s in
  let downScreenCoords := pointerDownScreenCoords s in
  let downGroundCoords := pointerDownGroundCoords s in
  dragging ←
    match downPicks with
    | Some (_ :: _) =>
      if negb (isDragging s) then
        moved ← lift (movedEnoughForDrag downScreenCoords screenCoords);
        if moved : bool then
          call (OnStartDragging downPicks screenCoords groundCoords
                  downScreenCoords downGroundCoords);;
          s' ← getState;
          setState {| pointerHandlers := pointerHandlers s';
                      pointerDownPicks := pointerDownPicks s';
                      pointerDownScreenCoords := pointerDownScreenCoords s';
                      pointerDownGroundCoords := pointerDownGroundCoords s';
                      isDragging := true |};;
          mret true
        else mret (isDragging s)
      else mret (isDragging s)
    | _ => mret (isDragging s)
    end;
  let picks :=
    pickObject context (screenCoords.1, screenCoords.2) 1000 (Some 2) in
  call (OnPointerMove screenCoords groundCoords picks dragging
          downPicks downScreenCoords downGroundCoords event).

Definition _onPointerUp (context : LayerContext) (event : PointerEvent)
    : L unit :=
  let screenCoords := getScreenCoords context event in
  let groundCoords := getGroundCoords context screenCoords in
  s ← getState;
  let downPicks := pointerDownPicks s in
  let downScreenCoords := pointerDownScreenCoords s in
  let downGroundCoords := pointerDownGroundCoords s in
  match downScreenCoords with
  | None => mret ()
  | Some _ =>
    (if isDragging s then
       call (OnStopDragging downPicks screenCoords groundCoords
               downScreenCoords downGroundCoords)
     else
       moved ← lift (movedEnoughForDrag downScreenCoords screenCoords);
       if negb moved then
         call (OnClick downPicks screenCoords groundCoords)
       else mret ());;
    s' ← getState;
    setState {| pointerHandlers := pointerHandlers s';
                pointerDownScreenCoords := None;
                pointerDownGroundCoords := None;
                pointerDownPicks := None;
                isDragging := false |};;
    call (OnPointerUp screenCoords groundCoords event)
  end.

(** A call of the function [f] with the event. *)
Definition invoke (f : Fn) (context : LayerContext) (event : PointerEvent)
    : L unit :=
  match f with
  | Bound M_onPointerMove _ => _onPointerMove context event
  | Bound M_onPointerDown _ => _onPointerDown context event
  | Bound M_onPointerUp _ => _onPointerUp context event
  | Bound M_onDoubleClick _ => _onDoubleClick context event
  | Foreign _ => mret ()
  end.

(** The canvas receives an event of the given type: the listeners
    registered for the type are called in the order of registration. *)
Fixpoint invoke_all (listeners : list (string * Fn)) (type : string)
    (context : LayerContext) (event : PointerEvent) : L unit :=
  match listeners with
  | [] => mret ()
  | (ty, f) :: rest =>
    (if bool_decide (ty = type) then invoke f context event else mret ());;
    invoke_all rest type context event
  end.

Definition dispatchEvent (type : string) (context : LayerContext)
    (event : PointerEvent) : L unit := fun w =>
  invoke_all (canvas w) type context event w.

(** What happens to a layer once it is initialised: deck.gl updates it,
    the canvas receives events, and at the end deck.gl finalises it. *)
Inductive Input :=
| Update
| Finalize
| Dom (type : string) (context : LayerContext) (event : PointerEvent).

Definition step (i : Input) : L unit :=
  match i with
  | Update => updateState
  | Finalize => finalizeState
  | Dom type context event => dispatchEvent type context event
  end.

Fixpoint run (inputs : list Input) : L unit :=
  match inputs with
  | [] => mret ()
  | i :: rest => step i;; run rest
  end.

(** ** What the layer keeps true *)

(** The registrations [_addPointerHandlers] makes for the handlers [h]. *)
Definition own (h : Handlers) : list (string * Fn) :=
  [ ("pointermove", onPointerMove h);
    ("pointerdown", onPointerDown h);
    ("pointerup", onPointerUp h);
    ("dblclick", onDoubleClick h) ].

(** Listeners that are no functions of this layer. *)
Definition foreign (listeners : list (string * Fn)) : Prop :=
  Forall (fun l => match l.2 with Foreign _ => True | Bound _ _ => False end)
    listeners.

(** The handlers are the four methods, bound before the [n]-th [bind]. *)
Definition installed (n : nat) (h : Handlers) : Prop :=
  exists a b c d,
    h = {| onPointerMove := Bound M_onPointerMove a;
           onPointerDown := Bound M_onPointerDown b;
           onPointerUp := Bound M_onPointerUp c;
           onDoubleClick := Bound M_onDoubleClick d |} /\
    (a < n)%nat /\ (b < n)%nat /\ (c < n)%nat /\ (d < n)%nat.

(** The three records of the pointer-down are set and cleared together,
    and the layer is dragging only what the pointer went down on. *)
Definition coherent (s : EditableLayerState) : Prop :=
  match pointerDownScreenCoords s with
  | Some _ =>
    is_Some (pointerDownPicks s) /\ is_Some (pointerDownGroundCoords s) /\
    (isDragging s = true -> pointerDownPicks s <> Some [])
  | None =>
    pointerDownPicks s = None /\ pointerDownGroundCoords s = None /\
    isDragging s = false
  end.

(** On a canvas that had the listeners [base] when the layer was
    initialised. *)
Definition sound (base : list (string * Fn)) (w : World) : Prop :=
  foreign base /\ coherent (state w) /\
  match pointerHandlers (state w) with
  | Some h => installed (bound w) h /\ canvas w = base ++ own h
  | None => canvas w = base
  end.

(** What the types of the events promise to a handler: picks that are an
    array, and for a drag picks that are not empty and the place where the
    drag started. *)
Definition well_formed (c : Call) : Prop :=
  match c with
  | OnClick picks _ _ => is_Some picks
  | OnStartDragging picks _ _ start ground
  | OnStopDragging picks _ _ start ground =>
    (exists p ps, picks = Some (p :: ps)) /\ is_Some start /\ is_Some ground
  | OnPointerMove _ _ _ dragging picks start ground _ =>
    dragging = true ->
    (exists p ps, picks = Some (p :: ps)) /\ is_Some start /\ is_Some ground
  | _ => True
  end.

(** The drag that is open in a state: the screen position it started
    from. *)
Definition open_drag (s : EditableLayerState) : option (Z * Z) :=
  if isDragging s then pointerDownScreenCoords s else None.

(** The order of the calls, as an observer that follows the open drag:
    [onStartDragging] comes when no drag is open and opens one;
    [onStopDragging] comes for the open drag, names its start and closes
    it; [onClick] and [onPointerUp] come when no drag is open;
    [onPointerMove] says [isDragging] exactly when one is; [onPointerDown]
    leaves no drag open.  [None] when a call is out of order. *)
Definition follow (open : option (Z * Z)) (c : Call)
    : option (option (Z * Z)) :=
  match c with
  | OnStartDragging _ _ _ start _ =>
    match open, start with
    | None, Some _ => Some start
    | _, _ => None
    end
  | OnStopDragging _ _ _ start _ =>
    match open with
    | Some _ => if bool_decide (start = open) then Some None else None
    | None => None
    end
  | OnClick _ _ _ | OnPointerUp _ _ _ =>
    match open with
    | None => Some None
    | Some _ => None
    end
  | OnPointerMove _ _ _ dragging _ _ _ _ =>
    if bool_decide (dragging = bool_decide (open <> None)) then Some open
    else None
  | OnPointerDown _ _ _ _ => Some None
  | OnDoubleClick _ => Some open
  end.

Fixpoint follow_all (open : option (Z * Z)) (calls : list Call)
    : option (option (Z * Z)) :=
  match calls with
  | [] => Some open
  | c :: rest => open' ← follow open c; follow_all open' rest
  end.

(** A method that keeps all of it: run on a sound world it returns, the
    world it leaves is sound, and its calls are well formed and in
    order. *)
Definition keeps (base : list (string * Fn)) (m : L unit) : Prop :=
  forall w, sound base w ->
    exists w' calls,
      m w = (Ok (), w', calls) /\ sound base w' /\
      Forall well_formed calls /\
      follow_all (open_drag (state w)) calls = Some (open_drag (state w')).

(** The world [w] with other records of the pointer-down. *)
Definition with_pointer (w : World) (picks : option (list Pick))
    (screenCoords : option (Z * Z)) (groundCoords : option Ground)
    (dragging : bool) : World :=
  {| state := {| pointerHandlers := pointerHandlers (state w);
                 pointerDownPicks := picks;
                 pointerDownScreenCoords := screenCoords;
                 pointerDownGroundCoords := groundCoords;
                 isDragging := dragging |};
     canvas := canvas w;
     bound := bound w |}.

(** Two worlds with the same records of the pointer-down. *)
Definition same_pointer (w1 w2 : World) : Prop :=
  pointerDownPicks (state w1) = pointerDownPicks (state w2) /\
  pointerDownScreenCoords (state w1) = pointerDownScreenCoords (state w2) /\
  pointerDownGroundCoords (state w1) = pointerDownGroundCoords (state w2) /\
  isDragging (state w1) = isDragging (state w2).

(** The event of the canvas that a move [m] is. *)
Definition pointermove (m : LayerContext * PointerEvent) : Input :=
  Dom "pointermove" m.1 m.2.

(** The pointer is within the threshold of [start] at the move [m]. *)
Definition near (start : Z * Z) (m : LayerContext * PointerEvent) : Prop :=
  movedEnoughForDrag (Some start) (getScreenCoords m.1 m.2) = Ok false.

(** The inputs without the updates. *)
Fixpoint without_updates (inputs : list Input) : list Input :=
  match inputs with
  | [] => []
  | Update :: rest => without_updates rest
  | i :: rest => i :: without_updates rest
  end.

Definition is_finalize (i : Input) : bool :=
  match i with Finalize => true | _ => false end.

(** The call of [onPointerMove] for the event [m], in a state with the
    given records of the pointer-down. *)
Definition moved_call (dragging : bool) (picks : option (list Pick))
    (start : option (Z * Z)) (ground : option Ground)
    (m : LayerContext * PointerEvent) : Call :=
  let screenCoords := getScreenCoords m.1 m.2 in
  OnPointerMove screenCoords (getGroundCoords m.1 screenCoords)
    (pickObject m.1 (screenCoords.1, screenCoords.2) 1000 (Some 2))
    dragging picks start ground m.2.

End layer.

(** *** A canvas at (10, 20) whose left half is covered by one object. *)
Definition example_context : @LayerContext (Z * Z) nat :=
  {| canvasRect := (10, 20);
     unproject := fun screenCoords => screenCoords;
     pickObject := fun screenCoords _ _ =>
                     if screenCoords.1 <? 100 then [0%nat] else [] |}.

Definition example_world : @World (Z * Z) nat :=
  {| state := {| pointerHandlers := None;
                 pointerDownPicks := None;
                 pointerDownScreenCoords := None;
                 pointerDownGroundCoords := None;
                 isDragging := false |};
     canvas := [("wheel", Foreign 0)];
     bound := 1 |}.

(** [example_world] once the layer is updated. *)
Definition example_ready_world : @World (Z * Z) nat :=
  {| state := {| pointerHandlers :=
                   Some {| onPointerMove := Bound M_onPointerMove 1;
                           onPointerDown := Bound M_onPointerDown 2;
                           onPointerUp := Bound M_onPointerUp 3;
                           onDoubleClick := Bound M_onDoubleClick 4 |};
                 pointerDownPicks := None;
                 pointerDownScreenCoords := None;
                 pointerDownGroundCoords := None;
                 isDragging := false |};
     canvas := [("wheel", Foreign 0);
                ("pointermove", Bound M_onPointerMove 1);
                ("pointerdown", Bound M_onPointerDown 2);
                ("pointerup", Bound M_onPointerUp 3);
                ("dblclick", Bound M_onDoubleClick 4)];
     bound := 5 |}.

(** Pointer events at the screen positions (10, 10), (13, 12), (30, 10)
    and (150, 10) of that canvas. *)
Definition at_10_10 : PointerEvent := {| clientX := 20; clientY := 30 |}.
Definition at_13_12 : PointerEvent := {| clientX := 23; clientY := 32 |}.
Definition at_30_10 : PointerEvent := {| clientX := 40; clientY := 30 |}.
Definition at_150_10 : PointerEvent := {| clientX := 160; clientY := 30 |}.

End Layer.

(** * Facts about the array primitives *)

Section js_array_facts.
Context {A : Type}.
Implicit Types (l : list A) (i k : Z) (x : A).

Lemma clamp_in_range (len k : Z) : 0 <= k <= len -> clamp len k = k.
Proof. unfold clamp. destruct (k <? 0) eqn:E; lia. Qed.

Lemma clamp_above (len k : Z) : 0 <= len <= k -> clamp len k = len.
Proof. unfold clamp. destruct (k <? 0) eqn:E; lia. Qed.

Lemma slice_prefix l i : 0 <= i -> slice l 0 i = take (Z.to_nat i) l.
Proof.
  intros Hi. unfold slice.
  rewrite (clamp_in_range _ 0) by lia. rewrite Z.sub_0_r, drop_0.
  destruct (Z.le_gt_cases i (Z.of_nat (length l))).
  - by rewrite clamp_in_range by lia.
  - rewrite clamp_above by lia. rewrite Nat2Z.id, !take_ge by lia. done.
Qed.

Lemma slice_suffix l k : 0 <= k -> slice_from l k = drop (Z.to_nat k) l.
Proof.
  intros Hk. unfold slice_from, slice.
  rewrite (clamp_above _ (Z.of_nat (length l))) by lia.
  destruct (Z.le_gt_cases k (Z.of_nat (length l))).
  - rewrite clamp_in_range by lia. apply take_ge. rewrite length_drop. lia.
  - rewrite clamp_above by lia. rewrite Nat2Z.id, !drop_ge by lia.
    by rewrite take_nil.
Qed.

Lemma splice_in_insert l i x :
  0 <= i < Z.of_nat (length l) -> splice_in l i x = <[Z.to_nat i := x]> l.
Proof.
  intros Hi. unfold splice_in.
  rewrite slice_prefix, slice_suffix by lia.
  replace (Z.to_nat (i + 1)) with (S (Z.to_nat i)) by lia.
  symmetry. apply insert_take_drop. lia.
Qed.

Lemma splice_in_id l i x : at_index l i = Some x -> splice_in l i x = l.
Proof.
  unfold at_index. destruct (i <? 0) eqn:E; [done|]. intros Hx.
  rewrite splice_in_insert.
  - by apply list_insert_id.
  - apply lookup_lt_Some in Hx. lia.
Qed.

Lemma splice_out_delete l i :
  0 <= i -> splice_out l i = take (Z.to_nat i) l ++ drop (S (Z.to_nat i)) l.
Proof.
  intros Hi. unfold splice_out.
  rewrite slice_prefix, slice_suffix by lia.
  by replace (Z.to_nat (i + 1)) with (S (Z.to_nat i)) by lia.
Qed.

Lemma at_index_Some l i x :
  at_index l i = Some x <-> 0 <= i /\ l !! Z.to_nat i = Some x.
Proof.
  unfold at_index. destruct (i <? 0) eqn:E.
  - split; [done | lia].
  - split; [intros; split; [lia | done] | by intros [_ ?]].
Qed.

Lemma at_index_lt l i x : at_index l i = Some x -> 0 <= i < Z.of_nat (length l).
Proof. rewrite at_index_Some. intros [? H%lookup_lt_Some]. lia. Qed.

Lemma at_index_nat l (n : nat) : at_index l (Z.of_nat n) = l !! n.
Proof.
  unfold at_index. destruct (Z.ltb_spec (Z.of_nat n) 0); [lia|].
  by rewrite Nat2Z.id.
Qed.

Lemma at_index_splice_in l i x :
  0 <= i < Z.of_nat (length l) -> at_index (splice_in l i x) i = Some x.
Proof.
  intros Hi. rewrite splice_in_insert by done.
  apply at_index_Some. split; [lia|].
  apply list_lookup_insert_eq. lia.
Qed.

Lemma at_index_splice_in_ne l i j x :
  0 <= i < Z.of_nat (length l) -> i <> j ->
  at_index (splice_in l i x) j = at_index l j.
Proof.
  intros Hi Hne. rewrite splice_in_insert by done.
  unfold at_index. destruct (j <? 0) eqn:E; [done|].
  apply list_lookup_insert_ne. lia.
Qed.

Lemma length_splice_in l i x :
  0 <= i < Z.of_nat (length l) -> length (splice_in l i x) = length l.
Proof. intros Hi. rewrite splice_in_insert by done. apply length_insert. Qed.

Lemma store_insert (hole : A) l k x :
  0 <= k < Z.of_nat (length l) -> store hole l k x = <[Z.to_nat k := x]> l.
Proof.
  intros Hk. unfold store.
  destruct (k <? 0) eqn:E; [lia|].
  destruct (k <? Z.of_nat (length l)) eqn:E'; [done | lia].
Qed.
End js_array_facts.

(** The primitives act alike on two lists related slot by slot. *)
Section js_array_related.
Context {A B : Type} (R : A -> B -> Prop).
Implicit Types (l : list A) (k : list B).

Lemma Forall2_slice l k a b :
  Forall2 R l k -> Forall2 R (slice l a b) (slice k a b).
Proof.
  intros H. unfold slice. rewrite <- (Forall2_length _ _ _ H).
  by apply Forall2_take, Forall2_drop.
Qed.

Lemma Forall2_slice_from l k a :
  Forall2 R l k -> Forall2 R (slice_from l a) (slice_from k a).
Proof.
  intros H. unfold slice_from. rewrite <- (Forall2_length _ _ _ H).
  by apply Forall2_slice.
Qed.

Lemma Forall2_splice_in l k i x y :
  Forall2 R l k -> R x y -> Forall2 R (splice_in l i x) (splice_in k i y).
Proof.
  intros H Hxy. unfold splice_in.
  apply Forall2_app; [by apply Forall2_slice|].
  apply Forall2_app; [by constructor | by apply Forall2_slice_from].
Qed.

Lemma Forall2_splice_out l k i :
  Forall2 R l k -> Forall2 R (splice_out l i) (splice_out k i).
Proof.
  intros H. unfold splice_out.
  apply Forall2_app; [by apply Forall2_slice | by apply Forall2_slice_from].
Qed.

Lemma Forall2_store hole hole' l k i x y :
  R hole hole' -> Forall2 R l k -> R x y ->
  Forall2 R (store hole l i x) (store hole' k i y).
Proof.
  intros Hh H Hxy. unfold store. rewrite <- (Forall2_length _ _ _ H).
  destruct (i <? 0); [done|].
  destruct (i <? Z.of_nat (length l)); [by apply Forall2_insert|].
  apply Forall2_app; [done|].
  apply Forall2_app; [by apply Forall2_replicate | by constructor].
Qed.

Lemma Forall2_at_index l k i :
  Forall2 R l k -> option_Forall2 R (at_index l i) (at_index k i).
Proof.
  intros H. unfold at_index. destruct (i <? 0); [constructor|].
  by apply Forall2_lookup.
Qed.
End js_array_related.

(** * Properties of the tree model *)

Module TreeFacts.
Import Tree.

Lemma is_end_spec len k : is_end len k = true <-> k = 0 \/ k = len - 1.
Proof. unfold is_end. rewrite orb_true_iff, !Z.eqb_eq. done. Qed.

Lemma index_Some l i x : at_index l i = Some x -> index l i = x.
Proof. unfold index. by intros ->. Qed.

Lemma index_None l i : at_index l i = None -> index l i = Undef.
Proof. unfold index. by intros ->. Qed.

(** Unfolding equations: one for the terminal index, one for a longer
    path. *)
Lemma replace_at_last elems i pos b :
  immutablyReplacePosition_at (Arr elems) [i] pos b =
  Ok (Arr (if b && is_end (Z.of_nat (length elems)) i
           then store Undef (store Undef (splice_in elems i pos) 0 pos)
                  (Z.of_nat (length elems) - 1) pos
           else splice_in elems i pos)).
Proof. simpl. by destruct (b && _). Qed.

Lemma replace_at_cons elems i rest pos b :
  rest <> [] ->
  immutablyReplacePosition_at (Arr elems) (i :: rest) pos b =
  immutablyReplacePosition_at (index elems i) rest pos b ≫= fun inner =>
  Ok (Arr (splice_in elems i inner)).
Proof. by destruct rest. Qed.

Lemma remove_at_cons elems i rest b :
  rest <> [] ->
  immutablyRemovePosition_at (Arr elems) (i :: rest) b =
  immutablyRemovePosition_at (index elems i) rest b ≫= fun inner =>
  Ok (Arr (splice_in elems i inner)).
Proof. by destruct rest. Qed.

(** Rewriting below a prefix: when [prefix] leads to [x] and the edit of
    [x] along [suffix] gives [x'], the edit of the whole gives a tree in
    which [prefix] leads to [x']. *)
Lemma replace_at_below c prefix suffix x x' pos b :
  suffix <> [] ->
  descend c prefix = Some x ->
  immutablyReplacePosition_at x suffix pos b = Ok x' ->
  exists c', immutablyReplacePosition_at c (prefix ++ suffix) pos b = Ok c'
             /\ descend c' prefix = Some x'.
Proof.
  intros Hs. revert c. induction prefix as [|i p IH]; intros c Hd Hx.
  - simplify_eq/=. eauto.
  - simpl in Hd. destruct c as [| |elems]; try done.
    destruct (at_index elems i) as [y|] eqn:Hy; [|done]. simpl in Hd.
    destruct (IH y Hd Hx) as (y' & Hy' & Hdy').
    exists (Arr (splice_in elems i y')). split.
    + change ((i :: p) ++ suffix) with (i :: (p ++ suffix)).
      rewrite replace_at_cons by (by destruct p, suffix).
      rewrite (index_Some _ _ _ Hy), Hy'. done.
    + simpl. rewrite at_index_splice_in by eauto using at_index_lt. done.
Qed.

Lemma remove_at_below c prefix suffix x x' b :
  suffix <> [] ->
  descend c prefix = Some x ->
  immutablyRemovePosition_at x suffix b = Ok x' ->
  exists c', immutablyRemovePosition_at c (prefix ++ suffix) b = Ok c'
             /\ descend c' prefix = Some x'.
Proof.
  intros Hs. revert c. induction prefix as [|i p IH]; intros c Hd Hx.
  - simplify_eq/=. eauto.
  - simpl in Hd. destruct c as [| |elems]; try done.
    destruct (at_index elems i) as [y|] eqn:Hy; [|done]. simpl in Hd.
    destruct (IH y Hd Hx) as (y' & Hy' & Hdy').
    exists (Arr (splice_in elems i y')). split.
    + change ((i :: p) ++ suffix) with (i :: (p ++ suffix)).
      rewrite remove_at_cons by (by destruct p, suffix).
      rewrite (index_Some _ _ _ Hy), Hy'. done.
    + simpl. rewrite at_index_splice_in by eauto using at_index_lt. done.
Qed.

(** An error below a prefix surfaces unchanged. *)
Lemma remove_at_below_throw c prefix suffix x e b :
  suffix <> [] ->
  descend c prefix = Some x ->
  immutablyRemovePosition_at x suffix b = Throw e ->
  immutablyRemovePosition_at c (prefix ++ suffix) b = Throw e.
Proof.
  intros Hs. revert c. induction prefix as [|i p IH]; intros c Hd Hx.
  - by simplify_eq/=.
  - simpl in Hd. destruct c as [| |elems]; try done.
    destruct (at_index elems i) as [y|] eqn:Hy; [|done]. simpl in Hd.
    change ((i :: p) ++ suffix) with (i :: (p ++ suffix)).
    rewrite remove_at_cons by (by destruct p, suffix).
    rewrite (index_Some _ _ _ Hy), (IH y Hd Hx). done.
Qed.

Lemma remove_at_last elems i b :
  immutablyRemovePosition_at (Arr elems) [i] b =
  if b && (Z.of_nat (length elems) <? 5) then Throw (Error msg_triangle)
  else Ok (Arr (if b && is_end (Z.of_nat (length elems)) i
                then repair_removed (splice_out elems i)
                       (Z.of_nat (length elems)) i
                else splice_out elems i)).
Proof. simpl. destruct (b && (_ <? 5)); [done|]. by destruct (b && _). Qed.

(** The ring left by the removal of its first position: the old positions
    1 .. len-2 followed by a copy of the old position 1. *)
Lemma remove_first_ring ring :
  5 <= Z.of_nat (length ring) ->
  let len := Z.of_nat (length ring) in
  let ring' := repair_removed (splice_out ring 0) len 0 in
  Z.of_nat (length ring') = len - 1 /\
  at_index ring' (len - 2) = at_index ring 1 /\
  forall j, 0 <= j < len - 2 -> at_index ring' j = at_index ring (j + 1).
Proof.
  intros Hlen len ring'. subst ring' len. unfold repair_removed. simpl.
  rewrite splice_out_delete by lia. rewrite Z2Nat.inj_0, take_0. simpl.
  assert (Hl : length (drop 1 ring) = (length ring - 1)%nat)
    by (rewrite length_drop; lia).
  rewrite Hl. rewrite store_insert by lia.
  rewrite length_insert, Hl.
  destruct (lookup_lt_is_Some_2 ring 1 ltac:(lia)) as [x Hx].
  assert (Hi : index (drop 1 ring) 0 = x).
  { apply index_Some, at_index_Some. split; [done|].
    rewrite lookup_drop. exact Hx. }
  rewrite Hi. split; [lia|]. split.
  - rewrite (proj2 (at_index_Some ring 1 x)) by done.
    apply at_index_Some. split; [lia|].
    replace (Z.to_nat (Z.of_nat (length ring) - 2))
      with (Z.to_nat (Z.of_nat (length ring - 1) - 1)) by lia.
    apply list_lookup_insert_eq. lia.
  - intros j Hj. unfold at_index.
    destruct (Z.ltb_spec j 0); [lia|]. destruct (Z.ltb_spec (j + 1) 0); [lia|].
    rewrite list_lookup_insert_ne by lia. rewrite lookup_drop.
    f_equal. lia.
Qed.

(** The ring left by the removal of its last position: a copy of the old
    position len-2 followed by the old positions 1 .. len-2. *)
Lemma remove_last_ring ring :
  5 <= Z.of_nat (length ring) ->
  let len := Z.of_nat (length ring) in
  let ring' := repair_removed (splice_out ring (len - 1)) len (len - 1) in
  Z.of_nat (length ring') = len - 1 /\
  at_index ring' 0 = at_index ring (len - 2) /\
  forall j, 0 < j <= len - 2 -> at_index ring' j = at_index ring j.
Proof.
  intros Hlen len ring'. subst ring' len. unfold repair_removed.
  destruct (Z.eqb_spec (Z.of_nat (length ring) - 1) 0); [lia|].
  rewrite Z.eqb_refl.
  rewrite splice_out_delete by lia.
  rewrite (drop_ge ring) by lia. rewrite app_nil_r.
  assert (Hl : length (take (Z.to_nat (Z.of_nat (length ring) - 1)) ring)
               = (length ring - 1)%nat) by (rewrite length_take; lia).
  rewrite Hl. rewrite store_insert by lia.
  rewrite length_insert, Hl.
  destruct (lookup_lt_is_Some_2 ring (length ring - 2) ltac:(lia)) as [x Hx].
  assert (Hi : index (take (Z.to_nat (Z.of_nat (length ring) - 1)) ring)
                 (Z.of_nat (length ring - 1) - 1) = x).
  { apply index_Some, at_index_Some. split; [lia|].
    rewrite lookup_take_lt by lia. rewrite <- Hx. f_equal. lia. }
  rewrite Hi. split; [lia|]. split.
  - rewrite (proj2 (at_index_Some ring (Z.of_nat (length ring) - 2) x)).
    + apply at_index_Some. split; [done|].
      apply list_lookup_insert_eq. lia.
    + split; [lia|]. rewrite <- Hx. f_equal. lia.
  - intros j Hj. unfold at_index. destruct (Z.ltb_spec j 0); [lia|].
    rewrite list_lookup_insert_ne by lia.
    apply lookup_take_lt. lia.
Qed.

(** The ring an end replacement leaves. *)
Lemma replace_end_ring ring k pos :
  0 <= k < Z.of_nat (length ring) ->
  is_end (Z.of_nat (length ring)) k = true ->
  let ring' := store Undef (store Undef (splice_in ring k pos) 0 pos)
                 (Z.of_nat (length ring) - 1) pos in
  length ring' = length ring /\
  at_index ring' 0 = Some pos /\
  at_index ring' (Z.of_nat (length ring) - 1) = Some pos /\
  forall j, 0 < j < Z.of_nat (length ring) - 1 ->
            at_index ring' j = at_index ring j.
Proof.
  intros Hk He ring'. subst ring'.
  rewrite splice_in_insert by done.
  rewrite (store_insert _ _ 0) by (rewrite length_insert; lia).
  rewrite store_insert by (rewrite !length_insert; lia).
  repeat split.
  - by rewrite !length_insert.
  - apply at_index_Some. split; [done|].
    destruct (decide (Z.to_nat (Z.of_nat (length ring) - 1) = Z.to_nat 0)) as [->|].
    + apply list_lookup_insert_eq. rewrite !length_insert. lia.
    + rewrite list_lookup_insert_ne by done.
      apply list_lookup_insert_eq. rewrite !length_insert. lia.
  - apply at_index_Some. split; [lia|].
    apply list_lookup_insert_eq. rewrite !length_insert. lia.
  - intros j Hj. unfold at_index. destruct (Z.ltb_spec j 0); [lia|].
    apply is_end_spec in He.
    rewrite !list_lookup_insert_ne by lia. done.
Qed.

Lemma value_ind' (P : value -> Prop) :
  P Undef -> (forall n, P (Num n)) ->
  (forall elems, Forall P elems -> P (Arr elems)) ->
  forall v, P v.
Proof.
  intros HU HN HA. fix IH 1. intros [| n | elems].
  - exact HU.
  - apply HN.
  - apply HA. induction elems as [|x xs IHxs]; constructor;
      [apply IH | exact IHxs].
Qed.

Lemma value_eqb_eq x y : value_eqb x y = true <-> x = y.
Proof.
  revert y. induction x as [| m | xs IH] using value_ind';
    intros [| n | ys]; simpl; try (split; [done | done]).
  - rewrite Z.eqb_eq. split; congruence.
  - revert ys. induction IH as [|x xs Hx _ IHxs]; intros [|y ys];
      try (split; [done | done]).
    rewrite andb_true_iff, Hx, IHxs. split.
    + by intros [-> [= ->]].
    + by intros [= -> ->].
Qed.

(** *** What [flattenPositions] computes *)

Lemma concat_rings_spec prefix b rings acc :
  concat_rings prefix b rings acc =
  if forallb is_array rings
  then Ok (acc ++ mjoin (imap (fun i ring =>
                    ring_handles (prefix ++ [Z.of_nat (b + i)]) ring) rings))
  else Throw TypeError.
Proof.
  revert b acc. induction rings as [|ring rest IH]; intros b acc.
  - simpl. by rewrite app_nil_r.
  - simpl. destruct ring as [| |elems]; try done. simpl.
    rewrite IH. destruct (forallb is_array rest); [|done].
    rewrite Nat.add_0_r, <- app_assoc. do 4 f_equal.
    apply imap_ext. intros i x _. simpl. do 3 f_equal. lia.
Qed.

Lemma concat_polygons_spec a polygons acc :
  concat_polygons a polygons acc =
  if forallb loopable polygons
  then Ok (acc ++ mjoin (imap (fun i polygon =>
                    polygon_handles (a + i) polygon) polygons))
  else Throw TypeError.
Proof.
  revert a acc. induction polygons as [|polygon rest IH]; intros a acc.
  - simpl. by rewrite app_nil_r.
  - simpl. destruct polygon as [| n |rings]; simpl.
    + done.
    + rewrite IH. destruct (forallb loopable rest); [|done].
      f_equal. f_equal. f_equal. apply imap_ext. intros i x _. simpl.
      f_equal. lia.
    + rewrite concat_rings_spec.
      destruct (forallb is_array rings); [|done]. simpl.
      rewrite IH. destruct (forallb loopable rest); [|done].
      rewrite Nat.add_0_r, <- app_assoc. do 4 f_equal.
      apply imap_ext. intros i x _. simpl. f_equal. lia.
Qed.

Lemma join_imap_singleton {A B} (f : nat -> A -> B) (l : list A) :
  mjoin (imap (fun i x => [f i x]) l) = imap f l.
Proof.
  revert f. induction l as [|x l IH]; intros f; [done|].
  simpl. f_equal. apply (IH (f ∘ S)).
Qed.

Lemma fmap_join {A B} (f : A -> B) (ls : list (list A)) :
  f <$> mjoin ls = mjoin (fmap f <$> ls).
Proof.
  induction ls as [|l ls IH]; [done|].
  simpl. by rewrite fmap_app, IH.
Qed.

Lemma ring_handles_cons a prefix v :
  ring_handles (a :: prefix) v = under a <$> ring_handles prefix v.
Proof.
  destruct v as [| |elems]; try done. simpl.
  rewrite fmap_imap. by apply imap_ext.
Qed.

Lemma enumerate_1 v : enumerate 1 v = ring_handles [] v.
Proof.
  destruct v as [| |elems]; try done. simpl.
  apply (join_imap_singleton (handle_at [])).
Qed.

Lemma enumerate_2 v :
  enumerate 2 v =
  match v with
  | Arr rings =>
    mjoin (imap (fun i ring => ring_handles [Z.of_nat i] ring) rings)
  | _ => []
  end.
Proof.
  destruct v as [| |rings]; try done.
  change (enumerate 2 (Arr rings)) with
    (mjoin (imap (fun i x => under (Z.of_nat i) <$> enumerate 1 x) rings)).
  f_equal. apply imap_ext. intros i x _.
  by rewrite enumerate_1, ring_handles_cons.
Qed.

Lemma polygon_handles_enumerate a v :
  polygon_handles a v = under (Z.of_nat a) <$> enumerate 2 v.
Proof.
  rewrite enumerate_2. destruct v as [| |rings]; try done. simpl.
  rewrite fmap_join, fmap_imap. f_equal. apply imap_ext. intros i x _.
  simpl. by rewrite ring_handles_cons.
Qed.

Lemma enumerate_3 v :
  enumerate 3 v =
  match v with
  | Arr polygons => mjoin (imap polygon_handles polygons)
  | _ => []
  end.
Proof.
  destruct v as [| |polygons]; try done.
  change (enumerate 3 (Arr polygons)) with
    (mjoin (imap (fun i x => under (Z.of_nat i) <$> enumerate 2 x) polygons)).
  f_equal. apply imap_ext. intros i x _.
  by rewrite polygon_handles_enumerate.
Qed.

(** [flattenPositions] throws on an unsupported type and when a loop meets a
    value it cannot run on; otherwise it returns the enumeration. *)
Lemma flattenPositions_spec g :
  flattenPositions g =
  match depth_of (type g) with
  | None => Throw (Error (msg_unhandled (type g)))
  | Some d =>
    if flattens d (coordinates g) then Ok (enumerate d (coordinates g))
    else Throw TypeError
  end.
Proof.
  unfold flattenPositions, depth_of.
  destruct (bool_decide (type g = "Point")); [done|].
  destruct (_ || _).
  { rewrite enumerate_1. destruct (coordinates g); reflexivity. }
  destruct (_ || _).
  { rewrite enumerate_2. destruct (coordinates g) as [| |rings]; try done.
    simpl. rewrite concat_rings_spec.
    by destruct (forallb is_array rings). }
  destruct (bool_decide _); [|done].
  rewrite enumerate_3. destruct (coordinates g) as [| |polygons]; try done.
  simpl. rewrite concat_polygons_spec.
  by destruct (forallb loopable polygons).
Qed.

Lemma depth_of_le_3 t d : depth_of t = Some d -> (d <= 3)%nat.
Proof.
  unfold depth_of. repeat case_match; intros [= <-]; lia.
Qed.

Lemma well_shaped_is_array x : well_shaped 1 x -> is_array x = true.
Proof. by destruct x. Qed.

Lemma well_shaped_loopable x : well_shaped 2 x -> loopable x = true.
Proof.
  destruct x as [| |rings]; try done.
  change (Forall (well_shaped 1) rings -> forallb is_array rings = true).
  induction 1 as [|ring rest Hring _ IH]; [done|].
  simpl. by rewrite (well_shaped_is_array _ Hring), IH.
Qed.

Lemma well_shaped_flattens d v :
  (d <= 3)%nat -> well_shaped d v -> flattens d v = true.
Proof.
  intros Hd. destruct d as [|[|[|[|d]]]]; try lia.
  - done.
  - apply well_shaped_is_array.
  - apply well_shaped_loopable.
  - destruct v as [| |polygons]; try done.
    change (Forall (well_shaped 2) polygons ->
            forallb loopable polygons = true).
    induction 1 as [|polygon rest Hp _ IH]; [done|].
    simpl. by rewrite (well_shaped_loopable _ Hp), IH.
Qed.

(** *** The enumeration: which handles, and in which order *)

Lemma elem_of_enumerate d v h :
  h ∈ enumerate d v <->
  length (positionIndexes h) = d /\
  descend v (positionIndexes h) = Some (position h).
Proof.
  revert v h. induction d as [|d IH]; intros v [pos path].
  - simpl. rewrite list_elem_of_singleton. split.
    + by intros [= -> ->].
    + intros [Hl Hd]. destruct path; [|done]. simpl in Hd. congruence.
  - destruct v as [| |elems].
    1,2: simpl; split; [by intros ?%not_elem_of_nil |];
         intros [Hl Hd]; by destruct path.
    simpl. rewrite list_elem_of_join. split.
    + intros (l & Hh & Hl). apply elem_of_lookup_imap in Hl
        as (i & x & -> & Hx).
      apply list_elem_of_fmap in Hh as ([pos' path'] & [= -> ->] & Hh').
      apply IH in Hh' as [Hlen Hd]. simpl in *. split; [by f_equal|].
      by rewrite at_index_nat, Hx.
    + intros [Hl Hd]. destruct path as [|j p]; [done|].
      injection Hl as Hl. simpl in Hd.
      destruct (at_index elems j) as [x|] eqn:Hx; [|done].
      apply at_index_Some in Hx as [Hj Hx]. simpl in Hd.
      eexists. split; [|by apply elem_of_lookup_imap_2].
      apply list_elem_of_fmap.
      exists {| position := pos; positionIndexes := p |}. split.
      * unfold under. simpl. rewrite Z2Nat.id by done. done.
      * by apply IH.
Qed.

Lemma lex_lt_irrefl p : ~ lex_lt p p.
Proof.
  induction p as [|i p IH]; simpl; [tauto|].
  intros [?|[_ ?]]; [lia | by apply IH].
Qed.

Lemma StronglySorted_NoDup {A} (R : relation A) (l : list A) :
  (forall x, ~ R x x) -> StronglySorted R l -> NoDup l.
Proof.
  intros Hirr. induction 1 as [|x l _ IH Hx]; constructor; [|done].
  intros Hin. rewrite Forall_forall in Hx. by eapply Hirr, Hx.
Qed.

(** The paths of the handles grouped under the indexes [b], [b + 1], ... *)
Lemma grouped_paths_head d b elems :
  Forall (fun q => exists j q', q = j :: q' /\ Z.of_nat b <= j)
    (positionIndexes <$>
       mjoin (imap (fun i x => under (Z.of_nat (b + i)) <$> enumerate d x)
                elems)).
Proof.
  revert b. induction elems as [|x rest IH]; intros b; [constructor|].
  simpl. rewrite fmap_app. apply Forall_app. split.
  - rewrite <- list_fmap_compose. apply Forall_fmap, Forall_true.
    intros h. simpl. eexists _, _. split; [done|]. lia.
  - eapply Forall_impl.
    + erewrite imap_ext; [apply (IH (S b))|].
      intros i y _. simpl. do 2 f_equal. lia.
    + simpl. intros q (j & q' & -> & Hj). eexists _, _. split; [done|]. lia.
Qed.

Lemma grouped_paths_sorted d b elems :
  (forall x, StronglySorted lex_lt (positionIndexes <$> enumerate d x)) ->
  StronglySorted lex_lt
    (positionIndexes <$>
       mjoin (imap (fun i x => under (Z.of_nat (b + i)) <$> enumerate d x)
                elems)).
Proof.
  intros Hd. revert b. induction elems as [|x rest IH]; intros b.
  { constructor. }
  simpl. rewrite fmap_app.
  assert (Hrest : imap ((fun i y => under (Z.of_nat (b + i)) <$> enumerate d y)
                        ∘ S) rest =
                  imap (fun i y => under (Z.of_nat (S b + i)) <$> enumerate d y)
                    rest).
  { apply imap_ext. intros i y _. simpl. do 2 f_equal. lia. }
  rewrite Hrest. apply StronglySorted_app_2.
  - intros p q Hp Hq.
    apply list_elem_of_fmap in Hp as (h & -> & Hh).
    apply list_elem_of_fmap in Hh as (h' & -> & _).
    pose proof (grouped_paths_head d (S b) rest) as Hhead.
    rewrite Forall_forall in Hhead.
    destruct (Hhead q Hq) as (j & q' & -> & Hj).
    simpl. left. lia.
  - rewrite <- list_fmap_compose.
    rewrite (list_fmap_ext _ (cons (Z.of_nat (b + 0)) ∘ positionIndexes))
      by done.
    rewrite list_fmap_compose.
    apply (StronglySorted_fmap _ lex_lt lex_lt); [|apply Hd].
    intros p q Hpq. simpl. by right.
  - apply IH.
Qed.

Lemma enumerate_sorted d v :
  StronglySorted lex_lt (positionIndexes <$> enumerate d v).
Proof.
  revert v. induction d as [|d IH]; intros v.
  - repeat constructor.
  - destruct v as [| |elems]; try constructor.
    apply (grouped_paths_sorted d 0 elems IH).
Qed.

Lemma enumerate_NoDup d v : NoDup (positionIndexes <$> enumerate d v).
Proof.
  eapply StronglySorted_NoDup; [apply lex_lt_irrefl | apply enumerate_sorted].
Qed.

Lemma polygonal_spec t :
  polygonal t = true <-> t = "Polygon" \/ t = "MultiPolygon".
Proof.
  unfold polygonal. rewrite orb_true_iff, !bool_decide_eq_true. done.
Qed.

(** What the two methods return once the coordinates are rewritten. *)
Lemma replacePosition_Ok this i f path pos c' :
  at_index (features (getObject this)) i = Some f ->
  immutablyReplacePosition (coordinates (geometry f)) path pos
    (polygonal (type (geometry f))) = Ok c' ->
  replacePosition this i path pos =
  Ok {| featureCollection := with_coordinates (getObject this) i f c' |}.
Proof. unfold replacePosition, getObject. by intros -> ->. Qed.

Lemma removePosition_Ok this i f path c' :
  at_index (features (getObject this)) i = Some f ->
  immutablyRemovePosition (coordinates (geometry f)) path
    (polygonal (type (geometry f))) = Ok c' ->
  removePosition this i path =
  Ok {| featureCollection := with_coordinates (getObject this) i f c' |}.
Proof. unfold removePosition, getObject. by intros -> ->. Qed.

Lemma with_coordinates_at fc i f c' :
  at_index (features fc) i = Some f ->
  exists f', at_index (features (with_coordinates fc i f c')) i = Some f'
             /\ coordinates (geometry f') = c'
             /\ type (geometry f') = type (geometry f).
Proof.
  intros Hf. eexists. split.
  - simpl. apply at_index_splice_in. eauto using at_index_lt.
  - done.
Qed.

(** C1. For a Polygon or MultiPolygon feature and a path that addresses
    the first or the last position of a ring, [replacePosition] returns a
    collection in which that ring has the same length and both its first
    and its last position are the new position. *)
Theorem replace_end_sets_both_ends this i f prefix k ring pos :
  at_index (features (getObject this)) i = Some f ->
  type (geometry f) = "Polygon" \/ type (geometry f) = "MultiPolygon" ->
  descend (coordinates (geometry f)) prefix = Some (Arr ring) ->
  0 <= k < Z.of_nat (length ring) ->
  k = 0 \/ k = Z.of_nat (length ring) - 1 ->
  exists this' f' ring',
    replacePosition this i (Some (prefix ++ [k])) pos = Ok this' /\
    at_index (features (getObject this')) i = Some f' /\
    descend (coordinates (geometry f')) prefix = Some (Arr ring') /\
    length ring' = length ring /\
    at_index ring' 0 = Some pos /\
    at_index ring' (Z.of_nat (length ring') - 1) = Some pos.
Proof.
  intros Hf Hty Hring Hk Hend.
  apply polygonal_spec in Hty. apply is_end_spec in Hend.
  pose proof (replace_at_last ring k pos true) as Hlast.
  rewrite Hend in Hlast. simpl in Hlast.
  destruct (replace_at_below _ prefix [k] _ _ pos true ltac:(done) Hring Hlast)
    as (c' & Hc' & Hd').
  destruct (with_coordinates_at (getObject this) i f c' Hf)
    as (f' & Hf' & Hcf' & _).
  destruct (replace_end_ring ring k pos Hk Hend) as (Hlen & H0 & Hl & _).
  eexists _, f', _. split; [|split; [|split; [|split; [|split]]]].
  - apply (replacePosition_Ok _ _ f); [done|]. rewrite Hty. exact Hc'.
  - exact Hf'.
  - rewrite Hcf'. exact Hd'.
  - exact Hlen.
  - exact H0.
  - rewrite Hlen. exact Hl.
Qed.

(** The instance of the specification: the ring [[0,0],[1,0],[1,1],[0,0]]
    and [replacePosition(0, [0,0], [5,5])]. *)
Lemma replace_end_sets_both_ends_triangle :
  exists this' f' ring',
    replacePosition triangle_polygon 0 (Some [0; 0]) (pt 5 5) = Ok this' /\
    at_index (features (getObject this')) 0 = Some f' /\
    descend (coordinates (geometry f')) [0] = Some (Arr ring') /\
    length ring' = 4%nat /\
    at_index ring' 0 = Some (pt 5 5) /\
    at_index ring' (Z.of_nat (length ring') - 1) = Some (pt 5 5).
Proof.
  apply (replace_end_sets_both_ends triangle_polygon 0
           (feature_of "Polygon" (Arr [Arr triangle])) [0] 0 triangle (pt 5 5)).
  - reflexivity.
  - left. reflexivity.
  - reflexivity.
  - simpl. lia.
  - left. reflexivity.
Defined.

(** C4. For a Polygon or MultiPolygon feature and a ring of at least 5
    positions, removing the first position sets the new last position to the
    new first one (the old second position), and removing the last position
    sets the new first position to the new last one (the old position before
    the last); either way the ring is one shorter and its first and last
    positions are equal. *)
Theorem remove_end_recloses_ring this i f prefix k ring :
  at_index (features (getObject this)) i = Some f ->
  type (geometry f) = "Polygon" \/ type (geometry f) = "MultiPolygon" ->
  descend (coordinates (geometry f)) prefix = Some (Arr ring) ->
  5 <= Z.of_nat (length ring) ->
  k = 0 \/ k = Z.of_nat (length ring) - 1 ->
  exists this' f' ring' x,
    removePosition this i (Some (prefix ++ [k])) = Ok this' /\
    at_index (features (getObject this')) i = Some f' /\
    descend (coordinates (geometry f')) prefix = Some (Arr ring') /\
    Z.of_nat (length ring') = Z.of_nat (length ring) - 1 /\
    at_index ring' 0 = Some x /\
    at_index ring' (Z.of_nat (length ring') - 1) = Some x /\
    (k = 0 -> at_index ring 1 = Some x) /\
    (k = Z.of_nat (length ring) - 1 ->
     at_index ring (Z.of_nat (length ring) - 2) = Some x).
Proof.
  intros Hf Hty Hring Hlen Hend.
  apply polygonal_spec in Hty.
  pose proof (remove_at_last ring k true) as Hlast.
  destruct (Z.ltb_spec (Z.of_nat (length ring)) 5); [lia|].
  rewrite (proj2 (is_end_spec _ _) Hend) in Hlast. simpl in Hlast.
  destruct (remove_at_below _ prefix [k] _ _ true ltac:(done) Hring Hlast)
    as (c' & Hc' & Hd').
  destruct (with_coordinates_at (getObject this) i f c' Hf)
    as (f' & Hf' & Hcf' & _).
  assert (Hrun : removePosition this i (Some (prefix ++ [k])) =
                 Ok {| featureCollection :=
                         with_coordinates (getObject this) i f c' |}).
  { apply (removePosition_Ok _ _ f); [done|]. rewrite Hty. exact Hc'. }
  rewrite <- Hcf' in Hd'.
  destruct Hend as [-> | ->].
  - destruct (remove_first_ring ring Hlen) as (Hl & Hlast' & Hshift).
    destruct (lookup_lt_is_Some_2 ring 1 ltac:(lia)) as [x Hx].
    assert (Hx' : at_index ring 1 = Some x) by (by apply at_index_Some).
    eexists _, f', _, x. split; [exact Hrun|].
    split; [exact Hf'|]. split; [exact Hd'|]. split; [exact Hl|].
    split; [|split; [|split]].
    + rewrite (Hshift 0) by lia. exact Hx'.
    + rewrite Hl. rewrite <- Hx', <- Hlast'. f_equal. lia.
    + done.
    + intros. lia.
  - destruct (remove_last_ring ring Hlen) as (Hl & Hfirst' & Hsame).
    destruct (lookup_lt_is_Some_2 ring (length ring - 2) ltac:(lia))
      as [x Hx].
    assert (Hx' : at_index ring (Z.of_nat (length ring) - 2) = Some x).
    { apply at_index_Some. split; [lia|]. rewrite <- Hx. f_equal. lia. }
    eexists _, f', _, x. split; [exact Hrun|].
    split; [exact Hf'|]. split; [exact Hd'|]. split; [exact Hl|].
    split; [|split; [|split]].
    + rewrite Hfirst'. exact Hx'.
    + rewrite Hl.
      replace (Z.of_nat (length ring) - 1 - 1)
        with (Z.of_nat (length ring) - 2) by lia.
      rewrite Hsame by lia. exact Hx'.
    + intros. lia.
    + done.
Qed.

(** An instance: the last position of a ring of 5 is removed. *)
Lemma remove_end_recloses_ring_square :
  exists this' f' ring' x,
    removePosition square_polygon 0 (Some [0; 4]) = Ok this' /\
    at_index (features (getObject this')) 0 = Some f' /\
    descend (coordinates (geometry f')) [0] = Some (Arr ring') /\
    Z.of_nat (length ring') = 4 /\
    at_index ring' 0 = Some x /\
    at_index ring' (Z.of_nat (length ring') - 1) = Some x /\
    (4 = 0 -> at_index square 1 = Some x) /\
    (4 = 4 -> at_index square 3 = Some x).
Proof.
  apply (remove_end_recloses_ring square_polygon 0
           (feature_of "Polygon" (Arr [Arr square])) [0] 4 square).
  - reflexivity.
  - left. reflexivity.
  - reflexivity.
  - simpl. lia.
  - right. reflexivity.
Defined.

(** C3, as the code has it.  On the ring [[0,0],[1,0],[1,1],[0,0]] the
    call [removePosition(0, [0,0])] is refused by the guard on rings of
    fewer than 5 positions.  On the ring [[0,0],[1,0],[1,1],[0,1],[0,0]] it
    succeeds and leaves the ring [[1,0],[1,1],[0,1],[1,0]]: 4 positions, the
    first equal to the last, 3 of them distinct. *)
Theorem remove_first_of_triangle_and_square :
  removePosition triangle_polygon 0 (Some [0; 0]) = Throw (Error msg_triangle)
  /\
  exists this' f',
    removePosition square_polygon 0 (Some [0; 0]) = Ok this' /\
    at_index (features (getObject this')) 0 = Some f' /\
    coordinates (geometry f') = Arr [Arr [pt 1 0; pt 1 1; pt 0 1; pt 1 0]] /\
    length (distinct [pt 1 0; pt 1 1; pt 0 1; pt 1 0]) = 3%nat.
Proof.
  split; [reflexivity|]. eexists _, _. split; [reflexivity|].
  split; [reflexivity|]. split; reflexivity.
Qed.

(** An index path that leaves the coordinates before its end: the edit
    throws a [TypeError] as soon as indexes remain to be followed. *)
Lemma replace_at_lost c prefix rest pos b :
  descend c prefix = None -> rest <> [] ->
  immutablyReplacePosition_at c (prefix ++ rest) pos b = Throw TypeError.
Proof.
  intros Hd Hrest. revert c Hd.
  induction prefix as [|i p IH]; intros c Hd; [done|].
  change ((i :: p) ++ rest) with (i :: (p ++ rest)).
  destruct c as [| |elems]; try done.
  rewrite replace_at_cons by (by destruct p, rest).
  simpl in Hd. destruct (at_index elems i) as [y|] eqn:Hy.
  - rewrite (index_Some _ _ _ Hy), (IH y Hd). done.
  - rewrite (index_None _ _ Hy). by destruct p, rest.
Qed.

Lemma remove_at_lost c prefix rest b :
  descend c prefix = None -> rest <> [] ->
  immutablyRemovePosition_at c (prefix ++ rest) b = Throw TypeError.
Proof.
  intros Hd Hrest. revert c Hd.
  induction prefix as [|i p IH]; intros c Hd; [done|].
  change ((i :: p) ++ rest) with (i :: (p ++ rest)).
  destruct c as [| |elems]; try done.
  rewrite remove_at_cons by (by destruct p, rest).
  simpl in Hd. destruct (at_index elems i) as [y|] eqn:Hy.
  - rewrite (index_Some _ _ _ Hy), (IH y Hd). done.
  - rewrite (index_None _ _ Hy). by destruct p, rest.
Qed.

(** An error below a prefix surfaces unchanged. *)
Lemma replace_at_below_throw c prefix suffix x e pos b :
  suffix <> [] ->
  descend c prefix = Some x ->
  immutablyReplacePosition_at x suffix pos b = Throw e ->
  immutablyReplacePosition_at c (prefix ++ suffix) pos b = Throw e.
Proof.
  intros Hs. revert c. induction prefix as [|i p IH]; intros c Hd Hx.
  - by simplify_eq/=.
  - simpl in Hd. destruct c as [| |elems]; try done.
    destruct (at_index elems i) as [y|] eqn:Hy; [|done]. simpl in Hd.
    change ((i :: p) ++ suffix) with (i :: (p ++ suffix)).
    rewrite replace_at_cons by (by destruct p, suffix).
    rewrite (index_Some _ _ _ Hy), (IH y Hd Hx). done.
Qed.

(** A path with indexes left to follow once it has left the coordinates,
    or once it has reached something that is no array. *)
Lemma replace_at_astray c prefix rest pos b :
  (forall elems, descend c prefix <> Some (Arr elems)) -> rest <> [] ->
  immutablyReplacePosition_at c (prefix ++ rest) pos b = Throw TypeError.
Proof.
  intros Hd Hrest. destruct (descend c prefix) as [v|] eqn:Hv.
  - apply (replace_at_below_throw _ _ _ v); [done..|].
    destruct v as [| |elems]; [by destruct rest..|]. by destruct (Hd elems).
  - by apply replace_at_lost.
Qed.

Lemma remove_at_astray c prefix rest b :
  (forall elems, descend c prefix <> Some (Arr elems)) -> rest <> [] ->
  immutablyRemovePosition_at c (prefix ++ rest) b = Throw TypeError.
Proof.
  intros Hd Hrest. destruct (descend c prefix) as [v|] eqn:Hv.
  - apply (remove_at_below_throw _ _ _ v); [done..|].
    destruct v as [| |elems]; [by destruct rest..|]. by destruct (Hd elems).
  - by apply remove_at_lost.
Qed.

(** C9, as the code has it.  There is no bounds check.  A [featureIndex]
    outside the [features] array makes both methods throw a [TypeError], and
    so does a path that still has indexes to follow once it has left the
    coordinates or has reached something that is no array.  A last index is
    never checked against the array it addresses: there [replacePosition]
    returns a collection, whatever the index. *)
Theorem out_of_range_throws_only_before_the_last_index
    this i prefix rest k pos :
  (at_index (features (getObject this)) i = None ->
   forall path,
     replacePosition this i path pos = Throw TypeError /\
     removePosition this i path = Throw TypeError) /\
  (forall f,
     at_index (features (getObject this)) i = Some f ->
     (forall elems,
        descend (coordinates (geometry f)) prefix <> Some (Arr elems)) ->
     rest <> [] ->
     replacePosition this i (Some (prefix ++ rest)) pos = Throw TypeError /\
     removePosition this i (Some (prefix ++ rest)) = Throw TypeError) /\
  (forall f elems,
     at_index (features (getObject this)) i = Some f ->
     descend (coordinates (geometry f)) prefix = Some (Arr elems) ->
     exists this', replacePosition this i (Some (prefix ++ [k])) pos = Ok this').
Proof.
  split; [|split].
  - unfold replacePosition, removePosition, getObject. by intros ->.
  - unfold replacePosition, removePosition, getObject. intros f -> Hd Hrest.
    simpl. by rewrite replace_at_astray, remove_at_astray.
  - intros f elems Hf Hd.
    destruct (replace_at_below (coordinates (geometry f)) prefix [k]
                (Arr elems) _ pos (polygonal (type (geometry f)))
                ltac:(done) Hd (replace_at_last elems k pos _))
      as (c' & Hc' & _).
    eexists. by apply (replacePosition_Ok _ _ f).
Qed.

(** Instances on the line [[0,0],[1,1]]: there is no feature 7; the path
    [5, 0] leaves the line at its first index; the path [0, 0, 0] reaches
    the number 0 with an index to go; the path [5] does neither. *)
Lemma out_of_range_throws_only_before_the_last_index_line :
  replacePosition line 7 (Some [0]) (pt 5 5) = Throw TypeError /\
  removePosition line 7 (Some [0]) = Throw TypeError /\
  replacePosition line 0 (Some [5; 0]) (pt 5 5) = Throw TypeError /\
  removePosition line 0 (Some [5; 0]) = Throw TypeError /\
  replacePosition line 0 (Some [0; 0; 0]) (pt 5 5) = Throw TypeError /\
  removePosition line 0 (Some [0; 0; 0]) = Throw TypeError /\
  exists this', replacePosition line 0 (Some [5]) (pt 5 5) = Ok this'.
Proof.
  destruct (out_of_range_throws_only_before_the_last_index
              line 7 [] [0] 0 (pt 5 5)) as (H7 & _ & _).
  destruct (out_of_range_throws_only_before_the_last_index
              line 0 [5] [0] 0 (pt 5 5)) as (_ & H50 & _).
  destruct (out_of_range_throws_only_before_the_last_index
              line 0 [0; 0] [0] 0 (pt 5 5)) as (_ & H000 & _).
  destruct (out_of_range_throws_only_before_the_last_index
              line 0 [] [] 5 (pt 5 5)) as (_ & _ & H5).
  destruct (H7 eq_refl (Some [0])) as [Ha Hb].
  destruct (H50 _ eq_refl ltac:(discriminate) ltac:(discriminate))
    as [Hc Hd].
  destruct (H000 _ eq_refl ltac:(discriminate) ltac:(discriminate))
    as [He Hf].
  split; [exact Ha|]. split; [exact Hb|]. split; [exact Hc|].
  split; [exact Hd|]. split; [exact He|]. split; [exact Hf|].
  exact (H5 _ _ eq_refl eq_refl).
Defined.

(** C9 as the specification words it does not hold: the index 5 is outside
    the line [[0,0],[1,1]], and [replacePosition(0, [5], [5,5])] returns a
    collection whose line has a third position. *)
Lemma replace_past_the_end_appends :
  descend (Arr [pt 0 0; pt 1 1]) [5] = None /\
  replacePosition line 0 (Some [5]) (pt 5 5) =
  Ok (collection_of
        [feature_of "LineString" (Arr [pt 0 0; pt 1 1; pt 5 5])]).
Proof. split; reflexivity. Qed.

(** C3 as the specification words it does not hold: the removal from the
    4-position ring does not succeed, so it yields no ring at all. *)
Lemma remove_first_of_triangle_yields_no_ring :
  ~ exists this' f' ring',
      removePosition triangle_polygon 0 (Some [0; 0]) = Ok this' /\
      at_index (features (getObject this')) 0 = Some f' /\
      descend (coordinates (geometry f')) [0] = Some (Arr ring') /\
      length ring' = 3%nat /\
      closed ring' /\
      length (distinct ring') = 3%nat.
Proof. intros (this' & f' & ring' & Hrun & _). discriminate Hrun. Qed.

Lemma store_same l k x : at_index l k = Some x -> store Undef l k x = l.
Proof.
  intros Hx. rewrite store_insert by eauto using at_index_lt.
  apply list_insert_id. by apply at_index_Some in Hx as [_ ?].
Qed.

(** Putting back the value a path leads to changes nothing, provided the
    rings are closed when the ends of rings are mirrored. *)
Lemma replace_at_same c path v b :
  descend c path = Some v ->
  (b = true -> rings_closed (length path) c) ->
  immutablyReplacePosition_at c path v b = Ok c.
Proof.
  revert c. induction path as [|i rest IH]; intros c Hd Hclosed.
  { simpl in *. congruence. }
  simpl in Hd. destruct c as [| |elems]; try done.
  destruct (at_index elems i) as [y|] eqn:Hy; [|done]. simpl in Hd.
  destruct rest as [|j rest].
  - injection Hd as ->. rewrite replace_at_last, (splice_in_id _ _ _ Hy).
    destruct (b && is_end _ i) eqn:E; [|done].
    apply andb_true_iff in E as [-> Hend]. apply is_end_spec in Hend.
    specialize (Hclosed eq_refl). simpl in Hclosed. unfold closed in Hclosed.
    assert (H0 : at_index elems 0 = Some v) by (destruct Hend; congruence).
    assert (Hl : at_index elems (Z.of_nat (length elems) - 1) = Some v)
      by congruence.
    by rewrite (store_same _ _ _ H0), (store_same _ _ _ Hl).
  - rewrite replace_at_cons by done. rewrite (index_Some _ _ _ Hy).
    rewrite IH; [|done|].
    + simpl. by rewrite (splice_in_id _ _ _ Hy).
    + intros Hb. specialize (Hclosed Hb).
      change (Forall (rings_closed (length (j :: rest))) elems) in Hclosed.
      rewrite Forall_forall in Hclosed. apply Hclosed.
      apply at_index_Some in Hy as [_ Hy]. by eapply list_elem_of_lookup_2.
Qed.

Lemma with_coordinates_same this i f :
  at_index (features (getObject this)) i = Some f ->
  {| featureCollection :=
       with_coordinates (getObject this) i f (coordinates (geometry f)) |}
  = this.
Proof.
  destruct this as [[fs rest]], f as [[ty c grest] frest]. simpl.
  intros Hf. unfold with_coordinates. simpl. by rewrite (splice_in_id _ _ _ Hf).
Qed.

(** C7. For a feature of a supported type whose rings are closed when the
    type is Polygon or MultiPolygon, and for every handle [getEditHandles]
    returns, [replacePosition] at the handle's indexes with the handle's
    position returns a collection equal to the original. *)
Theorem replace_at_handle_changes_nothing this i f d hs h :
  at_index (features (getObject this)) i = Some f ->
  depth_of (type (geometry f)) = Some d ->
  (type (geometry f) = "Polygon" \/ type (geometry f) = "MultiPolygon" ->
   rings_closed d (coordinates (geometry f))) ->
  getEditHandles this i = Ok hs ->
  h ∈ hs ->
  replacePosition this i (Some (positionIndexes h)) (position h) = Ok this.
Proof.
  intros Hf Hdepth Hclosed Hhs Hh.
  unfold getEditHandles in Hhs. unfold getObject in Hf. rewrite Hf in Hhs.
  rewrite flattenPositions_spec, Hdepth in Hhs.
  destruct (flattens d _); [|done]. injection Hhs as <-.
  apply elem_of_enumerate in Hh as [Hlen Hd].
  rewrite (replacePosition_Ok _ _ f _ _ (coordinates (geometry f)) Hf).
  - f_equal. by apply with_coordinates_same.
  - simpl. apply replace_at_same; [done|].
    rewrite Hlen. intros Hp%polygonal_spec. auto.
Qed.

(** An instance: the handle of the closing position of the ring
    [[0,0],[1,0],[1,1],[0,0]]. *)
Lemma replace_at_handle_changes_nothing_triangle :
  replacePosition triangle_polygon 0 (Some [0; 3]) (pt 0 0)
  = Ok triangle_polygon.
Proof.
  apply (replace_at_handle_changes_nothing triangle_polygon 0
           (feature_of "Polygon" (Arr [Arr triangle])) 2
           (enumerate 2 (Arr [Arr triangle]))
           {| position := pt 0 0; positionIndexes := [0; 3] |}).
  - reflexivity.
  - reflexivity.
  - intros _. simpl. repeat constructor.
  - reflexivity.
  - apply elem_of_enumerate. split; reflexivity.
Defined.

(** C8. For a feature of a supported type with coordinates nested as deep
    as the type says, [getEditHandles] returns the enumeration of the
    positions: a handle for a position and indexes exactly when the indexes,
    as many as the depth of the type, lead to that position; the index paths
    come in lexicographic order, and none occurs twice. *)
Theorem getEditHandles_lists_each_position_once this i f d :
  at_index (features (getObject this)) i = Some f ->
  depth_of (type (geometry f)) = Some d ->
  well_shaped d (coordinates (geometry f)) ->
  exists hs,
    getEditHandles this i = Ok hs /\
    hs = enumerate d (coordinates (geometry f)) /\
    (forall h, h ∈ hs <->
       length (positionIndexes h) = d /\
       descend (coordinates (geometry f)) (positionIndexes h)
       = Some (position h)) /\
    StronglySorted lex_lt (positionIndexes <$> hs) /\
    NoDup (positionIndexes <$> hs).
Proof.
  intros Hf Hdepth Hshape. eexists. split; [|split; [reflexivity|]].
  - unfold getEditHandles. unfold getObject in Hf. rewrite Hf.
    rewrite flattenPositions_spec, Hdepth.
    by rewrite well_shaped_flattens by eauto using depth_of_le_3.
  - split; [|split].
    + intros h. apply elem_of_enumerate.
    + apply enumerate_sorted.
    + apply enumerate_NoDup.
Qed.

(** The depth of each supported type, and the instance of the
    specification: two polygons of one ring of 4 positions give 8 handles
    with 3 indexes each, polygon by polygon. *)
Lemma getEditHandles_lists_each_position_once_two_triangles :
  (depth_of "Point" = Some 0%nat /\
   depth_of "MultiPoint" = Some 1%nat /\ depth_of "LineString" = Some 1%nat /\
   depth_of "Polygon" = Some 2%nat /\ depth_of "MultiLineString" = Some 2%nat /\
   depth_of "MultiPolygon" = Some 3%nat) /\
  getEditHandles two_triangles 0 =
  Ok [ {| position := pt 0 0; positionIndexes := [0; 0; 0] |};
       {| position := pt 1 0; positionIndexes := [0; 0; 1] |};
       {| position := pt 1 1; positionIndexes := [0; 0; 2] |};
       {| position := pt 0 0; positionIndexes := [0; 0; 3] |};
       {| position := pt 0 0; positionIndexes := [1; 0; 0] |};
       {| position := pt 1 0; positionIndexes := [1; 0; 1] |};
       {| position := pt 1 1; positionIndexes := [1; 0; 2] |};
       {| position := pt 0 0; positionIndexes := [1; 0; 3] |} ] /\
  exists hs,
    getEditHandles two_triangles 0 = Ok hs /\
    hs = enumerate 3 (Arr [Arr [Arr triangle]; Arr [Arr triangle]]) /\
    (forall h, h ∈ hs <->
       length (positionIndexes h) = 3%nat /\
       descend (Arr [Arr [Arr triangle]; Arr [Arr triangle]])
         (positionIndexes h) = Some (position h)) /\
    StronglySorted lex_lt (positionIndexes <$> hs) /\
    NoDup (positionIndexes <$> hs).
Proof.
  split; [repeat split | split; [reflexivity|]].
  apply (getEditHandles_lists_each_position_once two_triangles 0
           (feature_of "MultiPolygon"
              (Arr [Arr [Arr triangle]; Arr [Arr triangle]])) 3).
  - reflexivity.
  - reflexivity.
  - simpl. repeat constructor.
Defined.

End TreeFacts.

(** * Properties of the heap model *)

Module HeapFacts.
Import Heap.

Lemma frames_ret {A} n (a : A) (Q : A -> heap -> Prop) :
  (forall h, Q a h) -> frames n (mret a) Q.
Proof. intros HQ h r h' _ [= <- <-]. auto. Qed.

Lemma frames_throw {A} n e (Q : A -> heap -> Prop) : frames n (throw e) Q.
Proof. intros h r h' _ [= <- <-]. auto. Qed.

Lemma frames_bind {A B} n (m : M A) (f : A -> M B) Q R :
  frames n m Q ->
  (forall a h0, Q a h0 -> frames n (f a) R) ->
  frames n (m ≫= f) R.
Proof.
  intros Hm Hf h r h' Hn Hrun. unfold mbind, M_bind in Hrun.
  destruct (m h) as [[a|e] h1] eqn:Hmh.
  - destruct (Hm _ _ _ Hn Hmh) as (Hlen & Htake & HQ).
    destruct (Hf a h1 HQ h1 r h' ltac:(lia) Hrun) as (Hlen' & Htake' & HR).
    split; [lia|]. split; [congruence | done].
  - injection Hrun as <- <-. destruct (Hm _ _ _ Hn Hmh) as (? & ? & _). auto.
Qed.

Lemma frames_weaken {A} n (m : M A) (Q Q' : A -> heap -> Prop) :
  frames n m Q -> (forall a h, Q a h -> Q' a h) -> frames n m Q'.
Proof.
  intros Hm HQ h r h' Hn Hrun. destruct (Hm _ _ _ Hn Hrun) as (? & ? & Hr).
  split; [done|]. split; [done|]. destruct r; auto.
Qed.

Lemma frames_reads {A} n (m : M A) :
  reads m -> frames n m (fun _ _ => True).
Proof.
  intros Hm h r h' _ Hrun. specialize (Hm h). rewrite Hrun in Hm.
  simpl in Hm. subst h'. split; [done|]. split; [done|]. by destruct r.
Qed.

Lemma reads_array_of v : reads (array_of v).
Proof. intros h. unfold array_of. by repeat case_match. Qed.

Lemma reads_array_length v : reads (array_length v).
Proof.
  intros h. unfold array_length, mbind, M_bind.
  pose proof (reads_array_of v h). by destruct (array_of v h) as [[?|?] ?].
Qed.

Lemma reads_read_editor this : reads (read_editor this).
Proof. intros h. unfold read_editor. by repeat case_match. Qed.

Lemma reads_read_collection fc : reads (read_collection fc).
Proof. intros h. unfold read_collection. by repeat case_match. Qed.

Lemma reads_read_feature v : reads (read_feature v).
Proof. intros h. unfold read_feature. by repeat case_match. Qed.

Lemma reads_read_geometry g : reads (read_geometry g).
Proof. intros h. unfold read_geometry. by repeat case_match. Qed.

Lemma reads_bind {A B} (m : M A) (f : A -> M B) :
  reads m -> (forall a, reads (f a)) -> reads (m ≫= f).
Proof.
  intros Hm Hf h. unfold mbind, M_bind. specialize (Hm h).
  destruct (m h) as [[a|e] h1]; simpl in *; subst h1; [apply Hf | done].
Qed.

Lemma reads_feature_at this i : reads (feature_at this i).
Proof.
  unfold feature_at. apply reads_bind; [apply reads_read_editor|].
  intros fc. apply reads_bind; [apply reads_read_collection|].
  intros [fs rest]. apply reads_bind; [apply reads_array_of|]. by intros ? ?.
Qed.

Create HintDb frame.
#[local] Hint Resolve reads_array_of reads_array_length reads_read_editor
  reads_read_collection reads_read_feature reads_read_geometry
  reads_feature_at : frame.

(** A new object lies beyond the framed cells. *)
Lemma frames_alloc n o :
  frames n (alloc o) (fun l h => (n <= l)%nat /\ h !! l = Some o).
Proof.
  intros h r h' Hn [= <- <-]. rewrite length_app. simpl.
  split; [lia|]. split; [by rewrite take_app_le by lia|].
  split; [done|]. by rewrite lookup_app_r, Nat.sub_diag by lia.
Qed.

(** An assignment to a cell beyond the framed ones. *)
Lemma frames_assign n arr k v :
  (n <= arr)%nat -> frames n (assign arr k v) (fun _ _ => True).
Proof.
  intros Harr h r h' Hn. unfold assign.
  destruct (h !! arr) as [[elems| | | |]|]; intros [= <- <-];
    try (split; [done|]; split; done).
  rewrite length_insert. split; [done|]. split; [|done].
  by rewrite take_insert_ge by lia.
Qed.

Ltac frame_step :=
  lazymatch goal with
  | |- frames _ (mret _) _ => apply frames_ret; auto
  | |- frames _ (throw _) _ => apply frames_throw
  | |- frames _ (_ ≫= _) _ =>
    eapply frames_bind; [|intros ? ? ?; cbv beta in *]
  | |- frames _ (alloc _) _ => apply frames_alloc
  | |- frames _ (assign _ _ _) _ =>
    apply frames_assign; cbv beta in *; tauto
  | |- frames _ (if ?c then _ else _) _ => destruct c
  | |- frames _ (match ?p with pair _ _ => _ end) _ => destruct p
  | |- frames _ _ _ => apply frames_reads; solve [auto with frame]
  end.

Lemma frames_copy_first_to_last n updated :
  (n <= updated)%nat ->
  frames n (copy_first_to_last updated) (fun _ _ => True).
Proof. intros ?. unfold copy_first_to_last. repeat frame_step. Qed.

Lemma frames_copy_last_to_first n updated :
  (n <= updated)%nat ->
  frames n (copy_last_to_first updated) (fun _ _ => True).
Proof. intros ?. unfold copy_last_to_first. repeat frame_step. Qed.

(** The two recursive functions write to the arrays they allocate and to
    nothing else. *)
Lemma frames_replace_at n c path pos b :
  frames n (immutablyReplacePosition_at c path pos b) (fun _ _ => True).
Proof.
  revert c. induction path as [|i rest IH]; intros c;
    [by apply frames_ret|].
  destruct rest as [|j rest].
  - cbn [immutablyReplacePosition_at]. repeat frame_step.
  - change (frames n (before ← array_of c;
                      inner ← immutablyReplacePosition_at (index before i)
                                (j :: rest) pos b;
                      after ← array_of c;
                      l ← alloc (OArray (slice before 0 i ++ [inner] ++
                                         slice_from after (i + 1)));
                      mret (VRef l)) (fun _ _ => True)).
    frame_step; [frame_step|]. frame_step; [apply IH|]. repeat frame_step.
Qed.

Lemma frames_remove_at n c path b :
  frames n (immutablyRemovePosition_at c path b) (fun _ _ => True).
Proof.
  revert c. induction path as [|i rest IH]; intros c;
    [apply frames_throw|].
  destruct rest as [|j rest].
  - cbn [immutablyRemovePosition_at].
    frame_step; [frame_step|]. frame_step; [frame_step|].
    frame_step; [frame_step|]. frame_step; [frame_step|].
    frame_step; [|frame_step].
    frame_step; [|frame_step].
    frame_step; [apply frames_copy_first_to_last; tauto|].
    frame_step; [frame_step|].
    frame_step; [apply frames_copy_last_to_first; tauto | frame_step].
  - change (frames n (before ← array_of c;
                      inner ← immutablyRemovePosition_at (index before i)
                                (j :: rest) b;
                      after ← array_of c;
                      l ← alloc (OArray (slice before 0 i ++ [inner] ++
                                         slice_from after (i + 1)));
                      mret (VRef l)) (fun _ _ => True)).
    frame_step; [frame_step|]. frame_step; [apply IH|]. repeat frame_step.
Qed.

Lemma frames_with_coordinates n this i featureToUpdate c' :
  frames n (with_coordinates this i featureToUpdate c') (fresh_editor n).
Proof.
  unfold with_coordinates, new_EditableFeatureCollection.
  repeat frame_step.
  eapply frames_weaken; [apply frames_alloc|].
  intros this' h' [? ?]. split; [done|]. eexists. split; [done|].
  cbv beta in *. tauto.
Qed.

Lemma frames_replacePosition n this i path pos :
  frames n (replacePosition this i path pos) (fresh_editor n).
Proof.
  unfold replacePosition. repeat frame_step.
  - destruct path as [path|]; [apply frames_replace_at | by apply frames_ret].
  - apply frames_with_coordinates.
Qed.

Lemma frames_removePosition n this i path :
  frames n (removePosition this i path) (fresh_editor n).
Proof.
  unfold removePosition. repeat frame_step.
  - destruct path as [path|]; [apply frames_remove_at | by apply frames_ret].
  - apply frames_with_coordinates.
Qed.

Lemma frames_whole_store {A} (m : M A) Q h r h' :
  frames (length h) m Q -> m h = (r, h') ->
  (forall l o, h !! l = Some o -> h' !! l = Some o) /\
  match r with Ok a => Q a h' | Throw _ => True end.
Proof.
  intros Hm Hrun. destruct (Hm h r h' ltac:(done) Hrun) as (Hlen & Htake & HQ).
  split; [|done]. intros l o Hl.
  rewrite firstn_all in Htake.
  rewrite <- (take_drop (length h) h'), Htake.
  by apply lookup_app_l_Some.
Qed.

(** C5. Whatever the arguments, and whether the call returns or throws,
    [replacePosition] and [removePosition] leave every object of the store
    they are run in where and as it was; so [getObject] on the receiver
    answers after the call what it answered before.  When the call returns,
    the result is an editor that did not exist before, and the collection it
    holds did not exist before either. *)
Theorem edits_leave_the_receiver_untouched h this i path pos r h' :
  replacePosition this i path pos h = (r, h') \/
  removePosition this i path h = (r, h') ->
  (forall l o, h !! l = Some o -> h' !! l = Some o) /\
  (forall fc, getObject this h = (Ok fc, h) ->
              getObject this h' = (Ok fc, h')) /\
  match r with
  | Ok this' =>
    (length h <= this')%nat /\
    exists fc', h' !! this' = Some (OEditor fc') /\ (length h <= fc')%nat
  | Throw _ => True
  end.
Proof.
  intros Hrun.
  assert (Hframe : (forall l o, h !! l = Some o -> h' !! l = Some o) /\
                   match r with
                   | Ok this' => fresh_editor (length h) this' h'
                   | Throw _ => True
                   end).
  { destruct Hrun as [Hrun|Hrun].
    - exact (frames_whole_store _ _ _ _ _
               (frames_replacePosition _ this i path pos) Hrun).
    - exact (frames_whole_store _ _ _ _ _
               (frames_removePosition _ this i path) Hrun). }
  destruct Hframe as [Hsame Hnew]. split; [exact Hsame|]. split; [|exact Hnew].
  intros fc. unfold getObject, read_editor.
  destruct (h !! this) as [o|] eqn:Ho; [|done].
  rewrite (Hsame _ _ Ho). by destruct o; intros [= ->].
Qed.

(** An instance: the first position of the ring of [example_heap] is
    replaced through the editor at address 12. *)
Lemma edits_leave_the_receiver_untouched_example :
  exists r h',
    replacePosition 12 0 (Some [0; 0]) (VRef 2) example_heap = (r, h') /\
    (forall l o, example_heap !! l = Some o -> h' !! l = Some o) /\
    (forall fc, getObject 12 example_heap = (Ok fc, example_heap) ->
                getObject 12 h' = (Ok fc, h')) /\
    match r with
    | Ok this' =>
      (length example_heap <= this')%nat /\
      exists fc', h' !! this' = Some (OEditor fc') /\
                  (length example_heap <= fc')%nat
    | Throw _ => True
    end.
Proof.
  eexists _, _. split; [lazy; reflexivity|].
  apply (edits_leave_the_receiver_untouched example_heap 12 0
           (Some [0; 0]) (VRef 2)).
  left. vm_compute. reflexivity.
Defined.

(** ** Running the computations on a store that holds what they read *)

Lemma bind_run {A B} (m : M A) (f : A -> M B) h a h1 :
  m h = (Ok a, h1) -> (m ≫= f) h = f a h1.
Proof. unfold mbind, M_bind. by intros ->. Qed.

Lemma bind_throw {A B} (m : M A) (f : A -> M B) h e h1 :
  m h = (Throw e, h1) -> (m ≫= f) h = (Throw e, h1).
Proof. unfold mbind, M_bind. by intros ->. Qed.

Lemma array_of_run h l elems :
  h !! l = Some (OArray elems) -> array_of (VRef l) h = (Ok elems, h).
Proof. unfold array_of. by intros ->. Qed.

Lemma array_length_run h l elems :
  h !! l = Some (OArray elems) ->
  array_length (VRef l) h = (Ok (Z.of_nat (length elems)), h).
Proof.
  intros Hl. unfold array_length. by rewrite (bind_run _ _ _ _ _ (array_of_run _ _ _ Hl)).
Qed.

Lemma read_editor_run h this fc :
  h !! this = Some (OEditor fc) -> read_editor this h = (Ok fc, h).
Proof. unfold read_editor. by intros ->. Qed.

Lemma read_collection_run h fc fs rest :
  h !! fc = Some (OCollection fs rest) ->
  read_collection fc h = (Ok (fs, rest), h).
Proof. unfold read_collection. by intros ->. Qed.

Lemma read_feature_run h fl g rest :
  h !! fl = Some (OFeature g rest) ->
  read_feature (VRef fl) h = (Ok (g, rest), h).
Proof. unfold read_feature. by intros ->. Qed.

Lemma read_geometry_run h g ty c rest :
  h !! g = Some (OGeometry ty c rest) ->
  read_geometry g h = (Ok (ty, c, rest), h).
Proof. unfold read_geometry. by intros ->. Qed.

Lemma assign_run h arr elems k v :
  h !! arr = Some (OArray elems) ->
  assign arr k v h = (Ok (), <[arr := OArray (store VUndef elems k v)]> h).
Proof. unfold assign. by intros ->. Qed.

Lemma lookup_alloc (h : heap) o : (h ++ [o]) !! length h = Some o.
Proof. by rewrite lookup_app_r, Nat.sub_diag by lia. Qed.

Lemma lookup_alloc_old (h : heap) o l o' :
  h !! l = Some o' -> (h ++ [o]) !! l = Some o'.
Proof. apply lookup_app_l_Some. Qed.

Create HintDb store.
#[export] Hint Resolve lookup_alloc lookup_alloc_old : store.

Lemma targets_mono h h' this i fc fs rest elems fl g frest ty c grest :
  (forall l o, h !! l = Some o -> h' !! l = Some o) ->
  targets h this i fc fs rest elems fl g frest ty c grest ->
  targets h' this i fc fs rest elems fl g frest ty c grest.
Proof. intros Hext []. constructor; auto. Qed.

Ltac run_by tac := erewrite bind_run by tac; cbv beta iota.

Lemma feature_at_run h this i fc fs rest elems fl g frest ty c grest :
  targets h this i fc fs rest elems fl g frest ty c grest ->
  feature_at this i h = (Ok (VRef fl), h).
Proof.
  intros []. unfold feature_at.
  run_by ltac:(by apply read_editor_run).
  run_by ltac:(by apply read_collection_run).
  run_by ltac:(by apply array_of_run).
  unfold index. by rewrite targets_index0.
Qed.

Lemma with_coordinates_run h this i fc fs rest elems fl g frest ty c grest c' :
  targets h this i fc fs rest elems fl g frest ty c grest ->
  with_coordinates this i (VRef fl) c' h =
  (Ok (length h + 4)%nat, rebuilt h i rest elems frest ty c' grest).
Proof.
  intros []. unfold with_coordinates, new_EditableFeatureCollection.
  run_by ltac:(by apply read_feature_run).
  run_by ltac:(by apply read_geometry_run).
  run_by ltac:(reflexivity).
  run_by ltac:(reflexivity).
  run_by ltac:(apply read_editor_run; eauto with store).
  run_by ltac:(apply read_collection_run; eauto with store).
  run_by ltac:(apply array_of_run; eauto with store).
  run_by ltac:(reflexivity).
  run_by ltac:(reflexivity).
  unfold alloc, rebuilt. rewrite !length_app. simpl.
  rewrite <- !app_assoc. simpl.
  replace (length h + 1 + 1 + 1 + 1)%nat with (length h + 4)%nat by lia.
  replace (length h + 1 + 1 + 1)%nat with (length h + 3)%nat by lia.
  by replace (length h + 1 + 1)%nat with (length h + 2)%nat by lia.
Qed.

(** Unfolding equations for a path of more than one index. *)
Lemma heap_replace_at_cons c i rest pos b :
  rest <> [] ->
  immutablyReplacePosition_at c (i :: rest) pos b =
  (before ← array_of c;
   inner ← immutablyReplacePosition_at (index before i) rest pos b;
   after ← array_of c;
   l ← alloc (OArray (slice before 0 i ++ [inner] ++ slice_from after (i + 1)));
   mret (VRef l)).
Proof. by destruct rest. Qed.

Lemma heap_remove_at_cons c i rest b :
  rest <> [] ->
  immutablyRemovePosition_at c (i :: rest) b =
  (before ← array_of c;
   inner ← immutablyRemovePosition_at (index before i) rest b;
   after ← array_of c;
   l ← alloc (OArray (slice before 0 i ++ [inner] ++ slice_from after (i + 1)));
   mret (VRef l)).
Proof. by destruct rest. Qed.

Lemma descend_cons h c i rest v :
  descend h c (i :: rest) = Some v ->
  exists l elems x,
    c = VRef l /\ h !! l = Some (OArray elems) /\
    at_index elems i = Some x /\ descend h x rest = Some v.
Proof.
  simpl. destruct c as [| |l]; try done.
  destruct (h !! l) as [[elems| | | |]|] eqn:Hl; try done.
  destruct (at_index elems i) as [x|] eqn:Hx; [|done].
  simpl. intros Hd. by eexists _, _, _.
Qed.

(** The replacement along a path that addresses a value returns. *)
Lemma replace_at_returns h c path pos b v :
  descend h c path = Some v ->
  exists c' h1, immutablyReplacePosition_at c path pos b h = (Ok c', h1).
Proof.
  revert c. induction path as [|i rest IH]; intros c Hd.
  { by eexists _, _. }
  apply descend_cons in Hd as (l & elems & x & -> & Hl & Hx & Hd).
  destruct rest as [|j rest].
  - cbn [immutablyReplacePosition_at].
    run_by ltac:(by apply array_of_run).
    run_by ltac:(reflexivity).
    run_by ltac:(apply array_length_run; eauto with store).
    destruct (b && is_end _ i); [|by eexists _, _].
    assert (Hl' : forall o : obj,
              <[length h := o]> (h ++ [OArray (splice_in elems i pos)]) !! l
              = Some (OArray elems)).
    { intros o. rewrite list_lookup_insert_ne
        by (apply lookup_lt_Some in Hl; lia).
      eauto with store. }
    run_by ltac:(apply assign_run, lookup_alloc).
    run_by ltac:(by apply array_length_run).
    run_by ltac:(apply assign_run, list_lookup_insert_eq;
                 rewrite length_app; simpl; lia).
    by eexists _, _.
  - rewrite heap_replace_at_cons by done.
    run_by ltac:(by apply array_of_run).
    unfold index at 1. rewrite Hx. simpl.
    destruct (IH _ Hd) as (inner & h1 & Hinner).
    run_by ltac:(exact Hinner).
    destruct (frames_whole_store _ _ _ _ _
                (frames_replace_at _ x (j :: rest) pos b) Hinner)
      as [Hsame _].
    run_by ltac:(apply array_of_run; eauto).
    run_by ltac:(reflexivity).
    by eexists _, _.
Qed.

Lemma lookup_beyond (h l : heap) k : (h ++ l) !! (length h + k)%nat = l !! k.
Proof. rewrite lookup_app_r by lia. f_equal. lia. Qed.

Lemma targets_rebuilt h i rest elems frest ty c' grest x :
  at_index elems i = Some x ->
  targets (rebuilt h i rest elems frest ty c' grest)
    (length h + 4) i (length h + 3) (length h + 2) rest
    (splice_in elems i (VRef (length h + 1)))
    (length h + 1) (length h) frest ty c' grest.
Proof.
  intros Hx. unfold rebuilt. constructor;
    try (rewrite lookup_beyond; reflexivity).
  - apply at_index_splice_in. eauto using at_index_lt.
  - rewrite <- (Nat.add_0_r (length h)) at 1. by rewrite lookup_beyond.
Qed.

Lemma rebuilt_old h i rest elems frest ty c' grest l o :
  h !! l = Some o -> rebuilt h i rest elems frest ty c' grest !! l = Some o.
Proof. apply lookup_app_l_Some. Qed.

(** What both methods return on a store that holds a target, once the
    coordinates are rewritten to [c'] in the store [h1]. *)
Lemma replacePosition_run h this i path pos
    fc fs rest elems fl g frest ty c grest c' h1 :
  targets h this i fc fs rest elems fl g frest ty c grest ->
  immutablyReplacePosition c path pos (polygonal ty) h = (Ok c', h1) ->
  (forall l o, h !! l = Some o -> h1 !! l = Some o) ->
  replacePosition this i path pos h =
  (Ok (length h1 + 4)%nat, rebuilt h1 i rest elems frest ty c' grest).
Proof.
  intros Ht Hinner Hsame. unfold replacePosition.
  run_by ltac:(by eapply feature_at_run).
  run_by ltac:(apply read_feature_run, Ht).
  run_by ltac:(apply read_geometry_run, Ht).
  cbv zeta. run_by ltac:(exact Hinner).
  eapply with_coordinates_run, targets_mono; eauto.
Qed.

Lemma removePosition_run h this i path
    fc fs rest elems fl g frest ty c grest c' h1 :
  targets h this i fc fs rest elems fl g frest ty c grest ->
  immutablyRemovePosition c path (polygonal ty) h = (Ok c', h1) ->
  (forall l o, h !! l = Some o -> h1 !! l = Some o) ->
  removePosition this i path h =
  (Ok (length h1 + 4)%nat, rebuilt h1 i rest elems frest ty c' grest).
Proof.
  intros Ht Hinner Hsame. unfold removePosition.
  run_by ltac:(by eapply feature_at_run).
  run_by ltac:(apply read_feature_run, Ht).
  run_by ltac:(apply read_geometry_run, Ht).
  cbv zeta. run_by ltac:(exact Hinner).
  eapply with_coordinates_run, targets_mono; eauto.
Qed.

Lemma removePosition_throw h this i path
    fc fs rest elems fl g frest ty c grest e h1 :
  targets h this i fc fs rest elems fl g frest ty c grest ->
  immutablyRemovePosition c path (polygonal ty) h = (Throw e, h1) ->
  removePosition this i path h = (Throw e, h1).
Proof.
  intros Ht Hinner. unfold removePosition.
  run_by ltac:(by eapply feature_at_run).
  run_by ltac:(apply read_feature_run, Ht).
  run_by ltac:(apply read_geometry_run, Ht).
  cbv zeta. by apply bind_throw.
Qed.

(** C6. On a store that holds a target feature [i] and for a path that
    addresses a value of its coordinates, [replacePosition] returns a new
    editor; every object of the original store is unchanged; the new
    [features] array is as long as the original and holds, at every index
    other than [i], the very reference the original holds; and the new
    collection, the new feature and its new geometry carry the sibling
    fields and the type of the original ones. *)
Theorem replace_shares_what_it_does_not_edit h this i path pos
    fc fs rest elems fl g frest ty c grest v :
  targets h this i fc fs rest elems fl g frest ty c grest ->
  descend h c path = Some v ->
  exists this' h' fc' fs' elems' fl' g' c',
    replacePosition this i (Some path) pos h = (Ok this', h') /\
    (forall l o, h !! l = Some o -> h' !! l = Some o) /\
    targets h' this' i fc' fs' rest elems' fl' g' frest ty c' grest /\
    (length h <= fl')%nat /\
    length elems' = length elems /\
    (forall j, j <> i -> at_index elems' j = at_index elems j).
Proof.
  intros Ht Hd.
  destruct (replace_at_returns h c path pos (polygonal ty) v Hd)
    as (c' & h1 & Hinner).
  destruct (frames_whole_store _ _ _ _ _
              (frames_replace_at _ c path pos (polygonal ty)) Hinner)
    as [Hsame _].
  pose proof (targets_index _ _ _ _ _ _ _ _ _ _ _ _ _ Ht) as Hi.
  eexists _, _, _, _, _, _, _, c'. split; [|split; [|split; [|split; [|split]]]].
  - by eapply replacePosition_run.
  - intros l o Hl. by apply rebuilt_old, Hsame.
  - by eapply targets_rebuilt.
  - destruct (frames_replace_at (length h) c path pos (polygonal ty)
                h _ _ ltac:(done) Hinner) as (Hlen & _). lia.
  - apply length_splice_in. eauto using at_index_lt.
  - intros j Hj. apply at_index_splice_in_ne; eauto using at_index_lt.
Qed.

(** An instance: the first position of the ring of [example_heap]. *)
Lemma replace_shares_what_it_does_not_edit_example :
  exists this' h' fc' fs' elems' fl' g' c',
    replacePosition 12 0 (Some [0; 0]) (VRef 2) example_heap = (Ok this', h') /\
    (forall l o, example_heap !! l = Some o -> h' !! l = Some o) /\
    targets h' this' 0 fc' fs' [("type", FStr "FeatureCollection")] elems'
      fl' g' [("type", FStr "Feature")] "Polygon" c' [] /\
    (length example_heap <= fl')%nat /\
    length elems' = length [VRef 6; VRef 9] /\
    (forall j, j <> 0 -> at_index elems' j = at_index [VRef 6; VRef 9] j).
Proof.
  apply (replace_shares_what_it_does_not_edit example_heap 12 0 [0; 0]
           (VRef 2) 11 10 [("type", FStr "FeatureCollection")]
           [VRef 6; VRef 9] 6 5 [("type", FStr "Feature")] "Polygon"
           (VRef 4) [] (VRef 0)).
  - constructor; reflexivity.
  - reflexivity.
Defined.

(** C10. With no path at all ([null] or [undefined]) both methods return,
    for the feature of every index the collection has, a new editor whose
    feature [i] has a new geometry holding the very coordinates value of the
    original; the empty path makes [removePosition] throw the error of the
    source, in a store it has not changed. *)
Theorem absent_path_keeps_the_coordinates h this i pos
    fc fs rest elems fl g frest ty c grest :
  targets h this i fc fs rest elems fl g frest ty c grest ->
  (exists this' h' fc' fs' elems' fl' g',
     replacePosition this i None pos h = (Ok this', h') /\
     (length h <= this')%nat /\
     (forall l o, h !! l = Some o -> h' !! l = Some o) /\
     targets h' this' i fc' fs' rest elems' fl' g' frest ty c grest) /\
  (exists this' h' fc' fs' elems' fl' g',
     removePosition this i None h = (Ok this', h') /\
     (length h <= this')%nat /\
     (forall l o, h !! l = Some o -> h' !! l = Some o) /\
     targets h' this' i fc' fs' rest elems' fl' g' frest ty c grest) /\
  removePosition this i (Some []) h = (Throw (Error msg_no_index), h).
Proof.
  intros Ht.
  pose proof (targets_index _ _ _ _ _ _ _ _ _ _ _ _ _ Ht) as Hi.
  split; [|split].
  - eexists _, _, _, _, _, _, _. split; [|split; [|split]].
    + by eapply (replacePosition_run h this i None pos).
    + lia.
    + intros l o. apply rebuilt_old.
    + by eapply targets_rebuilt.
  - eexists _, _, _, _, _, _, _. split; [|split; [|split]].
    + by eapply (removePosition_run h this i None).
    + lia.
    + intros l o. apply rebuilt_old.
    + by eapply targets_rebuilt.
  - by eapply removePosition_throw.
Qed.

Lemma absent_path_keeps_the_coordinates_example :
  (exists this' h' fc' fs' elems' fl' g',
     replacePosition 12 0 None (VRef 2) example_heap = (Ok this', h') /\
     (length example_heap <= this')%nat /\
     (forall l o, example_heap !! l = Some o -> h' !! l = Some o) /\
     targets h' this' 0 fc' fs' [("type", FStr "FeatureCollection")] elems'
       fl' g' [("type", FStr "Feature")] "Polygon" (VRef 4) []) /\
  (exists this' h' fc' fs' elems' fl' g',
     removePosition 12 0 None example_heap = (Ok this', h') /\
     (length example_heap <= this')%nat /\
     (forall l o, example_heap !! l = Some o -> h' !! l = Some o) /\
     targets h' this' 0 fc' fs' [("type", FStr "FeatureCollection")] elems'
       fl' g' [("type", FStr "Feature")] "Polygon" (VRef 4) []) /\
  removePosition 12 0 (Some []) example_heap
  = (Throw (Error msg_no_index), example_heap).
Proof.
  apply (absent_path_keeps_the_coordinates example_heap 12 0 (VRef 2)
           11 10 [("type", FStr "FeatureCollection")] [VRef 6; VRef 9] 6 5
           [("type", FStr "Feature")] "Polygon" (VRef 4) []).
  constructor; reflexivity.
Defined.

(** The removal from a ring of fewer than 5 positions throws before it
    allocates anything. *)
Lemma remove_at_small_ring h c prefix k r ring :
  descend h c prefix = Some (VRef r) ->
  h !! r = Some (OArray ring) ->
  Z.of_nat (length ring) < 5 ->
  immutablyRemovePosition_at c (prefix ++ [k]) true h
  = (Throw (Error msg_triangle), h).
Proof.
  intros Hd Hr Hlen. revert c Hd.
  induction prefix as [|i p IH]; intros c Hd.
  - injection Hd as ->. cbn [app immutablyRemovePosition_at].
    run_by ltac:(by apply array_of_run).
    destruct (Z.ltb_spec (Z.of_nat (length ring)) 5); [done | lia].
  - apply descend_cons in Hd as (l & elems & x & -> & Hl & Hx & Hd).
    change ((i :: p) ++ [k]) with (i :: (p ++ [k])).
    rewrite heap_remove_at_cons by (by destruct p).
    run_by ltac:(by apply array_of_run).
    unfold index at 1. rewrite Hx. simpl.
    by apply bind_throw, IH.
Qed.

(** C2. For a Polygon or MultiPolygon feature and a path that ends in a
    ring of fewer than 5 positions, [removePosition] throws the error of the
    ring-size guard, whatever the last index; it returns no editor, and the
    store, hence the original collection, is exactly what it was. *)
Theorem remove_from_small_ring_is_refused h this i prefix k
    fc fs rest elems fl g frest ty c grest r ring :
  targets h this i fc fs rest elems fl g frest ty c grest ->
  ty = "Polygon" \/ ty = "MultiPolygon" ->
  descend h c prefix = Some (VRef r) ->
  h !! r = Some (OArray ring) ->
  Z.of_nat (length ring) < 5 ->
  removePosition this i (Some (prefix ++ [k])) h
  = (Throw (Error msg_triangle), h).
Proof.
  intros Ht Hty Hd Hr Hlen. eapply removePosition_throw; [exact Ht|].
  rewrite (proj2 (TreeFacts.polygonal_spec ty) Hty).
  by eapply remove_at_small_ring.
Qed.

(** The instance of the specification: a ring of exactly 4 positions. *)
Lemma remove_from_small_ring_is_refused_example :
  removePosition 12 0 (Some [0; 1]) example_heap
  = (Throw (Error msg_triangle), example_heap).
Proof.
  apply (remove_from_small_ring_is_refused example_heap 12 0 [0] 1
           11 10 [("type", FStr "FeatureCollection")] [VRef 6; VRef 9] 6 5
           [("type", FStr "Feature")] "Polygon" (VRef 4) [] 3
           [VRef 0; VRef 1; VRef 2; VRef 0]).
  - constructor; reflexivity.
  - left. reflexivity.
  - reflexivity.
  - reflexivity.
  - simpl. lia.
Defined.

End HeapFacts.

(** * The heap model computes what the tree model computes *)

Module RefinementFacts.
Import Heap Refinement HeapFacts.

Lemma extends_refl h : extends h h.
Proof. by intros l o. Qed.

Lemma extends_trans h1 h2 h3 : extends h1 h2 -> extends h2 h3 -> extends h1 h3.
Proof. intros H12 H23 l o Hl. auto. Qed.

Lemma extends_alloc h o : extends h (h ++ [o]).
Proof. intros l o'. apply lookup_app_l_Some. Qed.

Lemma repr_mono h h' v t : extends h h' -> repr h v t -> repr h' v t.
Proof.
  intros Hext. revert v.
  induction t as [| n | ts IH] using TreeFacts.value_ind'; intros v Hv;
    inversion Hv as [| |l elems ts' Hl Hall]; subst; try constructor.
  econstructor; [by apply Hext|].
  clear Hv Hl. induction Hall as [|x t elems ts Hxt _ IHall]; [constructor|].
  inversion IH as [|? ? IHt IHts]; subst. constructor; auto.
Qed.

Lemma repr_fields_mono h h' fs js :
  extends h h' -> repr_fields h fs js -> repr_fields h' fs js.
Proof.
  intros Hext Hfs. eapply Forall2_impl; [exact Hfs|].
  intros [k x] [k' y] [Hk Hxy]. split; [done|]. simpl in *.
  destruct Hxy; constructor. by eapply repr_mono.
Qed.

Lemma repr_feature_mono h h' v f :
  extends h h' -> repr_feature h v f -> repr_feature h' v f.
Proof.
  intros Hext (fl & g & frest & c & grest & -> & Hfl & Hg & Hc & Hgr & Hfr).
  exists fl, g, frest, c, grest.
  split; [done|]. split; [by apply Hext|]. split; [by apply Hext|].
  split; [by eapply repr_mono|].
  split; by eapply repr_fields_mono.
Qed.

Lemma repr_index h elems ts i :
  Forall2 (repr h) elems ts -> repr h (index elems i) (Tree.index ts i).
Proof.
  intros H. unfold index, Tree.index.
  destruct (Forall2_at_index _ _ _ i H); [done | constructor].
Qed.

(** ** The terminal step of both functions, run on an array *)

Lemma insert_alloc (h : heap) o o' :
  <[length h := o']> (h ++ [o]) = h ++ [o'].
Proof. rewrite insert_app_r_alt by lia. by rewrite Nat.sub_diag. Qed.

Lemma heap_replace_at_last h l elems i pos b :
  h !! l = Some (OArray elems) ->
  immutablyReplacePosition_at (VRef l) [i] pos b h =
  (Ok (VRef (length h)),
   h ++ [OArray (if b && is_end (Z.of_nat (length elems)) i
                 then store VUndef (store VUndef (splice_in elems i pos) 0 pos)
                        (Z.of_nat (length elems) - 1) pos
                 else splice_in elems i pos)]).
Proof.
  intros Hl. cbn [immutablyReplacePosition_at].
  run_by ltac:(by apply array_of_run).
  run_by ltac:(reflexivity).
  run_by ltac:(apply array_length_run; eauto with store).
  destruct (b && is_end _ i); [|done].
  run_by ltac:(apply assign_run, lookup_alloc).
  rewrite insert_alloc.
  run_by ltac:(apply array_length_run; eauto with store).
  run_by ltac:(apply assign_run, lookup_alloc).
  by rewrite insert_alloc.
Qed.

Lemma copy_first_to_last_run (h : heap) updated :
  copy_first_to_last (length h) (h ++ [OArray updated]) =
  (Ok (), h ++ [OArray (store VUndef updated
                          (Z.of_nat (length updated) - 1) (index updated 0))]).
Proof.
  unfold copy_first_to_last.
  run_by ltac:(apply array_length_run, lookup_alloc).
  run_by ltac:(apply array_of_run, lookup_alloc).
  erewrite assign_run by apply lookup_alloc. by rewrite insert_alloc.
Qed.

Lemma copy_last_to_first_run (h : heap) updated :
  copy_last_to_first (length h) (h ++ [OArray updated]) =
  (Ok (), h ++ [OArray (store VUndef updated 0
                          (index updated (Z.of_nat (length updated) - 1)))]).
Proof.
  unfold copy_last_to_first.
  run_by ltac:(apply array_of_run, lookup_alloc).
  run_by ltac:(apply array_length_run, lookup_alloc).
  erewrite assign_run by apply lookup_alloc. by rewrite insert_alloc.
Qed.

Lemma heap_remove_at_last h l elems i b :
  h !! l = Some (OArray elems) ->
  immutablyRemovePosition_at (VRef l) [i] b h =
  if b && (Z.of_nat (length elems) <? 5)
  then (Throw (Error msg_triangle), h)
  else (Ok (VRef (length h)),
        h ++ [OArray (if b && is_end (Z.of_nat (length elems)) i
                      then repaired (splice_out elems i)
                             (Z.of_nat (length elems)) i
                      else splice_out elems i)]).
Proof.
  intros Hl. cbn [immutablyRemovePosition_at].
  run_by ltac:(by apply array_of_run).
  destruct (b && (_ <? 5)); [done|].
  run_by ltac:(reflexivity).
  run_by ltac:(apply array_length_run; eauto with store).
  destruct (b && is_end _ i) eqn:Hend; [|done].
  unfold repaired. destruct (i =? 0).
  - run_by ltac:(apply copy_first_to_last_run). done.
  - erewrite bind_run; [reflexivity|].
    run_by ltac:(apply array_length_run; eauto with store).
    destruct (i =? _ - 1); [apply copy_last_to_first_run | done].
Qed.

Lemma Forall2_repr_mono h h' elems ts :
  extends h h' -> Forall2 (repr h) elems ts -> Forall2 (repr h') elems ts.
Proof. intros Hext H. eapply Forall2_impl; eauto using repr_mono. Qed.

Lemma repr_alloc h elems ts :
  Forall2 (repr (h ++ [OArray elems])) elems ts ->
  repr (h ++ [OArray elems]) (VRef (length h)) (Tree.Arr ts).
Proof. intros H. econstructor; [apply lookup_alloc | done]. Qed.

Lemma Forall2_repaired h updated updated' len i :
  Forall2 (repr h) updated updated' ->
  Forall2 (repr h) (repaired updated len i)
    (Tree.repair_removed updated' len i).
Proof.
  intros H. unfold repaired, Tree.repair_removed.
  rewrite <- (Forall2_length _ _ _ H).
  destruct (i =? 0).
  { apply Forall2_store; [constructor | done | by apply repr_index]. }
  destruct (i =? len - 1); [|done].
  apply Forall2_store; [constructor | done | by apply repr_index].
Qed.

(** What holds in a store holds in the store one allocation later. *)
Ltac lifted :=
  first [ eapply Forall2_repr_mono; [apply extends_alloc | eassumption]
        | eapply repr_mono; [apply extends_alloc | eassumption] ].

(** ** The recursive functions *)

Lemma replace_at_refines h c t pos p path b :
  repr h c t -> repr h pos p ->
  exists r h',
    immutablyReplacePosition_at c path pos b h = (r, h') /\
    extends h h' /\
    refines repr h' r (Tree.immutablyReplacePosition_at t path p b).
Proof.
  intros Hc Hp. revert h c t Hc Hp.
  induction path as [|i rest IH]; intros h c t Hc Hp.
  { eexists _, _. split; [reflexivity|]. split; [apply extends_refl|].
    simpl. eauto. }
  inversion Hc as [| |l elems ts Hl Hall]; subst.
  1,2: eexists _, _; split;
         [by destruct rest | split; [apply extends_refl | done]].
  pose proof (Forall2_length _ _ _ Hall) as Hlen.
  destruct rest as [|j rest].
  - rewrite (heap_replace_at_last _ _ _ _ _ _ Hl).
    rewrite TreeFacts.replace_at_last, <- Hlen.
    eexists _, _. split; [reflexivity|]. split; [apply extends_alloc|].
    eexists. split; [reflexivity|]. apply repr_alloc.
    destruct (b && _).
    + apply Forall2_store; [constructor| |lifted].
      apply Forall2_store; [constructor| |lifted].
      apply Forall2_splice_in; lifted.
    + apply Forall2_splice_in; lifted.
  - rewrite heap_replace_at_cons by done.
    rewrite TreeFacts.replace_at_cons by done.
    run_by ltac:(by apply array_of_run).
    destruct (IH h _ _ (repr_index _ _ _ i Hall) Hp)
      as (r1 & h1 & Hrun & Hext & Href).
    destruct (Tree.immutablyReplacePosition_at _ (j :: rest) p b)
      as [t'|e]; simpl in Href.
    + destruct Href as (c1 & -> & Hc1).
      run_by ltac:(exact Hrun).
      run_by ltac:(apply array_of_run; eauto).
      run_by ltac:(reflexivity).
      eexists _, _. split; [reflexivity|].
      split; [eapply extends_trans; [exact Hext | apply extends_alloc]|].
      eexists. split; [reflexivity|]. apply repr_alloc.
      apply (Forall2_splice_in (repr _)).
      * eapply Forall2_repr_mono; [|exact Hall].
        eapply extends_trans; [exact Hext | apply extends_alloc].
      * eapply repr_mono; [apply extends_alloc | exact Hc1].
    + subst r1. eexists _, _.
      split; [by apply bind_throw|]. split; [exact Hext | done].
Qed.

Lemma remove_at_refines h c t path b :
  repr h c t ->
  exists r h',
    immutablyRemovePosition_at c path b h = (r, h') /\
    extends h h' /\
    refines repr h' r (Tree.immutablyRemovePosition_at t path b).
Proof.
  intros Hc. revert h c t Hc.
  induction path as [|i rest IH]; intros h c t Hc.
  { eexists _, _. split; [reflexivity|]. split; [apply extends_refl | done]. }
  inversion Hc as [| |l elems ts Hl Hall]; subst.
  1,2: eexists _, _; split;
         [by destruct rest | split; [apply extends_refl | done]].
  pose proof (Forall2_length _ _ _ Hall) as Hlen.
  destruct rest as [|j rest].
  - rewrite (heap_remove_at_last _ _ _ _ _ Hl).
    rewrite TreeFacts.remove_at_last, <- Hlen.
    destruct (b && (_ <? 5)).
    { eexists _, _. split; [reflexivity|]. split; [apply extends_refl | done]. }
    eexists _, _. split; [reflexivity|]. split; [apply extends_alloc|].
    eexists. split; [reflexivity|]. apply repr_alloc.
    destruct (b && _).
    + apply Forall2_repaired, Forall2_splice_out. lifted.
    + apply Forall2_splice_out. lifted.
  - rewrite heap_remove_at_cons by done.
    rewrite TreeFacts.remove_at_cons by done.
    run_by ltac:(by apply array_of_run).
    destruct (IH h _ _ (repr_index _ _ _ i Hall))
      as (r1 & h1 & Hrun & Hext & Href).
    destruct (Tree.immutablyRemovePosition_at _ (j :: rest) b)
      as [t'|e]; simpl in Href.
    + destruct Href as (c1 & -> & Hc1).
      run_by ltac:(exact Hrun).
      run_by ltac:(apply array_of_run; eauto).
      run_by ltac:(reflexivity).
      eexists _, _. split; [reflexivity|].
      split; [eapply extends_trans; [exact Hext | apply extends_alloc]|].
      eexists. split; [reflexivity|]. apply repr_alloc.
      apply (Forall2_splice_in (repr _)).
      * eapply Forall2_repr_mono; [|exact Hall].
        eapply extends_trans; [exact Hext | apply extends_alloc].
      * eapply repr_mono; [apply extends_alloc | exact Hc1].
    + subst r1. eexists _, _.
      split; [by apply bind_throw|]. split; [exact Hext | done].
Qed.

(** ** The two methods *)

Lemma feature_at_index h this i fc fs rest elems :
  h !! this = Some (OEditor fc) ->
  h !! fc = Some (OCollection fs rest) ->
  h !! fs = Some (OArray elems) ->
  feature_at this i h = (Ok (index elems i), h).
Proof.
  intros Hthis Hfc Hfs. unfold feature_at.
  run_by ltac:(by apply read_editor_run).
  run_by ltac:(by apply read_collection_run).
  run_by ltac:(by apply array_of_run).
  done.
Qed.

Lemma repr_editor_rebuilt h h1 this T i f fc fs rest elems fl frest grest
    c' t' :
  h !! this = Some (OEditor fc) ->
  h !! fc = Some (OCollection fs rest) ->
  h !! fs = Some (OArray elems) ->
  Forall2 (repr_feature h) elems (Tree.features (Tree.featureCollection T)) ->
  repr_fields h rest (Tree.collection_rest (Tree.featureCollection T)) ->
  at_index elems i = Some (VRef fl) ->
  repr_fields h grest (Tree.geometry_rest (Tree.geometry f)) ->
  repr_fields h frest (Tree.feature_rest f) ->
  extends h h1 ->
  repr h1 c' t' ->
  repr_editor
    (rebuilt h1 i rest elems frest (Tree.type (Tree.geometry f)) c' grest)
    (length h1 + 4)
    {| Tree.featureCollection :=
         Tree.with_coordinates (Tree.featureCollection T) i f t' |}.
Proof.
  intros Hthis Hfc Hfs Hall Hrest Hi Hgrest Hfrest Hext Hc'.
  pose proof (targets_rebuilt h1 i rest elems frest
                (Tree.type (Tree.geometry f)) c' grest _ Hi) as [].
  assert (Hext' : extends h (rebuilt h1 i rest elems frest
                               (Tree.type (Tree.geometry f)) c' grest)).
  { intros l o Hl. by apply rebuilt_old, Hext. }
  assert (Hext1 : extends h1 (rebuilt h1 i rest elems frest
                                (Tree.type (Tree.geometry f)) c' grest)).
  { intros l o. apply rebuilt_old. }
  eexists _, _, _, _. split; [eassumption|]. split; [eassumption|].
  split; [eassumption|].
  split; [|exact (repr_fields_mono _ _ _ _ Hext' Hrest)].
  simpl. apply Forall2_splice_in.
  - eapply Forall2_impl; [exact Hall|].
    intros v f0. by apply repr_feature_mono.
  - eexists _, _, _, _, _. split; [reflexivity|].
    split; [eassumption|]. split; [eassumption|]. simpl.
    split; [exact (repr_mono _ _ _ _ Hext1 Hc')|].
    split; [exact (repr_fields_mono _ _ _ _ Hext' Hgrest)|].
    exact (repr_fields_mono _ _ _ _ Hext' Hfrest).
Qed.

(** Both methods have one shape: only the rewriting of the coordinates
    differs.  [m] and [f] are that rewriting in the two models. *)
Lemma edit_refines (m : val -> bool -> M val)
    (f : Tree.value -> bool -> result Tree.value) h this T i :
  (forall c t b, repr h c t ->
     exists r h', m c b h = (r, h') /\ extends h h' /\
                  refines repr h' r (f t b)) ->
  repr_editor h this T ->
  exists r h',
    (featureToUpdate ← feature_at this i;
     '(g, _) ← read_feature featureToUpdate;
     '(type, coordinates, _) ← read_geometry g;
     updatedCoordinates ← m coordinates (polygonal type);
     with_coordinates this i featureToUpdate updatedCoordinates) h = (r, h') /\
    extends h h' /\
    refines repr_editor h' r
      (match at_index (Tree.features (Tree.featureCollection T)) i with
       | None => Throw TypeError
       | Some f0 =>
         updatedCoordinates ←
           f (Tree.coordinates (Tree.geometry f0))
             (polygonal (Tree.type (Tree.geometry f0)));
         Ok {| Tree.featureCollection :=
                 Tree.with_coordinates (Tree.featureCollection T) i f0
                   updatedCoordinates |}
       end).
Proof.
  intros Hm (fc & fs & rest & elems & Hthis & Hfc & Hfs & Hall & Hrest).
  run_by ltac:(by eapply feature_at_index).
  unfold index.
  pose proof (Forall2_at_index _ _ _ i Hall) as Hat.
  destruct (at_index elems i) as [v|] eqn:Hi;
    destruct (at_index (Tree.features _) i) as [f0|] eqn:Hf0;
    inversion Hat as [? ? Hv|]; subst.
  2: { eexists _, _. split; [reflexivity|]. split; [apply extends_refl | done]. }
  destruct Hv as (fl & g & frest & c & grest & -> & Hfl & Hg & Hc & Hgr & Hfr).
  simpl. run_by ltac:(by apply read_feature_run).
  run_by ltac:(by apply read_geometry_run).
  destruct (Hm c _ (polygonal (Tree.type (Tree.geometry f0))) Hc)
    as (r1 & h1 & Hrun & Hext & Href).
  destruct (f _ _) as [t'|e]; simpl in Href.
  - destruct Href as (c' & -> & Hc').
    run_by ltac:(exact Hrun).
    erewrite with_coordinates_run by (constructor; eauto).
    eexists _, _. split; [reflexivity|]. split.
    + intros l o Hl. by apply rebuilt_old, Hext.
    + eexists. split; [reflexivity|]. by eapply repr_editor_rebuilt.
  - subst r1. eexists _, _.
    split; [by apply bind_throw|]. split; [exact Hext | done].
Qed.

(** [replacePosition] and [removePosition] of the heap model, run on a
    store in which the receiver stands for the tree [T], end as the tree
    functions do on [T]: with the same exception, or with an editor that
    stands for the tree they return, in a store that still holds every
    object of the original one. *)
Theorem replacePosition_refines h this T i path pos p :
  repr_editor h this T -> repr h pos p ->
  exists r h',
    replacePosition this i path pos h = (r, h') /\
    extends h h' /\
    refines repr_editor h' r (Tree.replacePosition T i path p).
Proof.
  intros HT Hp.
  apply (edit_refines
           (fun c b => immutablyReplacePosition c path pos b)
           (fun t b => Tree.immutablyReplacePosition t path p b));
    [|exact HT].
  intros c t b Hc. destruct path as [path|]; simpl.
  - by apply replace_at_refines.
  - eexists _, _. split; [reflexivity|]. split; [apply extends_refl|].
    simpl. eauto.
Qed.

Theorem removePosition_refines h this T i path :
  repr_editor h this T ->
  exists r h',
    removePosition this i path h = (r, h') /\
    extends h h' /\
    refines repr_editor h' r (Tree.removePosition T i path).
Proof.
  intros HT.
  apply (edit_refines
           (fun c b => immutablyRemovePosition c path b)
           (fun t b => Tree.immutablyRemovePosition t path b));
    [|exact HT].
  intros c t b Hc. destruct path as [path|]; simpl.
  - by apply remove_at_refines.
  - eexists _, _. split; [reflexivity|]. split; [apply extends_refl|].
    simpl. eauto.
Qed.

(** The concrete store stands for the concrete tree. *)
Lemma example_heap_stands_for_a_tree :
  repr_editor example_heap 12
    {| Tree.featureCollection :=
         {| Tree.features :=
              [ {| Tree.geometry :=
                     {| Tree.type := "Polygon";
                        Tree.coordinates := Tree.Arr [Tree.Arr Tree.triangle];
                        Tree.geometry_rest := [] |};
                   Tree.feature_rest := [("type", Tree.JStr "Feature")] |};
                {| Tree.geometry :=
                     {| Tree.type := "LineString";
                        Tree.coordinates :=
                          Tree.Arr [Tree.pt 0 0; Tree.pt 1 1];
                        Tree.geometry_rest := [] |};
                   Tree.feature_rest := [("type", Tree.JStr "Feature")] |} ];
            Tree.collection_rest :=
              [("type", Tree.JStr "FeatureCollection")] |} |}.
Proof.
  assert (Hpt : forall l x y,
            example_heap !! l = Some (OArray [VNum x; VNum y]) ->
            repr example_heap (VRef l) (Tree.pt x y)).
  { intros l x y Hl. econstructor; [exact Hl|]. repeat constructor. }
  exists 11%nat, 10%nat, [("type", FStr "FeatureCollection")], [VRef 6; VRef 9].
  split; [done|]. split; [done|]. split; [done|]. split.
  - constructor; [|constructor; [|constructor]].
    + exists 6%nat, 5%nat, [("type", FStr "Feature")], (VRef 4), [].
      repeat split; try done.
      * econstructor; [reflexivity|]. constructor; [|constructor].
        econstructor; [reflexivity|].
        repeat (constructor; [by apply Hpt|]). constructor.
      * constructor.
      * repeat constructor.
    + exists 9%nat, 8%nat, [("type", FStr "Feature")], (VRef 7), [].
      repeat split; try done.
      * econstructor; [reflexivity|].
        repeat (constructor; [by apply Hpt|]). constructor.
      * constructor.
      * repeat constructor.
  - repeat constructor.
Qed.

End RefinementFacts.

(** * More on the edits of the tree model *)

Module TreeEdits.
Import Tree TreeFacts Shape.

Lemma is_end_false len k :
  is_end len k = false <-> k <> 0 /\ k <> len - 1.
Proof.
  unfold is_end. rewrite orb_false_iff, !Z.eqb_neq. done.
Qed.

(** ** The ring a replacement builds *)

Lemma replaced_inserts ring k pos b :
  0 <= k < Z.of_nat (length ring) ->
  replaced ring k pos b =
  if b && is_end (Z.of_nat (length ring)) k
  then <[Z.to_nat (Z.of_nat (length ring) - 1) := pos]>
         (<[0%nat := pos]> (<[Z.to_nat k := pos]> ring))
  else <[Z.to_nat k := pos]> ring.
Proof.
  intros Hk. unfold replaced. rewrite splice_in_insert by done.
  destruct (b && _); [|done].
  rewrite (store_insert _ _ 0) by (rewrite length_insert; lia).
  rewrite store_insert by (rewrite !length_insert; lia). done.
Qed.

Lemma length_replaced ring k pos b :
  0 <= k < Z.of_nat (length ring) ->
  length (replaced ring k pos b) = length ring.
Proof.
  intros Hk. rewrite replaced_inserts by done.
  destruct (b && _); by rewrite !length_insert.
Qed.

Lemma at_index_replaced ring k pos b :
  0 <= k < Z.of_nat (length ring) ->
  at_index (replaced ring k pos b) k = Some pos.
Proof.
  intros Hk. rewrite replaced_inserts by done. apply at_index_Some.
  split; [lia|]. destruct (b && _) eqn:E.
  - apply andb_true_iff in E as [_ [->| ->]%is_end_spec].
    + destruct (decide (Z.to_nat (Z.of_nat (length ring) - 1) = Z.to_nat 0))
        as [->|].
      * apply list_lookup_insert_eq. rewrite !length_insert. lia.
      * rewrite list_lookup_insert_ne by done.
        apply list_lookup_insert_eq. rewrite !length_insert. lia.
    + apply list_lookup_insert_eq. rewrite !length_insert. lia.
  - apply list_lookup_insert_eq. lia.
Qed.

Lemma at_index_replaced_ne ring k pos b j :
  0 <= k < Z.of_nat (length ring) ->
  j <> k ->
  b && is_end (Z.of_nat (length ring)) k = false ->
  at_index (replaced ring k pos b) j = at_index ring j.
Proof.
  intros Hk Hj Hb. rewrite replaced_inserts, Hb by done.
  unfold at_index. destruct (Z.ltb_spec j 0); [done|].
  apply list_lookup_insert_ne. lia.
Qed.

Lemma at_index_replaced_ends ring k pos :
  0 <= k < Z.of_nat (length ring) ->
  is_end (Z.of_nat (length ring)) k = true ->
  at_index (replaced ring k pos true) 0 = Some pos /\
  at_index (replaced ring k pos true) (Z.of_nat (length ring) - 1) = Some pos.
Proof.
  intros Hk He. unfold replaced. rewrite He. simpl.
  destruct (replace_end_ring ring k pos Hk He) as (_ & H0 & Hl & _). done.
Qed.

Lemma replaced_twice ring k p1 p2 b :
  0 <= k < Z.of_nat (length ring) ->
  replaced (replaced ring k p1 b) k p2 b = replaced ring k p2 b.
Proof.
  intros Hk.
  rewrite (replaced_inserts (replaced _ _ _ _))
    by (by rewrite length_replaced).
  rewrite length_replaced by done. rewrite !replaced_inserts by done.
  destruct (b && _) eqn:E.
  - apply andb_true_iff in E as [_ Hend%is_end_spec].
    apply list_eq. intros j.
    rewrite !list_lookup_insert, !length_insert.
    repeat case_decide; try done; lia.
  - apply list_insert_insert_eq.
Qed.

Lemma replace_at_last_replaced ring k pos b :
  immutablyReplacePosition_at (Arr ring) [k] pos b
  = Ok (Arr (replaced ring k pos b)).
Proof. apply replace_at_last. Qed.

Lemma tree_descend_cons c i rest v :
  descend c (i :: rest) = Some v ->
  exists elems y,
    c = Arr elems /\ at_index elems i = Some y /\ descend y rest = Some v.
Proof.
  simpl. destruct c as [| |elems]; try done.
  destruct (at_index elems i) as [y|] eqn:Hy; [|done].
  simpl. intros Hd. by eexists _, _.
Qed.

(** ** Along a path that addresses a value *)

(** What is put is what is found. *)
Lemma replace_at_reads_back c path v pos b :
  descend c path = Some v ->
  exists c', immutablyReplacePosition_at c path pos b = Ok c' /\
             descend c' path = Some pos.
Proof.
  revert c. induction path as [|i rest IH]; intros c Hd.
  { by eexists. }
  apply tree_descend_cons in Hd as (elems & y & -> & Hy & Hd).
  pose proof (at_index_lt _ _ _ Hy) as Hi.
  destruct rest as [|j rest].
  - rewrite replace_at_last_replaced. eexists. split; [done|].
    simpl. by rewrite at_index_replaced.
  - destruct (IH _ Hd) as (y' & Hy' & Hd').
    rewrite replace_at_cons by done. rewrite (index_Some _ _ _ Hy), Hy'.
    eexists. split; [done|]. simpl.
    by rewrite at_index_splice_in.
Qed.

(** Every other path of the same length leads where it led, unless the
    ends of a ring are mirrored. *)
Lemma replace_at_elsewhere c path v pos b c' q :
  descend c path = Some v ->
  immutablyReplacePosition_at c path pos b = Ok c' ->
  b && on_ring_end c path = false ->
  length q = length path -> q <> path ->
  descend c' q = descend c q.
Proof.
  revert c c' q. induction path as [|i rest IH]; intros c c' q Hd Hrun Hb Hl Hq.
  { by destruct q. }
  destruct q as [|j q]; [done|]. injection Hl as Hl.
  apply tree_descend_cons in Hd as (elems & y & -> & Hy & Hd).
  pose proof (at_index_lt _ _ _ Hy) as Hi.
  destruct rest as [|r0 rest].
  - destruct q; [|done]. rewrite replace_at_last_replaced in Hrun.
    injection Hrun as <-. simpl.
    rewrite at_index_replaced_ne; [done..| |done]. congruence.
  - rewrite replace_at_cons in Hrun by done.
    rewrite (index_Some _ _ _ Hy) in Hrun.
    destruct (immutablyReplacePosition_at y _ pos b) as [y'|e] eqn:Hy';
      [|done].
    injection Hrun as <-. simpl.
    destruct (decide (j = i)) as [->|Hji].
    + rewrite at_index_splice_in, Hy by done. simpl.
      apply (IH y); try done.
      * simpl in Hb. by rewrite (index_Some _ _ _ Hy) in Hb.
      * congruence.
    + by rewrite at_index_splice_in_ne.
Qed.

(** The second of two replacements at one path wins. *)
Lemma replace_at_twice c path v p1 p2 b c1 :
  descend c path = Some v ->
  immutablyReplacePosition_at c path p1 b = Ok c1 ->
  immutablyReplacePosition_at c1 path p2 b =
  immutablyReplacePosition_at c path p2 b.
Proof.
  revert c c1. induction path as [|i rest IH]; intros c c1 Hd Hrun; [done|].
  apply tree_descend_cons in Hd as (elems & y & -> & Hy & Hd).
  pose proof (at_index_lt _ _ _ Hy) as Hi.
  destruct rest as [|r0 rest].
  - rewrite replace_at_last_replaced in Hrun. injection Hrun as <-.
    rewrite !replace_at_last_replaced. by rewrite replaced_twice.
  - rewrite replace_at_cons in Hrun by done.
    rewrite (index_Some _ _ _ Hy) in Hrun.
    destruct (immutablyReplacePosition_at y _ p1 b) as [y1|e] eqn:Hy1;
      [|done].
    injection Hrun as <-. rewrite !replace_at_cons by done.
    rewrite (index_Some _ _ _ (at_index_splice_in elems i y1 Hi)).
    rewrite (index_Some _ _ _ Hy), (IH _ _ Hd Hy1).
    destruct (immutablyReplacePosition_at y _ p2 b) as [y2|e]; [|done].
    simpl. rewrite !(splice_in_insert elems) by done.
    rewrite splice_in_insert by (rewrite length_insert; lia).
    by rewrite list_insert_insert_eq.
Qed.

(** ** Closed rings stay closed *)

Lemma closed_replaced ring k pos :
  0 <= k < Z.of_nat (length ring) ->
  closed ring -> closed (replaced ring k pos true).
Proof.
  intros Hk Hc. unfold closed. rewrite length_replaced by done.
  destruct (is_end (Z.of_nat (length ring)) k) eqn:He.
  - destruct (at_index_replaced_ends ring k pos Hk He) as [-> ->]. done.
  - apply is_end_false in He as [? ?].
    rewrite !at_index_replaced_ne;
      [done | done | done | by apply andb_false_intro2, is_end_false
      | done | done | by apply andb_false_intro2, is_end_false].
Qed.

Lemma rings_closed_insert d elems i y :
  Forall (rings_closed (S d)) elems ->
  rings_closed (S d) y ->
  rings_closed (S (S d)) (Arr (<[i := y]> elems)).
Proof. intros. by apply Forall_insert. Qed.

Lemma replace_at_keeps_closed c path v pos c' :
  descend c path = Some v ->
  rings_closed (length path) c ->
  immutablyReplacePosition_at c path pos true = Ok c' ->
  rings_closed (length path) c'.
Proof.
  revert c c'. induction path as [|i rest IH]; intros c c' Hd Hc Hrun;
    [done|].
  apply tree_descend_cons in Hd as (elems & y & -> & Hy & Hd).
  pose proof (at_index_lt _ _ _ Hy) as Hi.
  destruct rest as [|r0 rest].
  - rewrite replace_at_last_replaced in Hrun. injection Hrun as <-.
    by apply closed_replaced.
  - rewrite replace_at_cons in Hrun by done.
    rewrite (index_Some _ _ _ Hy) in Hrun.
    destruct (immutablyReplacePosition_at y _ pos true) as [y'|e] eqn:Hy';
      [|done].
    injection Hrun as <-. rewrite splice_in_insert by done.
    change (Forall (rings_closed (length (r0 :: rest))) elems) in Hc.
    apply rings_closed_insert; [done|].
    apply (IH y); [done| |done].
    rewrite Forall_forall in Hc. apply Hc.
    apply at_index_Some in Hy as [_ Hy]. by eapply list_elem_of_lookup_2.
Qed.

(** ** The ring a removal builds *)

Lemma remove_at_last_removed ring k b :
  immutablyRemovePosition_at (Arr ring) [k] b =
  if b && (Z.of_nat (length ring) <? 5) then Throw (Error msg_triangle)
  else Ok (Arr (removed ring k b)).
Proof. apply remove_at_last. Qed.

Lemma removed_interior ring k b :
  0 <= k < Z.of_nat (length ring) ->
  b && is_end (Z.of_nat (length ring)) k = false ->
  removed ring k b = take (Z.to_nat k) ring ++ drop (S (Z.to_nat k)) ring.
Proof.
  intros Hk Hb. unfold removed. rewrite Hb. apply splice_out_delete. lia.
Qed.

Lemma length_removed ring k :
  5 <= Z.of_nat (length ring) -> 0 <= k < Z.of_nat (length ring) ->
  Z.of_nat (length (removed ring k true)) = Z.of_nat (length ring) - 1.
Proof.
  intros Hlen Hk. unfold removed. simpl.
  destruct (is_end _ k) eqn:He.
  - apply is_end_spec in He as [-> | ->].
    + by destruct (remove_first_ring ring Hlen) as (? & _).
    + by destruct (remove_last_ring ring Hlen) as (? & _).
  - rewrite splice_out_delete, length_app, length_take, length_drop by lia.
    lia.
Qed.

Lemma closed_removed ring k :
  5 <= Z.of_nat (length ring) -> 0 <= k < Z.of_nat (length ring) ->
  closed ring -> closed (removed ring k true).
Proof.
  intros Hlen Hk Hc. unfold closed. rewrite length_removed by done.
  unfold removed. simpl. destruct (is_end _ k) eqn:He.
  - apply is_end_spec in He as [-> | ->].
    + destruct (remove_first_ring ring Hlen) as (_ & Hlast & Hshift).
      rewrite (Hshift 0) by lia.
      replace (Z.of_nat (length ring) - 1 - 1)
        with (Z.of_nat (length ring) - 2) by lia.
      by rewrite Hlast.
    + destruct (remove_last_ring ring Hlen) as (_ & Hfirst & Hsame).
      replace (Z.of_nat (length ring) - 1 - 1)
        with (Z.of_nat (length ring) - 2) by lia.
      rewrite Hfirst. by rewrite Hsame by lia.
  - apply is_end_false in He as [? ?].
    rewrite splice_out_delete by lia. unfold closed, at_index in *.
    destruct (Z.ltb_spec 0 0); [lia|].
    destruct (Z.ltb_spec (Z.of_nat (length ring) - 1 - 1) 0); [lia|].
    destruct (Z.ltb_spec (Z.of_nat (length ring) - 1) 0); [lia|].
    rewrite lookup_app_l by (rewrite length_take; lia).
    rewrite lookup_take_lt by lia.
    rewrite lookup_app_r by (rewrite length_take; lia).
    rewrite lookup_drop, length_take, Hc. f_equal. lia.
Qed.

Lemma remove_at_keeps_closed c prefix k ring :
  descend c prefix = Some (Arr ring) ->
  5 <= Z.of_nat (length ring) -> 0 <= k < Z.of_nat (length ring) ->
  rings_closed (length (prefix ++ [k])) c ->
  exists c',
    immutablyRemovePosition_at c (prefix ++ [k]) true = Ok c' /\
    descend c' prefix = Some (Arr (removed ring k true)) /\
    rings_closed (length (prefix ++ [k])) c'.
Proof.
  intros Hd Hlen Hk. revert c Hd.
  induction prefix as [|i p IH]; intros c Hd Hc.
  - injection Hd as ->. simpl app. rewrite remove_at_last_removed.
    destruct (Z.ltb_spec (Z.of_nat (length ring)) 5); [lia|]. simpl.
    eexists. split; [done|]. split; [done|]. by apply closed_removed.
  - apply tree_descend_cons in Hd as (elems & y & -> & Hy & Hd).
    pose proof (at_index_lt _ _ _ Hy) as Hi.
    change ((i :: p) ++ [k]) with (i :: (p ++ [k])) in *.
    assert (Hne : p ++ [k] <> []) by (by destruct p).
    change (length (i :: (p ++ [k]))) with (S (length (p ++ [k]))) in *.
    destruct (length (p ++ [k])) as [|n] eqn:Hn;
      [by destruct p|].
    change (Forall (rings_closed (S n)) elems) in Hc.
    destruct (IH y Hd) as (y' & Hy' & Hd' & Hc').
    { rewrite Forall_forall in Hc. apply Hc.
      apply at_index_Some in Hy as [_ Hy]. by eapply list_elem_of_lookup_2. }
    rewrite remove_at_cons by done. rewrite (index_Some _ _ _ Hy), Hy'.
    eexists. split; [done|]. split.
    + simpl. by rewrite at_index_splice_in.
    + rewrite splice_in_insert by done. by apply rings_closed_insert.
Qed.

(** ** Removal past the end of an array *)

Lemma splice_out_beyond {A} (l : list A) k :
  Z.of_nat (length l) <= k -> splice_out l k = l.
Proof.
  intros Hk. rewrite splice_out_delete by lia.
  rewrite take_ge, drop_ge by lia. apply app_nil_r.
Qed.

Lemma removed_beyond ring k b :
  Z.of_nat (length ring) <= k -> removed ring k b = ring.
Proof.
  intros Hk. unfold removed.
  destruct (b && is_end _ k) eqn:E; [|by apply splice_out_beyond].
  apply andb_true_iff in E as [_ He%is_end_spec].
  unfold repair_removed. rewrite splice_out_beyond by done.
  destruct He as [-> | ->]; [|lia].
  assert (length ring = 0%nat) as ->%nil_length_inv by lia. done.
Qed.

Lemma remove_at_below_same c prefix suffix x b :
  suffix <> [] ->
  descend c prefix = Some x ->
  immutablyRemovePosition_at x suffix b = Ok x ->
  immutablyRemovePosition_at c (prefix ++ suffix) b = Ok c.
Proof.
  intros Hs. revert c. induction prefix as [|i p IH]; intros c Hd Hx.
  - by simplify_eq/=.
  - apply tree_descend_cons in Hd as (elems & y & -> & Hy & Hd).
    change ((i :: p) ++ suffix) with (i :: (p ++ suffix)).
    rewrite remove_at_cons by (by destruct p, suffix).
    rewrite (index_Some _ _ _ Hy), (IH y Hd Hx). simpl.
    by rewrite (splice_in_id _ _ _ Hy).
Qed.

(** ** Shapes *)

Lemma same_shape_refl d v : same_shape d v v.
Proof.
  revert v. induction d as [|d IH]; intros v; [done|].
  destruct v as [| |elems]; try done. simpl.
  apply Forall2_same_length_lookup_2; [done|].
  intros i x y Hx Hy. assert (x = y) as -> by congruence. apply IH.
Qed.

Lemma replace_at_same_shape c path v pos b c' :
  descend c path = Some v ->
  immutablyReplacePosition_at c path pos b = Ok c' ->
  same_shape (length path) c c'.
Proof.
  revert c c'. induction path as [|i rest IH]; intros c c' Hd Hrun; [done|].
  apply tree_descend_cons in Hd as (elems & y & -> & Hy & Hd).
  pose proof (at_index_lt _ _ _ Hy) as Hi.
  destruct rest as [|r0 rest].
  - rewrite replace_at_last_replaced in Hrun. injection Hrun as <-.
    simpl. apply Forall2_true; [done|]. by rewrite length_replaced.
  - rewrite replace_at_cons in Hrun by done.
    rewrite (index_Some _ _ _ Hy) in Hrun.
    destruct (immutablyReplacePosition_at y _ pos b) as [y'|e] eqn:Hy';
      [|done].
    injection Hrun as <-. rewrite splice_in_insert by done.
    change (Forall2 (same_shape (length (r0 :: rest))) elems
              (<[Z.to_nat i := y']> elems)).
    apply at_index_Some in Hy as [_ Hy].
    rewrite <- (list_insert_id elems (Z.to_nat i) y Hy) at 1.
    apply Forall2_insert; [|by apply (IH y)].
    apply Forall2_same_length_lookup_2; [done|].
    intros n x1 x2 H1 H2. assert (x1 = x2) as -> by congruence.
    apply same_shape_refl.
Qed.

Lemma imap_Forall2 {A B} (f g : nat -> A -> B) (l k : list A) :
  Forall2 (fun x y => forall i, f i x = g i y) l k -> imap f l = imap g k.
Proof.
  intros H. revert f g H.
  induction l as [|x l IH] in k |- *; intros f g H;
    inversion H as [|? y ? k' Hxy Htl]; subst; [done|].
  simpl. f_equal; [apply Hxy|]. apply IH.
  eapply Forall2_impl; [exact Htl|]. intros a b Hab i. apply Hab.
Qed.

Lemma paths_under i (hs : list EditHandle) :
  positionIndexes <$> (under i <$> hs) = cons i <$> (positionIndexes <$> hs).
Proof. rewrite <- !list_fmap_compose. by apply list_fmap_ext. Qed.

Lemma same_shape_paths d v w :
  same_shape d v w ->
  positionIndexes <$> enumerate d v = positionIndexes <$> enumerate d w.
Proof.
  revert v w. induction d as [|d IH]; intros v w H; [done|].
  destruct v as [| |vs], w as [| |ws]; try done.
  simpl in *. rewrite !fmap_join, !fmap_imap. f_equal.
  apply imap_Forall2. eapply Forall2_impl; [exact H|].
  intros x y Hxy i. simpl. rewrite !paths_under. f_equal. by apply IH.
Qed.

Lemma same_shape_is_array v w : same_shape 1 v w -> is_array v = is_array w.
Proof. by destruct v, w. Qed.

Lemma forallb_Forall2 {A} (f : A -> bool) (l k : list A) :
  Forall2 (fun x y => f x = f y) l k -> forallb f l = forallb f k.
Proof. induction 1 as [|x y l k Hxy _ IH]; [done|]. simpl. by rewrite Hxy, IH. Qed.

Lemma same_shape_loopable v w : same_shape 2 v w -> loopable v = loopable w.
Proof.
  destruct v as [| |vs], w as [| |ws]; try done. intros H.
  apply forallb_Forall2. eapply Forall2_impl; [exact H|].
  intros x y. apply same_shape_is_array.
Qed.

Lemma same_shape_flattens d v w :
  same_shape d v w -> flattens d v = flattens d w.
Proof.
  destruct d as [|[|[|[|d]]]]; try done.
  - apply same_shape_is_array.
  - apply same_shape_loopable.
  - destruct v as [| |vs], w as [| |ws]; try done. intros H.
    apply forallb_Forall2. eapply Forall2_impl; [exact H|].
    intros x y. apply same_shape_loopable.
Qed.

(** ** The methods *)

Lemma getEditHandles_Ok this i hs :
  getEditHandles this i = Ok hs ->
  exists f d,
    at_index (features (getObject this)) i = Some f /\
    depth_of (type (geometry f)) = Some d /\
    flattens d (coordinates (geometry f)) = true /\
    hs = enumerate d (coordinates (geometry f)).
Proof.
  unfold getEditHandles, getObject.
  destruct (at_index _ i) as [f|] eqn:Hf; [|done].
  rewrite flattenPositions_spec.
  destruct (depth_of _) as [d|] eqn:Hd; [|done].
  destruct (flattens d _) eqn:Hfl; [|done].
  intros [= <-]. by exists f, d.
Qed.

Lemma getEditHandles_enumerate this i f d :
  at_index (features (getObject this)) i = Some f ->
  depth_of (type (geometry f)) = Some d ->
  flattens d (coordinates (geometry f)) = true ->
  getEditHandles this i = Ok (enumerate d (coordinates (geometry f))).
Proof.
  unfold getEditHandles, getObject. intros -> Hd Hfl.
  by rewrite flattenPositions_spec, Hd, Hfl.
Qed.

(** The feature [i] of the collection [replacePosition] or [removePosition]
    returns. *)
Lemma edited_feature this i f c' :
  at_index (features (getObject this)) i = Some f ->
  at_index
    (features (getObject
       {| featureCollection := with_coordinates (getObject this) i f c' |})) i
  = Some {| geometry :=
              {| type := type (geometry f); coordinates := c';
                 geometry_rest := geometry_rest (geometry f) |};
            feature_rest := feature_rest f |}.
Proof. intros Hf. simpl. apply at_index_splice_in. eauto using at_index_lt. Qed.

Lemma bind_Ok_l {A B} (a : A) (f : A -> result B) : Ok a ≫= f = f a.
Proof. done. Qed.

Lemma replacePosition_unfold this i f path pos :
  at_index (features (getObject this)) i = Some f ->
  replacePosition this i path pos =
  immutablyReplacePosition (coordinates (geometry f)) path pos
    (polygonal (type (geometry f))) ≫= fun c' =>
  Ok {| featureCollection := with_coordinates (getObject this) i f c' |}.
Proof. unfold replacePosition, getObject. by intros ->. Qed.

Lemma removePosition_unfold this i f path :
  at_index (features (getObject this)) i = Some f ->
  removePosition this i path =
  immutablyRemovePosition (coordinates (geometry f)) path
    (polygonal (type (geometry f))) ≫= fun c' =>
  Ok {| featureCollection := with_coordinates (getObject this) i f c' |}.
Proof. unfold removePosition, getObject. by intros ->. Qed.

Lemma with_coordinates_twice fc i f c1 c2 :
  at_index (features fc) i = Some f ->
  with_coordinates (with_coordinates fc i f c1) i
    {| geometry :=
         {| type := type (geometry f); coordinates := c1;
            geometry_rest := geometry_rest (geometry f) |};
       feature_rest := feature_rest f |} c2
  = with_coordinates fc i f c2.
Proof.
  intros Hf. pose proof (at_index_lt _ _ _ Hf) as Hi.
  unfold with_coordinates. simpl. f_equal.
  rewrite !(splice_in_insert (features fc)) by done.
  rewrite splice_in_insert by (rewrite length_insert; lia).
  by rewrite list_insert_insert_eq.
Qed.

Lemma replacePosition_twice this i f path v p1 p2 :
  at_index (features (getObject this)) i = Some f ->
  descend (coordinates (geometry f)) path = Some v ->
  replacePosition this i (Some path) p1 ≫=
    (fun this1 => replacePosition this1 i (Some path) p2)
  = replacePosition this i (Some path) p2.
Proof.
  intros Hf Hd.
  destruct (replace_at_reads_back _ path v p1
              (polygonal (type (geometry f))) Hd) as (c1 & Hc1 & _).
  rewrite (replacePosition_Ok this i f (Some path) p1 c1 Hf Hc1).
  rewrite bind_Ok_l.
  rewrite (replacePosition_unfold _ i _ _ _ (edited_feature this i f c1 Hf)).
  rewrite (replacePosition_unfold this i f _ _ Hf).
  cbn [geometry type coordinates immutablyReplacePosition].
  rewrite (replace_at_twice _ _ _ _ _ _ _ Hd Hc1).
  destruct (immutablyReplacePosition_at _ path p2 _) as [c2|e]; [|done].
  rewrite !bind_Ok_l. do 2 f_equal.
  by apply with_coordinates_twice.
Qed.

(** X1. [replacePosition] at the indexes of a handle [getEditHandles]
    returned: it succeeds, and [getEditHandles] on its result returns
    handles with the same index paths in the same order, among them the
    handle of the new position at the indexes that were edited. *)
Theorem handles_keep_their_indexes_after_replace this i hs h pos :
  getEditHandles this i = Ok hs ->
  h ∈ hs ->
  exists this' hs',
    replacePosition this i (Some (positionIndexes h)) pos = Ok this' /\
    getEditHandles this' i = Ok hs' /\
    positionIndexes <$> hs' = positionIndexes <$> hs /\
    {| position := pos; positionIndexes := positionIndexes h |} ∈ hs'.
Proof.
  intros (f & d & Hf & Hdepth & Hfl & ->)%getEditHandles_Ok Hh.
  apply elem_of_enumerate in Hh as [Hlen Hd].
  destruct (replace_at_reads_back _ _ _ pos
              (polygonal (type (geometry f))) Hd) as (c' & Hc' & Hd').
  pose proof (replace_at_same_shape _ _ _ _ _ _ Hd Hc') as Hshape.
  rewrite Hlen in Hshape.
  eexists _, _.
  split; [exact (replacePosition_Ok this i f (Some _) pos c' Hf Hc')|].
  split; [|split].
  - apply (getEditHandles_enumerate _ _ _ d (edited_feature this i f c' Hf));
      [done|]. simpl. by rewrite <- (same_shape_flattens _ _ _ Hshape).
  - simpl. symmetry. by apply same_shape_paths.
  - apply elem_of_enumerate. by split.
Qed.

Lemma handles_keep_their_indexes_after_replace_triangle :
  exists this' hs',
    replacePosition triangle_polygon 0 (Some [0; 1]) (pt 5 5) = Ok this' /\
    getEditHandles this' 0 = Ok hs' /\
    positionIndexes <$> hs' =
      positionIndexes <$> enumerate 2 (Arr [Arr triangle]) /\
    {| position := pt 5 5; positionIndexes := [0; 1] |} ∈ hs'.
Proof.
  apply (handles_keep_their_indexes_after_replace triangle_polygon 0
           (enumerate 2 (Arr [Arr triangle]))
           {| position := pt 1 0; positionIndexes := [0; 1] |} (pt 5 5)).
  - reflexivity.
  - apply elem_of_enumerate. split; reflexivity.
Defined.

(** X2. [replacePosition] at the indexes of a handle, when the feature is
    no polygon or the position is not the first or last of its ring: the
    handles [getEditHandles] returns afterwards are the handles it returned
    before, with the new position in the handle that was edited and every
    other handle as it was. *)
Theorem replace_changes_one_handle this i f hs h pos :
  at_index (features (getObject this)) i = Some f ->
  getEditHandles this i = Ok hs ->
  h ∈ hs ->
  polygonal (type (geometry f))
    && on_ring_end (coordinates (geometry f)) (positionIndexes h) = false ->
  exists this',
    replacePosition this i (Some (positionIndexes h)) pos = Ok this' /\
    getEditHandles this' i =
    Ok ((fun g => if decide (positionIndexes g = positionIndexes h)
                  then {| position := pos;
                          positionIndexes := positionIndexes h |}
                  else g) <$> hs).
Proof.
  intros Hf (f0 & d & Hf0 & Hdepth & Hfl & ->)%getEditHandles_Ok Hh Hoff.
  assert (f0 = f) as -> by congruence. clear Hf0.
  apply elem_of_enumerate in Hh as [Hlen Hd].
  destruct (replace_at_reads_back _ _ _ pos
              (polygonal (type (geometry f))) Hd) as (c' & Hc' & Hd').
  pose proof (replace_at_same_shape _ _ _ _ _ _ Hd Hc') as Hshape.
  rewrite Hlen in Hshape.
  eexists.
  split; [exact (replacePosition_Ok this i f (Some _) pos c' Hf Hc')|].
  rewrite (getEditHandles_enumerate _ _ _ d (edited_feature this i f c' Hf));
    [|done|simpl; by rewrite <- (same_shape_flattens _ _ _ Hshape)].
  f_equal. simpl. apply list_eq. intros n. rewrite list_lookup_fmap.
  pose proof (f_equal (fun l => l !! n) (same_shape_paths _ _ _ Hshape))
    as Hn. simpl in Hn. rewrite !list_lookup_fmap in Hn.
  destruct (enumerate d (coordinates (geometry f)) !! n) as [g|] eqn:Hg;
    destruct (enumerate d c' !! n) as [g'|] eqn:Hg'; try done.
  simpl in *. injection Hn as Hn. f_equal.
  apply list_elem_of_lookup_2, elem_of_enumerate in Hg as [Hgl Hgd].
  apply list_elem_of_lookup_2, elem_of_enumerate in Hg' as [_ Hgd'].
  rewrite <- Hn in Hgd'. destruct g as [gp gq], g' as [gp' gq'].
  simpl in *. subst gq'. case_decide as Hq.
  - subst gq. f_equal. congruence.
  - f_equal.
    rewrite (replace_at_elsewhere _ _ _ _ _ _ gq Hd Hc' Hoff) in Hgd';
      [congruence | congruence | done].
Qed.

Lemma replace_changes_one_handle_line :
  exists this',
    replacePosition line 0 (Some [1]) (pt 5 5) = Ok this' /\
    getEditHandles this' 0 =
    Ok ((fun g => if decide (positionIndexes g = [1])
                  then {| position := pt 5 5; positionIndexes := [1] |}
                  else g) <$> enumerate 1 (Arr [pt 0 0; pt 1 1])).
Proof.
  apply (replace_changes_one_handle line 0
           (feature_of "LineString" (Arr [pt 0 0; pt 1 1]))
           (enumerate 1 (Arr [pt 0 0; pt 1 1]))
           {| position := pt 1 1; positionIndexes := [1] |} (pt 5 5)).
  - reflexivity.
  - reflexivity.
  - apply elem_of_enumerate. split; reflexivity.
  - reflexivity.
Defined.

(** X3. Two replacements at one path that addresses a value: the outcome
    is that of the second replacement alone. *)
Theorem replace_twice_is_replace_once this i f path v p1 p2 :
  at_index (features (getObject this)) i = Some f ->
  descend (coordinates (geometry f)) path = Some v ->
  replacePosition this i (Some path) p1 ≫=
    (fun this1 => replacePosition this1 i (Some path) p2)
  = replacePosition this i (Some path) p2.
Proof. apply replacePosition_twice. Qed.

Lemma replace_twice_is_replace_once_triangle :
  replacePosition triangle_polygon 0 (Some [0; 0]) (pt 5 5) ≫=
    (fun this1 => replacePosition this1 0 (Some [0; 0]) (pt 6 6))
  = replacePosition triangle_polygon 0 (Some [0; 0]) (pt 6 6).
Proof.
  apply (replace_twice_is_replace_once triangle_polygon 0
           (feature_of "Polygon" (Arr [Arr triangle])) [0; 0] (pt 0 0)).
  - reflexivity.
  - reflexivity.
Defined.

(** X4. A replacement undone: replacing the value a path addresses and
    then putting the original value back at the same path returns the
    original collection, provided the rings of a polygon are closed. *)
Theorem replace_then_restore this i f path v pos :
  at_index (features (getObject this)) i = Some f ->
  descend (coordinates (geometry f)) path = Some v ->
  (type (geometry f) = "Polygon" \/ type (geometry f) = "MultiPolygon" ->
   rings_closed (length path) (coordinates (geometry f))) ->
  replacePosition this i (Some path) pos ≫=
    (fun this1 => replacePosition this1 i (Some path) v)
  = Ok this.
Proof.
  intros Hf Hd Hclosed.
  rewrite (replacePosition_twice this i f path v pos v Hf Hd).
  rewrite (replacePosition_Ok this i f (Some path) v
             (coordinates (geometry f)) Hf).
  - f_equal. by apply with_coordinates_same.
  - simpl. apply replace_at_same; [done|].
    intros Hp%polygonal_spec. auto.
Qed.

Lemma replace_then_restore_triangle :
  replacePosition triangle_polygon 0 (Some [0; 0]) (pt 5 5) ≫=
    (fun this1 => replacePosition this1 0 (Some [0; 0]) (pt 0 0))
  = Ok triangle_polygon.
Proof.
  apply (replace_then_restore triangle_polygon 0
           (feature_of "Polygon" (Arr [Arr triangle])) [0; 0] (pt 0 0)).
  - reflexivity.
  - reflexivity.
  - intros _. simpl. repeat constructor.
Defined.

(** X5. The closed-ring invariant under [replacePosition]: on a Polygon or
    MultiPolygon whose rings are all closed, a replacement at a path that
    addresses a position returns a collection whose rings are all closed. *)
Theorem replace_keeps_rings_closed this i f path v pos :
  at_index (features (getObject this)) i = Some f ->
  type (geometry f) = "Polygon" \/ type (geometry f) = "MultiPolygon" ->
  descend (coordinates (geometry f)) path = Some v ->
  rings_closed (length path) (coordinates (geometry f)) ->
  exists this' f',
    replacePosition this i (Some path) pos = Ok this' /\
    at_index (features (getObject this')) i = Some f' /\
    rings_closed (length path) (coordinates (geometry f')).
Proof.
  intros Hf Hty%polygonal_spec Hd Hclosed.
  destruct (replace_at_reads_back _ _ _ pos
              (polygonal (type (geometry f))) Hd) as (c' & Hc' & _).
  eexists _, _.
  split; [exact (replacePosition_Ok this i f (Some _) pos c' Hf Hc')|].
  split; [by apply edited_feature|]. simpl.
  rewrite Hty in Hc'. by eapply replace_at_keeps_closed.
Qed.

Lemma replace_keeps_rings_closed_triangle :
  exists this' f',
    replacePosition triangle_polygon 0 (Some [0; 3]) (pt 5 5) = Ok this' /\
    at_index (features (getObject this')) 0 = Some f' /\
    rings_closed 2 (coordinates (geometry f')).
Proof.
  apply (replace_keeps_rings_closed triangle_polygon 0
           (feature_of "Polygon" (Arr [Arr triangle])) [0; 3] (pt 0 0)).
  - reflexivity.
  - left. reflexivity.
  - reflexivity.
  - simpl. repeat constructor.
Defined.

Lemma removePosition_below this i f prefix k c' :
  at_index (features (getObject this)) i = Some f ->
  immutablyRemovePosition_at (coordinates (geometry f)) (prefix ++ [k])
    (polygonal (type (geometry f))) = Ok c' ->
  removePosition this i (Some (prefix ++ [k])) =
  Ok {| featureCollection := with_coordinates (getObject this) i f c' |}.
Proof. intros Hf Hc'. by apply (removePosition_Ok this i f (Some _)). Qed.

(** X6. The closed-ring and ring-size invariants under [removePosition]:
    on a Polygon or MultiPolygon whose rings are all closed, the removal of
    any position of a ring of at least 5 positions returns a collection
    whose rings are all closed, and the ring is one position shorter, so it
    keeps at least 4. *)
Theorem remove_keeps_rings_closed this i f prefix k ring :
  at_index (features (getObject this)) i = Some f ->
  type (geometry f) = "Polygon" \/ type (geometry f) = "MultiPolygon" ->
  descend (coordinates (geometry f)) prefix = Some (Arr ring) ->
  5 <= Z.of_nat (length ring) ->
  0 <= k < Z.of_nat (length ring) ->
  rings_closed (length (prefix ++ [k])) (coordinates (geometry f)) ->
  exists this' f' ring',
    removePosition this i (Some (prefix ++ [k])) = Ok this' /\
    at_index (features (getObject this')) i = Some f' /\
    rings_closed (length (prefix ++ [k])) (coordinates (geometry f')) /\
    descend (coordinates (geometry f')) prefix = Some (Arr ring') /\
    Z.of_nat (length ring') = Z.of_nat (length ring) - 1 /\
    4 <= Z.of_nat (length ring').
Proof.
  intros Hf Hty%polygonal_spec Hd Hlen Hk Hclosed.
  destruct (remove_at_keeps_closed _ _ k _ Hd Hlen Hk Hclosed)
    as (c' & Hc' & Hd' & Hclosed').
  rewrite <- Hty in Hc'.
  eexists _, _, _. split; [by apply (removePosition_below this i f)|].
  split; [by apply edited_feature|]. simpl.
  split; [done|]. split; [done|].
  rewrite length_removed by done. lia.
Qed.

Lemma remove_keeps_rings_closed_square :
  exists this' f' ring',
    removePosition square_polygon 0 (Some [0; 2]) = Ok this' /\
    at_index (features (getObject this')) 0 = Some f' /\
    rings_closed 2 (coordinates (geometry f')) /\
    descend (coordinates (geometry f')) [0] = Some (Arr ring') /\
    Z.of_nat (length ring') = 4 /\
    4 <= Z.of_nat (length ring').
Proof.
  apply (remove_keeps_rings_closed square_polygon 0
           (feature_of "Polygon" (Arr [Arr square])) [0] 2 square).
  - reflexivity.
  - left. reflexivity.
  - reflexivity.
  - simpl. lia.
  - simpl. lia.
  - simpl. repeat constructor.
Defined.

(** X7. Where no ring repair applies, [removePosition] deletes exactly the
    addressed element: for a feature that is no polygon, and for a position
    of a polygon ring of at least 5 that is neither its first nor its last,
    the array comes back without its element [k], the others in order.  A
    feature that is no polygon has no size guard: its last position can be
    removed. *)
Theorem remove_deletes_one_element this i f prefix k ring :
  at_index (features (getObject this)) i = Some f ->
  descend (coordinates (geometry f)) prefix = Some (Arr ring) ->
  0 <= k < Z.of_nat (length ring) ->
  (type (geometry f) = "Polygon" \/ type (geometry f) = "MultiPolygon" ->
   5 <= Z.of_nat (length ring) /\ 0 < k < Z.of_nat (length ring) - 1) ->
  exists this' f',
    removePosition this i (Some (prefix ++ [k])) = Ok this' /\
    at_index (features (getObject this')) i = Some f' /\
    descend (coordinates (geometry f')) prefix =
    Some (Arr (take (Z.to_nat k) ring ++ drop (S (Z.to_nat k)) ring)).
Proof.
  intros Hf Hd Hk Hpoly.
  set (b := polygonal (type (geometry f))).
  assert (Hguard : b && (Z.of_nat (length ring) <? 5) = false).
  { destruct b eqn:Hb; [|done]. apply polygonal_spec, Hpoly in Hb.
    simpl. apply Z.ltb_ge. lia. }
  assert (Hend : b && is_end (Z.of_nat (length ring)) k = false).
  { destruct b eqn:Hb; [|done]. apply polygonal_spec, Hpoly in Hb.
    simpl. apply is_end_false. lia. }
  pose proof (remove_at_last_removed ring k b) as Hlast.
  rewrite Hguard, (removed_interior _ _ _ Hk Hend) in Hlast.
  destruct (remove_at_below _ prefix [k] _ _ b ltac:(done) Hd Hlast)
    as (c' & Hc' & Hd').
  eexists _, _. split; [by apply (removePosition_below this i f)|].
  split; [by apply edited_feature|]. done.
Qed.

Lemma remove_deletes_one_element_point_line :
  exists this' f',
    removePosition
      (collection_of [feature_of "LineString" (Arr [pt 0 0])]) 0 (Some [0])
    = Ok this' /\
    at_index (features (getObject this')) 0 = Some f' /\
    descend (coordinates (geometry f')) [] = Some (Arr []).
Proof.
  apply (remove_deletes_one_element
           (collection_of [feature_of "LineString" (Arr [pt 0 0])]) 0
           (feature_of "LineString" (Arr [pt 0 0])) [] 0 [pt 0 0]).
  - reflexivity.
  - reflexivity.
  - simpl. lia.
  - intros [H|H]; discriminate H.
Defined.

(** X8. A last index at or past the end of the array it addresses is not
    an error for [removePosition]: unless the ring-size guard of a polygon
    applies, the call returns a collection equal to the original. *)
Theorem remove_past_the_end_changes_nothing this i f prefix k ring :
  at_index (features (getObject this)) i = Some f ->
  descend (coordinates (geometry f)) prefix = Some (Arr ring) ->
  Z.of_nat (length ring) <= k ->
  (type (geometry f) = "Polygon" \/ type (geometry f) = "MultiPolygon" ->
   5 <= Z.of_nat (length ring)) ->
  removePosition this i (Some (prefix ++ [k])) = Ok this.
Proof.
  intros Hf Hd Hk Hpoly.
  set (b := polygonal (type (geometry f))).
  assert (Hguard : b && (Z.of_nat (length ring) <? 5) = false).
  { destruct b eqn:Hb; [|done]. apply polygonal_spec, Hpoly in Hb.
    simpl. apply Z.ltb_ge. lia. }
  pose proof (remove_at_last_removed ring k b) as Hlast.
  rewrite Hguard, removed_beyond in Hlast by done.
  rewrite (removePosition_below this i f prefix k (coordinates (geometry f)) Hf).
  - f_equal. by apply with_coordinates_same.
  - by apply (remove_at_below_same _ _ _ (Arr ring)).
Qed.

Lemma remove_past_the_end_changes_nothing_line :
  removePosition line 0 (Some [2]) = Ok line.
Proof.
  apply (remove_past_the_end_changes_nothing line 0
           (feature_of "LineString" (Arr [pt 0 0; pt 1 1])) [] 2
           [pt 0 0; pt 1 1]).
  - reflexivity.
  - reflexivity.
  - simpl. lia.
  - intros [H|H]; discriminate H.
Defined.

(** ** The handles after a removal *)

Lemma same_arrays_refl d v : same_arrays d v v.
Proof.
  revert v. induction d as [|d IH]; intros v; [done|].
  destruct v as [| |elems]; try done. simpl. destruct d; [done|].
  apply Forall2_same_length_lookup_2; [done|].
  intros i x y Hx Hy. assert (x = y) as -> by congruence. apply IH.
Qed.

Lemma same_arrays_flattens d v w :
  same_arrays d v w -> flattens d v = flattens d w.
Proof.
  destruct d as [|[|[|[|d]]]]; try done.
  - by destruct v, w.
  - destruct v as [| |vs], w as [| |ws]; try done. intros H.
    apply forallb_Forall2. eapply Forall2_impl; [exact H|].
    intros x y. by destruct x, y.
  - destruct v as [| |vs], w as [| |ws]; try done. intros H.
    apply forallb_Forall2. eapply Forall2_impl; [exact H|].
    intros x y Hxy. destruct x as [| |xs], y as [| |ys]; try done.
    apply forallb_Forall2. eapply Forall2_impl; [exact Hxy|].
    intros a b. by destruct a, b.
Qed.

Lemma length_join_imap {A B} (f : nat -> A -> list B) (g : A -> nat) l :
  (forall i x, length (f i x) = g x) ->
  length (mjoin (imap f l)) = sum_list_with g l.
Proof.
  revert f. induction l as [|x l IH]; intros f Hf; [done|].
  rewrite imap_cons. simpl. rewrite length_app, Hf. f_equal.
  apply IH. intros i y. apply Hf.
Qed.

Lemma length_enumerate_S d elems :
  length (enumerate (S d) (Arr elems)) =
  sum_list_with (fun x => length (enumerate d x)) elems.
Proof.
  simpl. apply length_join_imap. intros i x. by rewrite length_fmap.
Qed.

Lemma sum_list_with_insert {A} (g : A -> nat) l i x y :
  l !! i = Some x ->
  (sum_list_with g (<[i := y]> l) + g x = sum_list_with g l + g y)%nat.
Proof.
  intros Hx. rewrite insert_take_drop by eauto using lookup_lt_Some.
  rewrite <- (take_drop_middle l i x Hx) at 3.
  rewrite !sum_list_with_app. simpl. lia.
Qed.

Lemma length_removed_any ring k b :
  0 <= k < Z.of_nat (length ring) ->
  b && (Z.of_nat (length ring) <? 5) = false ->
  S (length (removed ring k b)) = length ring.
Proof.
  intros Hk Hguard. destruct b.
  - apply Z.ltb_ge in Hguard. pose proof (length_removed ring k Hguard Hk). lia.
  - rewrite removed_interior by done.
    rewrite length_app, length_take, length_drop. lia.
Qed.

Lemma remove_at_handles c prefix k ring b c' :
  descend c prefix = Some (Arr ring) ->
  0 <= k < Z.of_nat (length ring) ->
  immutablyRemovePosition_at c (prefix ++ [k]) b = Ok c' ->
  same_arrays (S (length prefix)) c c' /\
  S (length (enumerate (S (length prefix)) c')) =
  length (enumerate (S (length prefix)) c).
Proof.
  intros Hd Hk. revert c c' Hd.
  induction prefix as [|i p IH]; intros c c' Hd Hrun.
  - injection Hd as ->. cbn [app] in Hrun.
    rewrite remove_at_last_removed in Hrun.
    destruct (b && (_ <? 5)) eqn:Hguard; [done|]. injection Hrun as <-.
    split; [done|]. rewrite !length_enumerate_S. simpl.
    rewrite !sum_list_with_foldr. 
    assert (Hone : forall l : list value,
              foldr (fun _ n => S n) 0%nat l = length l).
    { induction l as [|? ? IHl]; simpl; congruence. }
    rewrite !Hone. by apply length_removed_any.
  - apply tree_descend_cons in Hd as (elems & y & -> & Hy & Hd).
    pose proof (at_index_lt _ _ _ Hy) as Hi.
    change ((i :: p) ++ [k]) with (i :: (p ++ [k])) in Hrun.
    rewrite remove_at_cons in Hrun by (by destruct p).
    rewrite (index_Some _ _ _ Hy) in Hrun.
    destruct (immutablyRemovePosition_at y _ b) as [y'|e] eqn:Hy'; [|done].
    injection Hrun as <-. rewrite splice_in_insert by done.
    destruct (IH y y' Hd Hy') as [Hsame Hlen].
    apply at_index_Some in Hy as [_ Hy].
    split.
    + change (Forall2 (same_arrays (S (length p))) elems
                (<[Z.to_nat i := y']> elems)).
      rewrite <- (list_insert_id elems (Z.to_nat i) y Hy) at 1.
      apply Forall2_insert; [|done].
      apply Forall2_same_length_lookup_2; [done|].
      intros n x1 x2 H1 H2. assert (x1 = x2) as -> by congruence.
      apply same_arrays_refl.
    + cbn [length]. rewrite !length_enumerate_S.
      pose proof (sum_list_with_insert
                    (fun x => length (enumerate (S (length p)) x))
                    elems (Z.to_nat i) y y' Hy). lia.
Qed.

Lemma descend_snoc c prefix k v :
  descend c (prefix ++ [k]) = Some v ->
  exists ring, descend c prefix = Some (Arr ring) /\ at_index ring k = Some v.
Proof.
  revert c. induction prefix as [|i p IH]; intros c Hd.
  - apply tree_descend_cons in Hd as (elems & y & -> & Hy & Hd).
    injection Hd as ->. by exists elems.
  - change ((i :: p) ++ [k]) with (i :: (p ++ [k])) in Hd.
    apply tree_descend_cons in Hd as (elems & y & -> & Hy & Hd).
    destruct (IH y Hd) as (ring & Hring & Hk). exists ring.
    split; [|done]. simpl. by rewrite Hy.
Qed.

(** X9. A removal takes one handle off.  When [removePosition] at the
    indexes of a handle [getEditHandles] returned succeeds,
    [getEditHandles] on its result succeeds and returns one handle fewer,
    also where an end of a polygon ring was removed and the ring closed
    again. *)
Theorem remove_takes_one_handle_off this i hs h this' :
  getEditHandles this i = Ok hs ->
  h ∈ hs ->
  removePosition this i (Some (positionIndexes h)) = Ok this' ->
  exists hs',
    getEditHandles this' i = Ok hs' /\ S (length hs') = length hs.
Proof.
  intros Hhs Hh Hrun.
  apply getEditHandles_Ok in Hhs as (f & d & Hf & Hdepth & Hfl & ->).
  apply elem_of_enumerate in Hh as [Hlen Hd].
  rewrite (removePosition_unfold this i f _ Hf) in Hrun.
  cbn [immutablyRemovePosition] in Hrun.
  destruct (immutablyRemovePosition_at _ _ _) as [c'|e] eqn:Hc'; [|done].
  rewrite bind_Ok_l in Hrun. injection Hrun as <-.
  revert Hlen Hd Hc'. generalize (positionIndexes h). intros path.
  induction path as [|k l _] using rev_ind; intros Hlen Hd Hc';
    [by cbn in Hc'|].
  apply descend_snoc in Hd as (ring & Hring & Hk).
  rewrite length_app in Hlen. simpl in Hlen.
  replace (length l + 1)%nat with (S (length l)) in Hlen by lia. subst d.
  destruct (remove_at_handles _ _ _ _ _ _ Hring (at_index_lt _ _ _ Hk) Hc')
    as [Hsame Hcount].
  eexists. split; [|exact Hcount].
  apply (getEditHandles_enumerate _ i _ _ (edited_feature this i f c' Hf));
    [done|].
  cbn [geometry coordinates].
  by rewrite <- (same_arrays_flattens _ _ _ Hsame).
Qed.

Lemma remove_takes_one_handle_off_square :
  exists hs',
    getEditHandles
      {| featureCollection :=
           with_coordinates (getObject square_polygon) 0
             (feature_of "Polygon" (Arr [Arr square]))
             (Arr [Arr [pt 1 0; pt 1 1; pt 0 1; pt 1 0]]) |} 0 = Ok hs' /\
    S (length hs') = 5%nat.
Proof.
  apply (remove_takes_one_handle_off square_polygon 0
           (enumerate 2 (Arr [Arr square]))
           {| position := pt 0 0; positionIndexes := [0; 0] |}).
  - reflexivity.
  - apply elem_of_enumerate. split; reflexivity.
  - reflexivity.
Defined.

Lemma depth_of_supported type :
  type ∈ supported_types <-> is_Some (depth_of type).
Proof.
  unfold supported_types, depth_of. rewrite !elem_of_cons, elem_of_nil.
  repeat case_bool_decide; subst; simpl; split;
    (eauto 10 || intros [? ?] || intros ?); try done;
    intuition congruence.
Qed.

(** X10. [getEditHandles] throws an [Error] exactly on a feature whose type
    is none of Point, MultiPoint, LineString, Polygon, MultiLineString and
    MultiPolygon, whatever its coordinates, and the message is
    ["Unhandled geometry type: "] followed by the type.  On a supported
    type a failure can only be a [TypeError], from coordinates that are not
    nested as the type asks. *)
Theorem getEditHandles_unsupported_type this i f :
  at_index (features (getObject this)) i = Some f ->
  (type (geometry f) ∉ supported_types ->
   getEditHandles this i =
   Throw (Error (msg_unhandled (type (geometry f))))) /\
  (type (geometry f) ∈ supported_types ->
   (exists hs, getEditHandles this i = Ok hs) \/
   getEditHandles this i = Throw TypeError).
Proof.
  intros Hf. unfold getEditHandles. unfold getObject in Hf. rewrite Hf.
  rewrite flattenPositions_spec. rewrite depth_of_supported.
  destruct (depth_of _) as [d|].
  - split; [intros []; eauto|]. intros _. destruct (flattens d _); eauto.
  - split; [done|]. by intros [? ?].
Qed.

Lemma getEditHandles_unsupported_type_example :
  (getEditHandles
     (collection_of [feature_of "GeometryCollection" Undef]) 0 =
   Throw (Error "Unhandled geometry type: GeometryCollection")) /\
  ((exists hs, getEditHandles line 0 = Ok hs) \/
   getEditHandles line 0 = Throw TypeError).
Proof.
  split.
  - apply (getEditHandles_unsupported_type
             (collection_of [feature_of "GeometryCollection" Undef]) 0
             (feature_of "GeometryCollection" Undef)); [reflexivity|].
    unfold supported_types. rewrite !elem_of_cons, elem_of_nil.
    intros H. repeat (destruct H as [H|H]; [discriminate H|]). exact H.
  - apply (getEditHandles_unsupported_type line 0
             (feature_of "LineString" (Arr [pt 0 0; pt 1 1])));
      [reflexivity|].
    unfold supported_types. rewrite !elem_of_cons. auto.
Defined.

End TreeEdits.

(** * Facts about what the edits copy and share *)

Module HeapEdits.
Import Heap Refinement Sharing HeapFacts RefinementFacts.

Lemma copied_along_mono n h h' h'' c c' path :
  extends h' h'' ->
  copied_along n h h' c c' path -> copied_along n h h'' c c' path.
Proof.
  intros Hext. revert c c'. induction path as [|i rest IH]; intros c c';
    [done|].
  intros (l & elems & l' & elems' & -> & Hl & -> & Hl' & Hn & Hlen & Hoff & Hin).
  exists l, elems, l', elems'. repeat (split; [by auto|]). by apply IH.
Qed.

Lemma descend_mono h h' c path v :
  extends h h' -> descend h c path = Some v -> descend h' c path = Some v.
Proof.
  intros Hext. revert c. induction path as [|i rest IH]; intros c Hd; [done|].
  apply descend_cons in Hd as (l & elems & x & -> & Hl & Hx & Hd).
  simpl. rewrite (Hext _ _ Hl), Hx. simpl. by apply IH.
Qed.

Lemma extends_frames {A} (m : M A) Q h r h' :
  frames (length h) m Q -> m h = (r, h') ->
  extends h h' /\ (length h <= length h')%nat.
Proof.
  intros Hm Hrun.
  destruct (frames_whole_store _ _ _ _ _ Hm Hrun) as [Hsame _].
  destruct (Hm h r h' ltac:(done) Hrun) as (Hlen & _). done.
Qed.

(** One level of the recursion, for both functions: the array built around
    the rewritten element [inner]. *)
Lemma copied_along_cons h h1 l elems i x inner rest :
  h !! l = Some (OArray elems) ->
  at_index elems i = Some x ->
  extends h h1 -> (length h <= length h1)%nat ->
  copied_along (length h) h h1 x inner rest ->
  copied_along (length h) h
    (h1 ++ [OArray (slice elems 0 i ++ [inner] ++ slice_from elems (i + 1))])
    (VRef l) (VRef (length h1)) (i :: rest).
Proof.
  intros Hl Hx Hext Hlen Hin.
  pose proof (at_index_lt _ _ _ Hx) as Hi.
  exists l, elems, (length h1), (splice_in elems i inner).
  split; [done|]. split; [done|]. split; [done|].
  split; [apply lookup_alloc|]. split; [done|].
  split; [by apply length_splice_in|].
  split; [intros j Hj; by apply at_index_splice_in_ne|].
  unfold index at 1 2. rewrite Hx, at_index_splice_in by done. simpl.
  eapply copied_along_mono; [apply extends_alloc | done].
Qed.

Lemma descend_into_copy h1 elems i inner rest v :
  0 <= i < Z.of_nat (length elems) ->
  descend h1 inner rest = Some v ->
  descend (h1 ++ [OArray (slice elems 0 i ++ [inner] ++ slice_from elems (i + 1))])
    (VRef (length h1)) (i :: rest) = Some v.
Proof.
  intros Hi Hd. cbn [descend]. rewrite lookup_alloc.
  change (slice elems 0 i ++ [inner] ++ slice_from elems (i + 1))
    with (splice_in elems i inner).
  rewrite at_index_splice_in by done. cbn [mbind option_bind].
  eapply descend_mono; [apply extends_alloc | done].
Qed.

Lemma replace_at_copies h prefix k pos b c l ring :
  descend h c prefix = Some (VRef l) ->
  h !! l = Some (OArray ring) ->
  exists c' h1 l',
    immutablyReplacePosition_at c (prefix ++ [k]) pos b h = (Ok c', h1) /\
    extends h h1 /\ (length h <= length h1)%nat /\
    copied_along (length h) h h1 c c' prefix /\
    descend h1 c' prefix = Some (VRef l') /\
    (length h <= l')%nat /\
    h1 !! l' =
    Some (OArray (if b && is_end (Z.of_nat (length ring)) k
                  then store VUndef (store VUndef (splice_in ring k pos) 0 pos)
                         (Z.of_nat (length ring) - 1) pos
                  else splice_in ring k pos)).
Proof.
  revert c. induction prefix as [|i rest IH]; intros c Hd Hl.
  - injection Hd as ->. eexists _, _, (length h).
    split; [by apply heap_replace_at_last|].
    split; [apply extends_alloc|]. split; [rewrite length_app; lia|].
    split; [done|]. split; [done|]. split; [done|]. apply lookup_alloc.
  - apply descend_cons in Hd as (lc & elems & x & -> & Hlc & Hx & Hd).
    destruct (IH x Hd Hl)
      as (inner & h1 & l' & Hrun & Hext & Hlen & Hcopy & Hd' & Hfresh & Hl').
    pose proof (at_index_lt _ _ _ Hx) as Hi.
    eexists _, _, l'. split.
    { change ((i :: rest) ++ [k]) with (i :: (rest ++ [k])).
      rewrite heap_replace_at_cons by (by destruct rest).
      run_by ltac:(by apply array_of_run).
      unfold index at 1. rewrite Hx. simpl.
      run_by ltac:(exact Hrun).
      run_by ltac:(by apply array_of_run, Hext).
      run_by ltac:(reflexivity). reflexivity. }
    split; [eapply extends_trans; [exact Hext | apply extends_alloc]|].
    split; [rewrite length_app; lia|].
    split; [by apply (copied_along_cons _ _ _ _ _ x)|].
    split; [by apply descend_into_copy|].
    split; [done|]. by apply lookup_alloc_old.
Qed.

Lemma remove_at_copies h prefix k b c l ring :
  descend h c prefix = Some (VRef l) ->
  h !! l = Some (OArray ring) ->
  b && (Z.of_nat (length ring) <? 5) = false ->
  exists c' h1 l',
    immutablyRemovePosition_at c (prefix ++ [k]) b h = (Ok c', h1) /\
    extends h h1 /\ (length h <= length h1)%nat /\
    copied_along (length h) h h1 c c' prefix /\
    descend h1 c' prefix = Some (VRef l') /\
    (length h <= l')%nat /\
    h1 !! l' =
    Some (OArray (if b && is_end (Z.of_nat (length ring)) k
                  then repaired (splice_out ring k) (Z.of_nat (length ring)) k
                  else splice_out ring k)).
Proof.
  intros Hd Hl Hguard. revert c Hd.
  induction prefix as [|i rest IH]; intros c Hd.
  - injection Hd as ->. eexists _, _, (length h).
    split; [cbn [app]; by rewrite (heap_remove_at_last _ _ _ _ _ Hl), Hguard|].
    split; [apply extends_alloc|]. split; [rewrite length_app; lia|].
    split; [done|]. split; [done|]. split; [done|]. apply lookup_alloc.
  - apply descend_cons in Hd as (lc & elems & x & -> & Hlc & Hx & Hd).
    destruct (IH x Hd)
      as (inner & h1 & l' & Hrun & Hext & Hlen & Hcopy & Hd' & Hfresh & Hl').
    pose proof (at_index_lt _ _ _ Hx) as Hi.
    eexists _, _, l'. split.
    { change ((i :: rest) ++ [k]) with (i :: (rest ++ [k])).
      rewrite heap_remove_at_cons by (by destruct rest).
      run_by ltac:(by apply array_of_run).
      unfold index at 1. rewrite Hx. simpl.
      run_by ltac:(exact Hrun).
      run_by ltac:(by apply array_of_run, Hext).
      run_by ltac:(reflexivity). reflexivity. }
    split; [eapply extends_trans; [exact Hext | apply extends_alloc]|].
    split; [rewrite length_app; lia|].
    split; [by apply (copied_along_cons _ _ _ _ _ x)|].
    split; [by apply descend_into_copy|].
    split; [done|]. by apply lookup_alloc_old.
Qed.

(** The slots of the ring a replacement builds. *)
Lemma at_index_written (ring : list val) k pos b j :
  0 <= k < Z.of_nat (length ring) ->
  at_index (if b && is_end (Z.of_nat (length ring)) k
            then store VUndef (store VUndef (splice_in ring k pos) 0 pos)
                   (Z.of_nat (length ring) - 1) pos
            else splice_in ring k pos) j =
  if written (Z.of_nat (length ring)) k b j then Some pos else at_index ring j.
Proof.
  intros Hk. unfold written.
  rewrite (splice_in_insert ring) by done.
  destruct (b && is_end _ k) eqn:E; simpl.
  - rewrite (store_insert _ (<[_:=_]> ring)) by (rewrite length_insert; lia).
    rewrite store_insert by (rewrite !length_insert; lia).
    unfold at_index, is_end.
    destruct (Z.ltb_spec j 0).
    { destruct (Z.eqb_spec j k); [lia|]. simpl.
      destruct (Z.eqb_spec j 0); [lia|].
      destruct (Z.eqb_spec j (Z.of_nat (length ring) - 1)); [lia|]. done. }
    rewrite !list_lookup_insert, !length_insert.
    destruct (Z.eqb_spec j k), (Z.eqb_spec j 0),
      (Z.eqb_spec j (Z.of_nat (length ring) - 1)); simpl;
      repeat case_decide; try done; try lia.
  - rewrite orb_false_r. unfold at_index.
    destruct (Z.ltb_spec j 0).
    { by destruct (Z.eqb_spec j k); [lia|]. }
    rewrite list_lookup_insert.
    destruct (Z.eqb_spec j k); case_decide; try done; lia.
Qed.
Lemma length_written (ring : list val) k pos b :
  0 <= k < Z.of_nat (length ring) ->
  length (if b && is_end (Z.of_nat (length ring)) k
          then store VUndef (store VUndef (splice_in ring k pos) 0 pos)
                 (Z.of_nat (length ring) - 1) pos
          else splice_in ring k pos) = length ring.
Proof.
  intros Hk. rewrite (splice_in_insert ring) by done.
  destruct (b && _); [|by rewrite length_insert].
  rewrite (store_insert _ (<[_:=_]> ring)) by (rewrite length_insert; lia).
  rewrite store_insert by (rewrite !length_insert; lia).
  by rewrite !length_insert.
Qed.

(** The slots of the ring a removal builds. *)
Lemma at_index_splice_out (ring : list val) k j :
  0 <= k -> 0 <= j ->
  at_index (splice_out ring k) j = at_index ring (if j <? k then j else j + 1).
Proof.
  intros Hk Hj. rewrite splice_out_delete, <- delete_take_drop by done.
  unfold at_index. destruct (Z.ltb_spec j 0); [lia|].
  destruct (Z.ltb_spec j k).
  - destruct (Z.ltb_spec j 0); [lia|].
    apply list_lookup_delete_lt. lia.
  - destruct (Z.ltb_spec (j + 1) 0); [lia|].
    rewrite list_lookup_delete_ge by lia. f_equal. lia.
Qed.

Lemma length_splice_out (ring : list val) k :
  0 <= k < Z.of_nat (length ring) ->
  Z.of_nat (length (splice_out ring k)) = Z.of_nat (length ring) - 1.
Proof.
  intros Hk. rewrite splice_out_delete, <- delete_take_drop by lia.
  pose proof (length_delete ring (Z.to_nat k)) as Hlen.
  destruct (lookup_lt_is_Some_2 ring (Z.to_nat k) ltac:(lia)) as [x Hx].
  rewrite Hx in Hlen. simpl in Hlen. specialize (Hlen ltac:(eauto)). lia.
Qed.

Lemma length_removed_ring (ring : list val) k b :
  0 <= k < Z.of_nat (length ring) ->
  b && (Z.of_nat (length ring) <? 5) = false ->
  Z.of_nat (length (if b && is_end (Z.of_nat (length ring)) k
                    then repaired (splice_out ring k)
                           (Z.of_nat (length ring)) k
                    else splice_out ring k)) = Z.of_nat (length ring) - 1.
Proof.
  intros Hk Hguard. pose proof (length_splice_out ring k Hk) as Hlen.
  destruct (b && is_end _ k) eqn:E; [|done].
  apply andb_true_iff in E as [-> _]. simpl in Hguard.
  apply Z.ltb_ge in Hguard. unfold repaired.
  destruct (k =? 0); [|destruct (k =? _ - 1); [|done]];
    rewrite store_insert by lia; by rewrite length_insert.
Qed.

Lemma at_index_origin (ring : list val) k b j :
  0 <= k < Z.of_nat (length ring) ->
  b && (Z.of_nat (length ring) <? 5) = false ->
  0 <= j < Z.of_nat (length ring) - 1 ->
  at_index (if b && is_end (Z.of_nat (length ring)) k
            then repaired (splice_out ring k) (Z.of_nat (length ring)) k
            else splice_out ring k) j =
  at_index ring (origin (Z.of_nat (length ring)) k b j).
Proof.
  intros Hk Hguard Hj. unfold origin.
  pose proof (length_splice_out ring k Hk) as Hlen.
  destruct (b && is_end _ k) eqn:E;
    [|by apply at_index_splice_out; lia].
  apply andb_true_iff in E as [-> Hend]. simpl in Hguard.
  apply Z.ltb_ge in Hguard. unfold repaired. rewrite Hlen.
  replace (Z.of_nat (length ring) - 1 - 1)
    with (Z.of_nat (length ring) - 2) by lia.
  assert (Hread : forall n, 0 <= n < Z.of_nat (length ring) - 1 ->
            Some (index (splice_out ring k) n) = at_index (splice_out ring k) n).
  { intros n Hn. unfold index.
    destruct (at_index (splice_out ring k) n) eqn:En; [done|].
    unfold at_index in En. destruct (Z.ltb_spec n 0); [lia|].
    apply lookup_ge_None in En. lia. }
  destruct (Z.eqb_spec k 0) as [->|Hk0].
  - rewrite store_insert by lia.
    unfold at_index at 1. destruct (Z.ltb_spec j 0); [lia|].
    rewrite list_lookup_insert by lia.
    destruct (Z.eqb_spec j (Z.of_nat (length ring) - 2)) as [->|Hne].
    + rewrite decide_True by (split; lia).
      rewrite Hread by lia. by apply at_index_splice_out.
    + rewrite decide_False by lia.
      pose proof (at_index_splice_out ring 0 j ltac:(lia) ltac:(lia)) as Hat.
      unfold at_index at 1 in Hat. destruct (Z.ltb_spec j 0); [lia|].
      exact Hat.
  - apply TreeFacts.is_end_spec in Hend as [?| ->]; [done|].
    rewrite (proj2 (Z.eqb_eq _ _)) by done.
    rewrite store_insert by lia.
    unfold at_index at 1. destruct (Z.ltb_spec j 0); [lia|].
    rewrite list_lookup_insert by lia.
    destruct (Z.eqb_spec j 0) as [->|Hne].
    + rewrite decide_True by (split; lia).
      rewrite Hread by lia. rewrite at_index_splice_out by lia.
      by destruct (Z.ltb_spec (Z.of_nat (length ring) - 2)
                     (Z.of_nat (length ring) - 1)); [|lia].
    + rewrite decide_False by lia.
      pose proof (at_index_splice_out ring (Z.of_nat (length ring) - 1) j
                    ltac:(lia) ltac:(lia)) as Hat.
      unfold at_index at 1 in Hat. destruct (Z.ltb_spec j 0); [lia|].
      rewrite Hat.
      by destruct (Z.ltb_spec j (Z.of_nat (length ring) - 1)); [|lia].
Qed.

Lemma repr_editor_mono h h' this T :
  extends h h' -> repr_editor h this T -> repr_editor h' this T.
Proof.
  intros Hext (fc & fs & rest & elems & Hthis & Hfc & Hfs & Hall & Hrest).
  exists fc, fs, rest, elems.
  split; [by apply Hext|]. split; [by apply Hext|]. split; [by apply Hext|].
  split; [|by eapply repr_fields_mono].
  eapply Forall2_impl; [exact Hall|]. intros v f. by apply repr_feature_mono.
Qed.

(** X11. [replacePosition] copies the arrays on the path and nothing else.
    On a store that holds a target feature, for a path that ends at the
    index [k] of an array [ring] of its coordinates: the call returns a new
    editor; going down the path, each array of the new coordinates is a new
    object, as long as the original one, and holds at every index off the
    path the very value the original holds, so sibling rings and polygons
    are shared; the new ring is a new object as long as the original; its
    slot [k], and both of its ends when [k] is an end of a polygon ring,
    hold the reference [pos] that was passed, which is not copied; every
    other slot holds what the original ring holds there. *)
Theorem replace_copies_the_path_only h this i prefix k pos
    fc fs rest elems fl g frest ty c grest l ring :
  targets h this i fc fs rest elems fl g frest ty c grest ->
  descend h c prefix = Some (VRef l) ->
  h !! l = Some (OArray ring) ->
  0 <= k < Z.of_nat (length ring) ->
  exists this' h' fc' fs' elems' fl' g' c' l' ring',
    replacePosition this i (Some (prefix ++ [k])) pos h = (Ok this', h') /\
    targets h' this' i fc' fs' rest elems' fl' g' frest ty c' grest /\
    copied_along (length h) h h' c c' prefix /\
    descend h' c' prefix = Some (VRef l') /\
    h' !! l' = Some (OArray ring') /\
    (length h <= l')%nat /\
    length ring' = length ring /\
    forall j, at_index ring' j =
              if written (Z.of_nat (length ring)) k (polygonal ty) j
              then Some pos else at_index ring j.
Proof.
  intros Ht Hd Hl Hk.
  destruct (replace_at_copies h prefix k pos (polygonal ty) c l ring Hd Hl)
    as (c' & h1 & l' & Hrun & Hext & Hlen & Hcopy & Hd' & Hfresh & Hl').
  pose proof (targets_index _ _ _ _ _ _ _ _ _ _ _ _ _ Ht) as Hi.
  assert (Hext' : extends h1 (rebuilt h1 i rest elems frest ty c' grest)).
  { intros a o. apply rebuilt_old. }
  eexists _, _, _, _, _, _, _, c', l', _.
  split; [by eapply (replacePosition_run h this i (Some _))|].
  split; [by eapply targets_rebuilt|].
  split; [by eapply copied_along_mono|].
  split; [by eapply descend_mono|].
  split; [by apply Hext'|]. split; [done|].
  split; [by apply length_written|].
  intros j. by apply at_index_written.
Qed.

(** An instance: the first position of the ring of [example_heap] is given
    the position object at address 2; the new ring holds that object at
    both ends. *)
Lemma replace_copies_the_path_only_example :
  exists this' h' fc' fs' elems' fl' g' c' l' ring',
    replacePosition 12 0 (Some ([0] ++ [0])) (VRef 2) example_heap
    = (Ok this', h') /\
    targets h' this' 0 fc' fs' [("type", FStr "FeatureCollection")] elems'
      fl' g' [("type", FStr "Feature")] "Polygon" c' [] /\
    copied_along (length example_heap) example_heap h' (VRef 4) c' [0] /\
    descend h' c' [0] = Some (VRef l') /\
    h' !! l' = Some (OArray ring') /\
    (length example_heap <= l')%nat /\
    length ring' = length [VRef 0; VRef 1; VRef 2; VRef 0] /\
    forall j, at_index ring' j =
              if written 4 0 (polygonal "Polygon") j
              then Some (VRef 2)
              else at_index [VRef 0; VRef 1; VRef 2; VRef 0] j.
Proof.
  apply (replace_copies_the_path_only example_heap 12 0 [0] 0 (VRef 2)
           11 10 [("type", FStr "FeatureCollection")]
           [VRef 6; VRef 9] 6 5 [("type", FStr "Feature")] "Polygon"
           (VRef 4) [] 3 [VRef 0; VRef 1; VRef 2; VRef 0]).
  - constructor; reflexivity.
  - reflexivity.
  - reflexivity.
  - simpl. lia.
Defined.

(** X12. [removePosition] copies the arrays on the path and no position.
    On a store that holds a target feature, for a path that ends at an
    index [k] of an array [ring] of its coordinates, of at least 5
    positions if the feature is a polygon: the call returns a new editor;
    the new [features] array is as long as the original and holds at every
    index other than [i] the very reference the original holds; going down
    the path, each array of the new coordinates is a new object that shares
    with the original what lies off the path; the new ring is a new object,
    one slot shorter, and each of its slots holds what a slot of the
    original ring holds: after the removal of an end of a polygon ring, the
    two ends of the new ring hold one and the same reference. *)
Theorem remove_copies_the_path_only h this i prefix k
    fc fs rest elems fl g frest ty c grest l ring :
  targets h this i fc fs rest elems fl g frest ty c grest ->
  descend h c prefix = Some (VRef l) ->
  h !! l = Some (OArray ring) ->
  0 <= k < Z.of_nat (length ring) ->
  (polygonal ty = true -> 5 <= Z.of_nat (length ring)) ->
  exists this' h' fc' fs' elems' fl' g' c' l' ring',
    removePosition this i (Some (prefix ++ [k])) h = (Ok this', h') /\
    targets h' this' i fc' fs' rest elems' fl' g' frest ty c' grest /\
    length elems' = length elems /\
    (forall j, j <> i -> at_index elems' j = at_index elems j) /\
    copied_along (length h) h h' c c' prefix /\
    descend h' c' prefix = Some (VRef l') /\
    h' !! l' = Some (OArray ring') /\
    (length h <= l')%nat /\
    Z.of_nat (length ring') = Z.of_nat (length ring) - 1 /\
    forall j, 0 <= j < Z.of_nat (length ring) - 1 ->
      at_index ring' j =
      at_index ring (origin (Z.of_nat (length ring)) k (polygonal ty) j).
Proof.
  intros Ht Hd Hl Hk Hpoly.
  assert (Hguard : polygonal ty && (Z.of_nat (length ring) <? 5) = false).
  { destruct (polygonal ty); [|done]. simpl. apply Z.ltb_ge. auto. }
  destruct (remove_at_copies h prefix k (polygonal ty) c l ring Hd Hl Hguard)
    as (c' & h1 & l' & Hrun & Hext & Hlen & Hcopy & Hd' & Hfresh & Hl').
  pose proof (targets_index _ _ _ _ _ _ _ _ _ _ _ _ _ Ht) as Hi.
  assert (Hext' : extends h1 (rebuilt h1 i rest elems frest ty c' grest)).
  { intros a o. apply rebuilt_old. }
  eexists _, _, _, _, _, _, _, c', l', _.
  split; [by eapply (removePosition_run h this i (Some _))|].
  split; [by eapply targets_rebuilt|].
  split; [apply length_splice_in; eauto using at_index_lt|].
  split; [intros j Hj; apply at_index_splice_in_ne; eauto using at_index_lt|].
  split; [by eapply copied_along_mono|].
  split; [by eapply descend_mono|].
  split; [by apply Hext'|]. split; [done|].
  split; [by apply length_removed_ring|].
  intros j Hj. by apply at_index_origin.
Qed.

(** An instance: the middle position of a LineString of three. *)
Lemma remove_copies_the_path_only_example :
  exists this' h' fc' fs' elems' fl' g' c' l' ring',
    removePosition 8 0 (Some ([] ++ [1])) example_line_heap = (Ok this', h') /\
    targets h' this' 0 fc' fs' [] elems' fl' g' [] "LineString" c' [] /\
    length elems' = length [VRef 5] /\
    (forall j, j <> 0 -> at_index elems' j = at_index [VRef 5] j) /\
    copied_along (length example_line_heap) example_line_heap h'
      (VRef 3) c' [] /\
    descend h' c' [] = Some (VRef l') /\
    h' !! l' = Some (OArray ring') /\
    (length example_line_heap <= l')%nat /\
    Z.of_nat (length ring') = 3 - 1 /\
    forall j, 0 <= j < 3 - 1 ->
      at_index ring' j =
      at_index [VRef 0; VRef 1; VRef 2]
        (origin 3 1 (polygonal "LineString") j).
Proof.
  apply (remove_copies_the_path_only example_line_heap 8 0 [] 1
           7 6 [] [VRef 5] 5 4 [] "LineString" (VRef 3) [] 3
           [VRef 0; VRef 1; VRef 2]).
  - constructor; reflexivity.
  - reflexivity.
  - reflexivity.
  - simpl. lia.
  - intros H. discriminate H.
Defined.

(** X13. [replacePosition] is a function of the values the store holds:
    run on a store in which the receiver stands for the collection [T] and
    [pos] for the position [p], it ends as the function on values does on
    [T] and [p], with the same exception or with an editor that stands for
    the collection computed on values; and when it has ended the receiver
    still stands for [T] and [pos] for [p], also where parts of [T] were
    one object in the store. *)
Theorem replacePosition_follows_the_values h this T i path pos p :
  repr_editor h this T -> repr h pos p ->
  exists r h',
    replacePosition this i path pos h = (r, h') /\
    repr_editor h' this T /\ repr h' pos p /\
    match Tree.replacePosition T i path p with
    | Ok T' => exists this', r = Ok this' /\ repr_editor h' this' T'
    | Throw e => r = Throw e
    end.
Proof.
  intros HT Hp.
  destruct (replacePosition_refines h this T i path pos p HT Hp)
    as (r & h' & Hrun & Hext & Href).
  exists r, h'. split; [done|].
  split; [by eapply repr_editor_mono|]. split; [by eapply repr_mono|].
  exact Href.
Qed.

Lemma replacePosition_follows_the_values_example :
  exists r h',
    replacePosition 12 0 (Some [0; 0]) (VRef 2) example_heap = (r, h') /\
    repr_editor h' 12 example_tree /\ repr h' (VRef 2) (Tree.pt 1 1) /\
    match Tree.replacePosition example_tree 0 (Some [0; 0]) (Tree.pt 1 1) with
    | Ok T' => exists this', r = Ok this' /\ repr_editor h' this' T'
    | Throw e => r = Throw e
    end.
Proof.
  apply (replacePosition_follows_the_values example_heap 12 example_tree 0
           (Some [0; 0]) (VRef 2) (Tree.pt 1 1)).
  - exact example_heap_stands_for_a_tree.
  - econstructor; [reflexivity|]. repeat constructor.
Defined.

(** X14. [removePosition] is a function of the values the store holds: run
    on a store in which the receiver stands for the collection [T], it
    ends as the function on values does on [T], with the same exception or
    with an editor that stands for the collection computed on values; and
    when it has ended the receiver still stands for [T]. *)
Theorem removePosition_follows_the_values h this T i path :
  repr_editor h this T ->
  exists r h',
    removePosition this i path h = (r, h') /\
    repr_editor h' this T /\
    match Tree.removePosition T i path with
    | Ok T' => exists this', r = Ok this' /\ repr_editor h' this' T'
    | Throw e => r = Throw e
    end.
Proof.
  intros HT.
  destruct (removePosition_refines h this T i path HT)
    as (r & h' & Hrun & Hext & Href).
  exists r, h'. split; [done|]. split; [by eapply repr_editor_mono|].
  exact Href.
Qed.

Lemma removePosition_follows_the_values_example :
  exists r h',
    removePosition 12 0 (Some [0; 0]) example_heap = (r, h') /\
    repr_editor h' 12 example_tree /\
    match Tree.removePosition example_tree 0 (Some [0; 0]) with
    | Ok T' => exists this', r = Ok this' /\ repr_editor h' this' T'
    | Throw e => r = Throw e
    end.
Proof.
  apply (removePosition_follows_the_values example_heap 12 example_tree 0
           (Some [0; 0])).
  exact example_heap_stands_for_a_tree.
Defined.

End HeapEdits.

(** * Facts about the pointer gestures *)

Module LayerFacts.
Import Layer.

Section layer_facts.
Context {Ground Pick : Type}.
Implicit Types (w : @World Ground Pick) (context : @LayerContext Ground Pick).
Implicit Types (s : @EditableLayerState Ground Pick).

Ltac exec :=
  cbv [mbind L_bind mret L_ret getState setState call lift];
  cbn [state canvas bound pointerHandlers pointerDownPicks
       pointerDownScreenCoords pointerDownGroundCoords isDragging
       negb movedEnoughForDrag app].

Ltac exec_to_moved :=
  cbv [mbind L_bind mret L_ret getState];
  cbn [state canvas bound pointerHandlers pointerDownPicks
       pointerDownScreenCoords pointerDownGroundCoords isDragging negb].

Lemma L_bind_ok {A B} (m : @L Ground Pick A) (f : A -> @L Ground Pick B) w a w' calls :
  m w = (Ok a, w', calls) ->
  (m ≫= f) w = let '(r, w'', calls') := f a w' in (r, w'', calls ++ calls').
Proof. unfold mbind, L_bind. by intros ->. Qed.

Lemma L_ret_bind {B} (f : unit -> @L Ground Pick B) w : (mret () ≫= f) w = f () w.
Proof.
  unfold mbind, L_bind, mret, L_ret. by destruct (f () w) as [[r w'] calls].
Qed.

Lemma follow_all_app open (calls calls' : list (@Call Ground Pick)) open' :
  follow_all open calls = Some open' ->
  follow_all open (calls ++ calls') = follow_all open' calls'.
Proof.
  revert open. induction calls as [|c calls IH]; intros open; simpl.
  - by intros [= ->].
  - destruct (follow open c) as [o|]; simpl; [apply IH | done].
Qed.

Lemma keeps_ret base : keeps (Ground:=Ground) (Pick:=Pick) base (mret ()).
Proof. intros w Hw. by exists w, []. Qed.

Lemma keeps_bind base (m : @L Ground Pick unit) (f : unit -> @L Ground Pick unit) :
  keeps base m -> keeps base (f ()) -> keeps base (m ≫= f).
Proof.
  intros Hm Hf w Hw.
  destruct (Hm w Hw) as (w1 & c1 & Hrun1 & Hw1 & Hwf1 & Ho1).
  destruct (Hf w1 Hw1) as (w2 & c2 & Hrun2 & Hw2 & Hwf2 & Ho2).
  exists w2, (c1 ++ c2). rewrite (L_bind_ok _ _ _ _ _ _ Hrun1), Hrun2.
  split; [done|]. split; [done|]. split; [by apply Forall_app|].
  by rewrite (follow_all_app _ _ _ _ Ho1).
Qed.

Lemma keeps_onDoubleClick base context event :
  keeps base (_onDoubleClick context event).
Proof.
  intros w Hw. eexists w, [_]. split; [reflexivity|]. split; [done|].
  split; [by repeat constructor|]. done.
Qed.

Lemma keeps_onPointerDown base context event :
  keeps base (_onPointerDown context event).
Proof.
  intros [[hs picks screen ground dragging] cv n] (Hf & Hco & Hh).
  eexists _, [_]. split; [reflexivity|].
  split; [|split; [by repeat constructor | done]].
  split; [done|]. split; [|exact Hh].
  unfold coherent. simpl. split; [eauto|]. split; [eauto|]. done.
Qed.

Lemma keeps_onPointerMove base context event :
  keeps base (_onPointerMove context event).
Proof.
  intros [[hs picks screen ground dragging] cv n] (Hf & Hco & Hh).
  unfold coherent in Hco. simpl in Hco, Hh.
  unfold _onPointerMove, open_drag.
  destruct screen as [screen|]; simpl in Hco.
  - destruct Hco as ([ps ->] & [g ->] & Hdrag).
    destruct ps as [|p ps], dragging; exec.
    + exfalso. by apply Hdrag.
    + eexists _, [_]. split; [reflexivity|]. split; [done|].
      split; [by repeat constructor|]. done.
    + eexists _, [_]. split; [reflexivity|]. split; [done|].
      split; [|done]. constructor; [|constructor].
      simpl. intros _. eauto 10.
    + destruct (_ || _) eqn:Hmoved.
      * eexists _, [_; _]. split; [reflexivity|].
      split; [split; [done|]; split; [|exact Hh];
              unfold coherent; simpl; eauto|].
      split; [repeat constructor; simpl; eauto|]. done.
      * eexists _, [_]. split; [reflexivity|]. split; [done|].
      split; [by repeat constructor|]. done.
  - destruct Hco as (-> & -> & ->). simpl.
    eexists _, [_]. split; [reflexivity|]. split; [done|].
    split; [by repeat constructor|]. done.
Qed.

Lemma keeps_onPointerUp base context event :
  keeps base (_onPointerUp context event).
Proof.
  intros [[hs picks screen ground dragging] cv n] (Hf & Hco & Hh).
  unfold coherent in Hco. simpl in Hco, Hh.
  unfold _onPointerUp, open_drag.
  destruct screen as [screen|]; simpl in Hco.
  - destruct Hco as ([ps ->] & [g ->] & Hdrag).
    destruct dragging; exec.
    + eexists _, [_; _]. split; [reflexivity|].
      split; [by split; [|split]|].
      split; [|by simpl; rewrite bool_decide_eq_true_2].
      constructor; [|by repeat constructor].
      simpl. split; [|by eauto]. destruct ps as [|p ps]; [|by eauto].
      exfalso. by apply Hdrag.
    + destruct (_ || _) eqn:Hmoved; cbn [negb].
      * eexists _, [_]. split; [reflexivity|].
        split; [by split; [|split]|]. split; [by repeat constructor|]. done.
      * eexists _, [_; _]. split; [reflexivity|].
        split; [by split; [|split]|]. split; [|done].
        constructor; [simpl; eauto | by repeat constructor].
  - destruct Hco as (-> & -> & ->). exec.
    eexists _, []. split; [reflexivity|]. split; [done|]. by split.
Qed.

Lemma keeps_invoke base f context event : keeps base (invoke f context event).
Proof.
  destruct f as [[] id|id]; simpl.
  - apply keeps_onPointerMove.
  - apply keeps_onPointerDown.
  - apply keeps_onPointerUp.
  - apply keeps_onDoubleClick.
  - apply keeps_ret.
Qed.

Lemma keeps_invoke_all base listeners type context event :
  keeps base (invoke_all listeners type context event).
Proof.
  induction listeners as [|[ty f] rest IH]; [apply keeps_ret|].
  simpl. apply keeps_bind; [|exact IH].
  destruct (bool_decide _); [apply keeps_invoke | apply keeps_ret].
Qed.

Lemma keeps_dispatchEvent base type context event :
  keeps base (dispatchEvent type context event).
Proof. intros w Hw. by apply keeps_invoke_all. Qed.

(** ** The listeners *)

Lemma without_foreign base type m id rest :
  foreign base ->
  without type (Bound m id) (base ++ rest) =
  base ++ without type (Bound m id) rest.
Proof.
  intros Hf. induction Hf as [|[ty f] base Hl _ IH]; [done|].
  simpl. rewrite bool_decide_eq_false_2.
  - by rewrite IH.
  - intros [= -> ->]. done.
Qed.

Lemma not_elem_of_foreign base type m id :
  foreign base -> (type, Bound m id) ∉ base.
Proof.
  intros Hf Hin. unfold foreign in Hf. rewrite Forall_forall in Hf.
  by apply Hf in Hin.
Qed.

Lemma removePointerHandlers_run base w :
  sound base w ->
  _removePointerHandlers w =
  (Ok (),
   {| state := {| pointerHandlers := None;
                  pointerDownPicks := pointerDownPicks (state w);
                  pointerDownScreenCoords := pointerDownScreenCoords (state w);
                  pointerDownGroundCoords := pointerDownGroundCoords (state w);
                  isDragging := isDragging (state w) |};
      canvas := base;
      bound := bound w |}, []).
Proof.
  destruct w as [[hs picks screen ground dragging] cv n].
  intros (Hf & Hco & Hh). simpl in Hh.
  unfold _removePointerHandlers, assign_pointerHandlers, pointerHandler,
    removeEventListener.
  destruct hs as [h|]; exec; [|by subst cv].
  destruct Hh as [(a & b & c & d & -> & _) ->]. simpl.
  rewrite !without_foreign by done.
  repeat (simpl; rewrite bool_decide_eq_true_2 by done).
  by rewrite app_nil_r.
Qed.

Lemma addPointerHandlers_run base s n :
  foreign base ->
  _addPointerHandlers {| state := s; canvas := base; bound := n |} =
  let h := {| onPointerMove := Bound M_onPointerMove n;
              onPointerDown := Bound M_onPointerDown (S n);
              onPointerUp := Bound M_onPointerUp (S (S n));
              onDoubleClick := Bound M_onDoubleClick (S (S (S n))) |} in
  (Ok (),
   {| state := {| pointerHandlers := Some h;
                  pointerDownPicks := pointerDownPicks s;
                  pointerDownScreenCoords := pointerDownScreenCoords s;
                  pointerDownGroundCoords := pointerDownGroundCoords s;
                  isDragging := isDragging s |};
      canvas := base ++ own h;
      bound := S (S (S (S n))) |}, []).
Proof.
  intros Hf.
  assert (Hnew : forall type m id rest,
            Forall (fun l => l.1 <> type) rest ->
            bool_decide ((type, Bound m id) ∈ base ++ rest) = false).
  { intros type m id rest Hrest. apply bool_decide_eq_false_2.
    rewrite elem_of_app. intros [Hin|Hin].
    - by eapply not_elem_of_foreign.
    - rewrite Forall_forall in Hrest. by apply Hrest in Hin. }
  unfold _addPointerHandlers, assign_pointerHandlers, pointerHandler,
    addEventListener, bind.
  exec. cbn [onPointerMove onPointerDown onPointerUp onDoubleClick].
  rewrite (bool_decide_eq_false_2 (_ ∈ base))
    by (by apply not_elem_of_foreign).
  rewrite (Hnew "pointerdown") by (by repeat constructor).
  rewrite <- ?(assoc_L (++)). cbn [app].
  rewrite (Hnew "pointerup") by (by repeat constructor).
  rewrite <- ?(assoc_L (++)). cbn [app].
  rewrite (Hnew "dblclick") by (by repeat constructor).
  rewrite <- ?(assoc_L (++)). cbn [app].
  reflexivity.
Qed.

Lemma updateState_run base w :
  sound base w ->
  updateState w =
  let h := {| onPointerMove := Bound M_onPointerMove (bound w);
              onPointerDown := Bound M_onPointerDown (S (bound w));
              onPointerUp := Bound M_onPointerUp (S (S (bound w)));
              onDoubleClick := Bound M_onDoubleClick (S (S (S (bound w)))) |} in
  (Ok (),
   {| state := {| pointerHandlers := Some h;
                  pointerDownPicks := pointerDownPicks (state w);
                  pointerDownScreenCoords := pointerDownScreenCoords (state w);
                  pointerDownGroundCoords := pointerDownGroundCoords (state w);
                  isDragging := isDragging (state w) |};
      canvas := base ++ own h;
      bound := S (S (S (S (bound w)))) |}, []).
Proof.
  intros Hw. pose proof Hw as (Hf & _). unfold updateState.
  rewrite (L_bind_ok _ _ _ _ _ _ (removePointerHandlers_run base w Hw)).
  by rewrite addPointerHandlers_run by done.
Qed.

Lemma keeps_updateState base :
  keeps (Ground:=Ground) (Pick:=Pick) base updateState.
Proof.
  intros w Hw. pose proof Hw as (Hf & Hco & Hh).
  rewrite (updateState_run base w Hw). cbv zeta.
  eexists _, []. split; [reflexivity|]. split; [|by split].
  split; [done|]. split; [exact Hco|]. simpl. split; [|done].
  eexists _, _, _, _. split; [reflexivity|]. lia.
Qed.

Lemma keeps_finalizeState base :
  keeps (Ground:=Ground) (Pick:=Pick) base finalizeState.
Proof.
  intros w Hw. pose proof Hw as (Hf & Hco & Hh).
  unfold finalizeState. rewrite (removePointerHandlers_run base w Hw).
  eexists _, []. split; [reflexivity|]. split; [|by split].
  split; [done|]. split; [exact Hco|]. done.
Qed.

Lemma keeps_step base (i : @Input Ground Pick) : keeps base (step i).
Proof.
  destruct i; simpl.
  - apply keeps_updateState.
  - apply keeps_finalizeState.
  - apply keeps_dispatchEvent.
Qed.

Lemma keeps_run base (inputs : list (@Input Ground Pick)) :
  keeps base (run inputs).
Proof.
  induction inputs as [|i rest IH]; simpl; [apply keeps_ret|].
  apply keeps_bind; [apply keeps_step | exact IH].
Qed.

Lemma sound_initializeState w :
  foreign (canvas w) ->
  exists w',
    initializeState w = (Ok (), w', []) /\ sound (canvas w) w' /\
    open_drag (state w') = None.
Proof.
  intros Hf. eexists. split; [reflexivity|]. split; [|done].
  split; [done|]. by split.
Qed.

Lemma run_app (inputs inputs' : list (@Input Ground Pick)) w :
  run (inputs ++ inputs') w = (run inputs ≫= fun _ => run inputs') w.
Proof.
  revert w. induction inputs as [|i rest IH]; intros w; simpl.
  - by rewrite L_ret_bind.
  - unfold mbind, L_bind. destruct (step i w) as [[[[]|e] w1] c1]; [|done].
    rewrite IH. unfold mbind, L_bind.
    destruct (run rest w1) as [[[[]|e] w2] c2]; [|done].
    destruct (run inputs' w2) as [[r w3] c3]. by rewrite (assoc_L (++)).
Qed.

(** What a run from the initial state comes to. *)
Lemma initialized_run w0 (inputs : list (@Input Ground Pick)) :
  foreign (canvas w0) ->
  exists w calls,
    (initializeState ≫= fun _ => run inputs) w0 = (Ok (), w, calls) /\
    sound (canvas w0) w /\ Forall well_formed calls /\
    follow_all None calls = Some (open_drag (state w)).
Proof.
  intros Hf.
  destruct (sound_initializeState w0 Hf) as (w1 & Hrun1 & Hw1 & Ho1).
  destruct (keeps_run (canvas w0) inputs w1 Hw1)
    as (w & calls & Hrun & Hw & Hwf & Ho).
  exists w, calls. rewrite (L_bind_ok _ _ _ _ _ _ Hrun1), Hrun.
  rewrite Ho1 in Ho. done.
Qed.

(** X15. An initialised layer never throws: whatever updates, events of
    the canvas and finalisations follow, in whatever order, every method
    returns; and the records of the pointer-down stay coherent: the picks,
    the screen position and the ground position are set together and
    cleared together, and the layer is dragging only after a pointer-down
    that picked something. *)
Theorem initialized_layer_never_throws w0 (inputs : list (@Input Ground Pick)) :
  foreign (canvas w0) ->
  exists w calls,
    (initializeState ≫= fun _ => run inputs) w0 = (Ok (), w, calls) /\
    coherent (state w).
Proof.
  intros Hf.
  destruct (initialized_run w0 inputs Hf) as (w & calls & Hrun & Hw & _).
  exists w, calls. split; [done|]. apply Hw.
Qed.

(** X16. The layer registers its listeners once and takes them all off:
    after an update, however many updates, events and finalisations came
    before, the canvas holds the listeners it had when the layer was
    initialised and after them four more, one for each of pointermove,
    pointerdown, pointerup and dblclick, bound to the method of that name;
    after a finalisation it holds the listeners it had when the layer was
    initialised and no other. *)
Theorem listeners_are_registered_once w0 (inputs : list (@Input Ground Pick)) :
  foreign (canvas w0) ->
  (exists w calls h,
     (initializeState ≫= fun _ => run (inputs ++ [Update])) w0
     = (Ok (), w, calls) /\
     pointerHandlers (state w) = Some h /\ installed (bound w) h /\
     canvas w = canvas w0 ++ own h) /\
  (exists w calls,
     (initializeState ≫= fun _ => run (inputs ++ [Finalize])) w0
     = (Ok (), w, calls) /\
     pointerHandlers (state w) = None /\ canvas w = canvas w0).
Proof.
  intros Hf.
  destruct (sound_initializeState w0 Hf) as (w1 & Hrun1 & Hw1 & _).
  destruct (keeps_run (canvas w0) inputs w1 Hw1)
    as (w2 & calls & Hrun & Hw2 & _).
  pose proof Hw2 as (_ & Hco & _).
  split.
  - eexists _, calls, _.
    rewrite (L_bind_ok _ _ _ _ _ _ Hrun1), run_app.
    rewrite (L_bind_ok _ _ _ _ _ _ Hrun). simpl.
    rewrite (L_bind_ok _ _ _ _ _ _ (updateState_run (canvas w0) w2 Hw2)).
    unfold mret, L_ret. cbn [app]. rewrite !app_nil_r.
    split; [reflexivity|]. split; [reflexivity|]. split; [|reflexivity].
    eexists _, _, _, _. split; [reflexivity|]. simpl. lia.
  - eexists _, calls.
    rewrite (L_bind_ok _ _ _ _ _ _ Hrun1), run_app.
    rewrite (L_bind_ok _ _ _ _ _ _ Hrun). simpl. unfold finalizeState.
    rewrite (L_bind_ok _ _ _ _ _ _
               (removePointerHandlers_run (canvas w0) w2 Hw2)).
    unfold mret, L_ret. cbn [app]. rewrite !app_nil_r. done.
Qed.

(** X17. The handlers are called with what the types of their events
    promise: in every run of an initialised layer, [onClick] is given picks
    that are an array, [onStartDragging] and [onStopDragging] are given
    picks that are not empty and the screen and ground positions where the
    drag started, and so is [onPointerMove] whenever it is told that the
    pointer is dragging. *)
Theorem handlers_get_what_their_types_promise w0
    (inputs : list (@Input Ground Pick)) :
  foreign (canvas w0) ->
  exists w calls,
    (initializeState ≫= fun _ => run inputs) w0 = (Ok (), w, calls) /\
    Forall well_formed calls.
Proof.
  intros Hf.
  destruct (initialized_run w0 inputs Hf) as (w & calls & Hrun & _ & Hwf & _).
  by exists w, calls.
Qed.

(** X18. The calls of every run of an initialised layer come in order:
    [onStartDragging] only when no drag is open; [onStopDragging] only for
    the open drag, with the screen position it started from, and it closes
    it; [onClick] and [onPointerUp] only when no drag is open;
    [onPointerMove] with [isDragging] set exactly when a drag is open.  A
    pointer-down closes an open drag for which no [onStopDragging] is
    called.  When the run ends, the drag the calls leave open is the one
    the state records. *)
Theorem calls_come_in_order w0 (inputs : list (@Input Ground Pick)) :
  foreign (canvas w0) ->
  exists w calls,
    (initializeState ≫= fun _ => run inputs) w0 = (Ok (), w, calls) /\
    follow_all None calls = Some (open_drag (state w)).
Proof.
  intros Hf.
  destruct (initialized_run w0 inputs Hf) as (w & calls & Hrun & _ & _ & Ho).
  by exists w, calls.
Qed.

(** ** What an event of the canvas runs *)

Lemma L_bind_ret (m : @L Ground Pick unit) w : (m ≫= fun _ => mret ()) w = m w.
Proof.
  unfold mbind, L_bind, mret, L_ret.
  destruct (m w) as [[[[]|e] w'] calls]; [|done]. by rewrite app_nil_r.
Qed.

Lemma invoke_all_foreign base rest type context event w :
  foreign base ->
  invoke_all (base ++ rest) type context event w =
  invoke_all rest type context event w.
Proof.
  intros Hf. induction Hf as [|[ty f] base Hl _ IH]; [done|].
  simpl in Hl. destruct f as [|id]; [done|]. cbn [app invoke_all invoke].
  destruct (bool_decide _); by rewrite L_ret_bind.
Qed.

Lemma invoke_all_here type f rest context event w :
  invoke_all ((type, f) :: rest) type context event w =
  (invoke f context event ≫= fun _ => invoke_all rest type context event) w.
Proof. cbn [invoke_all]. by rewrite bool_decide_eq_true_2. Qed.

Lemma invoke_all_skip ty type f rest context event w :
  ty <> type ->
  invoke_all ((ty, f) :: rest) type context event w =
  invoke_all rest type context event w.
Proof.
  intros Hne. cbn [invoke_all]. rewrite bool_decide_eq_false_2 by done.
  by rewrite L_ret_bind.
Qed.

(** With the handlers installed, an event of one of the four types runs
    the method of that type, once, and an event of another type runs
    nothing; with no handlers installed no event runs anything. *)
Lemma dispatch_installed base w h type context event :
  foreign base -> installed (bound w) h -> canvas w = base ++ own h ->
  dispatchEvent type context event w =
  if bool_decide (type = "pointermove") then _onPointerMove context event w
  else if bool_decide (type = "pointerdown") then _onPointerDown context event w
  else if bool_decide (type = "pointerup") then _onPointerUp context event w
  else if bool_decide (type = "dblclick") then _onDoubleClick context event w
  else (Ok (), w, []).
Proof.
  intros Hf (a & b & c & d & -> & _) Hcv. unfold dispatchEvent.
  rewrite Hcv, invoke_all_foreign by done. unfold own.
  cbn [onPointerMove onPointerDown onPointerUp onDoubleClick].
  repeat case_bool_decide; subst;
    repeat first
      [ rewrite invoke_all_here; cbn [invoke]
      | rewrite invoke_all_skip by done
      | rewrite L_bind_ret ];
    try done.
Qed.

Lemma dispatch_not_installed base w type context event :
  foreign base -> canvas w = base ->
  dispatchEvent type context event w = (Ok (), w, []).
Proof.
  intros Hf Hcv. unfold dispatchEvent.
  rewrite Hcv, <- (app_nil_r base), invoke_all_foreign by done. done.
Qed.

(** ** The methods on the records of the pointer-down *)

Lemma onPointerDown_run context event w :
  _onPointerDown context event w =
  let start := getScreenCoords context event in
  let picks := pickObject context (start.1, start.2) 10 None in
  let ground := getGroundCoords context start in
  (Ok (), with_pointer w (Some picks) (Some start) (Some ground) false,
   [OnPointerDown start ground picks event]).
Proof. reflexivity. Qed.

Lemma onPointerMove_dragging w picks start ground m :
  _onPointerMove m.1 m.2
    (with_pointer w (Some picks) (Some start) (Some ground) true) =
  (Ok (), with_pointer w (Some picks) (Some start) (Some ground) true,
   [moved_call true (Some picks) (Some start) (Some ground) m]).
Proof. by destruct picks. Qed.

Lemma onPointerMove_near w picks start ground m :
  picks = [] \/ near start m ->
  _onPointerMove m.1 m.2
    (with_pointer w (Some picks) (Some start) (Some ground) false) =
  (Ok (), with_pointer w (Some picks) (Some start) (Some ground) false,
   [moved_call false (Some picks) (Some start) (Some ground) m]).
Proof.
  intros [->|Hnear]; [done|]. destruct picks as [|p ps]; [done|].
  unfold near in Hnear. unfold _onPointerMove, with_pointer. exec_to_moved.
  by rewrite Hnear.
Qed.

Lemma onPointerMove_far w picks start ground m :
  picks <> [] ->
  movedEnoughForDrag (Some start) (getScreenCoords m.1 m.2) = Ok true ->
  _onPointerMove m.1 m.2
    (with_pointer w (Some picks) (Some start) (Some ground) false) =
  (Ok (), with_pointer w (Some picks) (Some start) (Some ground) true,
   [OnStartDragging (Some picks) (getScreenCoords m.1 m.2)
      (getGroundCoords m.1 (getScreenCoords m.1 m.2))
      (Some start) (Some ground);
    moved_call true (Some picks) (Some start) (Some ground) m]).
Proof.
  intros Hpicks Hfar. destruct picks as [|p ps]; [done|].
  unfold _onPointerMove, with_pointer. exec_to_moved.
  by rewrite Hfar.
Qed.

Lemma onPointerUp_dragging w picks start ground context event :
  _onPointerUp context event
    (with_pointer w (Some picks) (Some start) (Some ground) true) =
  let stop := getScreenCoords context event in
  (Ok (), with_pointer w None None None false,
   [OnStopDragging (Some picks) stop (getGroundCoords context stop)
      (Some start) (Some ground);
    OnPointerUp stop (getGroundCoords context stop) event]).
Proof. reflexivity. Qed.

Lemma onPointerUp_not_dragging w picks start ground context event :
  _onPointerUp context event
    (with_pointer w (Some picks) (Some start) (Some ground) false) =
  let stop := getScreenCoords context event in
  (Ok (), with_pointer w None None None false,
   match movedEnoughForDrag (Some start) stop with
   | Ok false => [OnClick (Some picks) stop (getGroundCoords context stop)]
   | _ => []
   end ++ [OnPointerUp stop (getGroundCoords context stop) event]).
Proof.
  unfold _onPointerUp, with_pointer. exec. cbv zeta.
  cbn [movedEnoughForDrag]. by destruct (_ || _).
Qed.

Lemma onPointerUp_ignored w context event :
  pointerDownScreenCoords (state w) = None ->
  _onPointerUp context event w = (Ok (), w, []).
Proof.
  destruct w as [[hs picks screen ground dragging] cv n]. simpl.
  by intros ->.
Qed.

Lemma onPointerUp_clears w context event r w' calls :
  _onPointerUp context event w = (r, w', calls) ->
  pointerDownScreenCoords (state w') = None /\
  pointerHandlers (state w') = pointerHandlers (state w) /\
  canvas w' = canvas w /\ bound w' = bound w.
Proof.
  destruct w as [[hs picks [screen|] ground dragging] cv n];
    unfold _onPointerUp; exec; [|by intros [= <- <- <-]].
  destruct dragging; [by intros [= <- <- <-]|].
  destruct (_ || _); by intros [= <- <- <-].
Qed.

(** In a world with the handlers installed, whatever the records of the
    pointer-down. *)
Lemma dispatch_with_pointer base w h picks screen ground dragging
    context event :
  sound base w -> pointerHandlers (state w) = Some h ->
  let w' := with_pointer w picks screen ground dragging in
  dispatchEvent "pointermove" context event w' = _onPointerMove context event w'
  /\ dispatchEvent "pointerdown" context event w'
     = _onPointerDown context event w'
  /\ dispatchEvent "pointerup" context event w' = _onPointerUp context event w'.
Proof.
  intros (Hf & _ & Hh) Hhs. rewrite Hhs in Hh. destruct Hh as [Hin Hcv].
  intros w'.
  assert (Hd : forall type,
            dispatchEvent type context event w' = _) by
    (intros type; by apply (dispatch_installed base w' h)).
  by rewrite !Hd.
Qed.

Lemma run_cons (i : @Input Ground Pick) rest w w1 calls :
  step i w = (Ok (), w1, calls) ->
  run (i :: rest) w =
  let '(r, w', calls') := run rest w1 in (r, w', calls ++ calls').
Proof. intros Hstep. simpl. by rewrite (L_bind_ok _ _ _ _ _ _ Hstep). Qed.

Lemma run_moves base w h picks start ground dragging moves rest :
  sound base w -> pointerHandlers (state w) = Some h ->
  dragging = true \/ picks = [] \/ Forall (near start) moves ->
  run (map pointermove moves ++ rest)
    (with_pointer w (Some picks) (Some start) (Some ground) dragging) =
  let '(r, w', calls) :=
    run rest (with_pointer w (Some picks) (Some start) (Some ground) dragging)
  in (r, w',
      map (moved_call dragging (Some picks) (Some start) (Some ground)) moves
      ++ calls).
Proof.
  intros Hw Hh Hcase. induction moves as [|m moves IH].
  { simpl. by destruct (run rest _) as [[r w'] calls]. }
  cbn [map app].
  rewrite run_cons with
    (w1 := with_pointer w (Some picks) (Some start) (Some ground) dragging)
    (calls := [moved_call dragging (Some picks) (Some start) (Some ground) m]).
  - rewrite IH.
    + by destruct (run rest _) as [[r w'] calls].
    + destruct Hcase as [?|[?|Hall]]; auto.
      right. right. by inversion Hall.
  - unfold pointermove. cbn [step].
    destruct (dispatch_with_pointer base w h (Some picks) (Some start)
                (Some ground) dragging m.1 m.2 Hw Hh) as (-> & _).
    destruct Hcase as [->|Hcase]; [apply onPointerMove_dragging|].
    destruct dragging; [apply onPointerMove_dragging|].
    apply onPointerMove_near.
    destruct Hcase as [?|Hall]; [by left|]. right. by inversion Hall.
Qed.

(** The methods look at the records of the pointer-down only. *)
Lemma invoke_same_pointer f context event wa wb :
  same_pointer wa wb ->
  exists r calls wa' wb',
    invoke f context event wa = (r, wa', calls) /\
    invoke f context event wb = (r, wb', calls) /\
    same_pointer wa' wb' /\
    pointerHandlers (state wa') = pointerHandlers (state wa) /\
    pointerHandlers (state wb') = pointerHandlers (state wb).
Proof.
  destruct wa as [[ha picks screen ground dragging] ca na].
  destruct wb as [[hb picks' screen' ground' dragging'] cb nb].
  unfold same_pointer. simpl. intros (<- & <- & <- & <-).
  destruct f as [[] id|id]; cbn [invoke].
  - unfold _onPointerMove.
    destruct picks as [[|p ps]|], screen as [screen|], dragging; exec;
      try destruct (_ || _);
      eexists _, _, _, _; (split; [reflexivity|]); (split; [reflexivity|]);
      done.
  - eexists _, _, _, _. split; [reflexivity|]. split; [reflexivity|]. done.
  - unfold _onPointerUp.
    destruct screen as [screen|], dragging; exec;
      try destruct (_ || _);
      eexists _, _, _, _; (split; [reflexivity|]); (split; [reflexivity|]);
      done.
  - eexists _, _, _, _. split; [reflexivity|]. split; [reflexivity|]. done.
  - eexists _, _, _, _. split; [reflexivity|]. split; [reflexivity|]. done.
Qed.

Lemma dispatch_same_pointer base type context event wa wb :
  sound base wa -> sound base wb ->
  is_Some (pointerHandlers (state wa)) ->
  is_Some (pointerHandlers (state wb)) ->
  same_pointer wa wb ->
  exists calls wa' wb',
    dispatchEvent type context event wa = (Ok (), wa', calls) /\
    dispatchEvent type context event wb = (Ok (), wb', calls) /\
    sound base wa' /\ sound base wb' /\
    is_Some (pointerHandlers (state wa')) /\
    is_Some (pointerHandlers (state wb')) /\
    same_pointer wa' wb'.
Proof.
  intros Hwa Hwb [ha Hha] [hb Hhb] Hsame.
  destruct (keeps_dispatchEvent base type context event wa Hwa)
    as (wa' & calls & Hruna & Hwa' & _).
  destruct (keeps_dispatchEvent base type context event wb Hwb)
    as (wb' & calls' & Hrunb & Hwb' & _).
  pose proof Hwa as (Hf & _ & Hia). rewrite Hha in Hia.
  pose proof Hwb as (_ & _ & Hib). rewrite Hhb in Hib.
  rewrite (dispatch_installed base wa ha) in Hruna by tauto.
  rewrite (dispatch_installed base wb hb) in Hrunb by tauto.
  assert (Hinv : forall f,
            invoke f context event wa = (Ok (), wa', calls) ->
            invoke f context event wb = (Ok (), wb', calls') ->
            calls = calls' /\ same_pointer wa' wb' /\
            is_Some (pointerHandlers (state wa')) /\
            is_Some (pointerHandlers (state wb'))).
  { intros f Ha Hb.
    destruct (invoke_same_pointer f context event wa wb Hsame)
      as (r & cs & wa1 & wb1 & Ha1 & Hb1 & Hs1 & Hka & Hkb).
    rewrite Ha in Ha1. rewrite Hb in Hb1.
    injection Ha1 as <- <- <-. injection Hb1 as <- <-.
    rewrite Hka, Hkb, Hha, Hhb. eauto. }
  exists calls, wa', wb'.
  rewrite (dispatch_installed base wa ha), (dispatch_installed base wb hb)
    by tauto.
  repeat case_bool_decide.
  - destruct (Hinv (Bound M_onPointerMove 0) Hruna Hrunb) as (<- & ? & ? & ?).
    done.
  - destruct (Hinv (Bound M_onPointerDown 0) Hruna Hrunb) as (<- & ? & ? & ?).
    done.
  - destruct (Hinv (Bound M_onPointerUp 0) Hruna Hrunb) as (<- & ? & ? & ?).
    done.
  - destruct (Hinv (Bound M_onDoubleClick 0) Hruna Hrunb) as (<- & ? & ? & ?).
    done.
  - destruct (Hinv (Foreign 0) Hruna Hrunb) as (<- & ? & ? & ?). done.
Qed.

(** X19. A pointer-up that no pointer-down went before is ignored: in
    every run of an initialised layer, a pointerup event that follows a
    pointerup event makes no call and changes nothing. *)
Theorem second_pointerup_is_ignored w0 (inputs : list (@Input Ground Pick))
    context event context' event' :
  foreign (canvas w0) ->
  (initializeState ≫= fun _ =>
     run (inputs ++ [Dom "pointerup" context event;
                     Dom "pointerup" context' event'])) w0 =
  (initializeState ≫= fun _ =>
     run (inputs ++ [Dom "pointerup" context event])) w0.
Proof.
  intros Hf.
  destruct (sound_initializeState w0 Hf) as (w1 & Hrun1 & Hw1 & _).
  destruct (keeps_run (canvas w0) inputs w1 Hw1)
    as (w2 & calls & Hrun & Hw2 & _).
  rewrite !(L_bind_ok _ _ _ _ _ _ Hrun1), !run_app.
  rewrite !(L_bind_ok _ _ _ _ _ _ Hrun). f_equal.
  destruct (keeps_dispatchEvent (canvas w0) "pointerup" context event w2 Hw2)
    as (w3 & c3 & Hup & Hw3 & _).
  assert (Hup' : dispatchEvent "pointerup" context' event' w3 = (Ok (), w3, [])).
  { pose proof Hw2 as (_ & _ & Hh2). pose proof Hw3 as (_ & _ & Hh3).
    destruct (pointerHandlers (state w3)) as [h3|] eqn:Hh.
    - destruct Hh3 as [Hin3 Hcv3].
      rewrite (dispatch_installed (canvas w0) w3 h3) by done.
      rewrite !bool_decide_eq_false_2 by done.
      rewrite bool_decide_eq_true_2 by done.
      apply onPointerUp_ignored.
      destruct (pointerHandlers (state w2)) as [h2|] eqn:Hh'.
      + destruct Hh2 as [Hin2 Hcv2].
        rewrite (dispatch_installed (canvas w0) w2 h2) in Hup by done.
        rewrite !bool_decide_eq_false_2 in Hup by done.
        rewrite bool_decide_eq_true_2 in Hup by done.
        by apply onPointerUp_clears in Hup as (? & _).
      + rewrite (dispatch_not_installed (canvas w0)) in Hup by done.
        injection Hup as <- <-. by rewrite Hh' in Hh.
    - by apply (dispatch_not_installed (canvas w0)). }
  cbn [run step].
  rewrite !(L_bind_ok _ _ _ _ _ _ Hup), !(L_bind_ok _ _ _ _ _ _ Hup').
  done.
Qed.

(** X20. A press that does not become a drag.  With the handlers
    installed, a pointerdown, then pointermoves, then a pointerup: if the
    pointer went down on nothing, or if at every move it is within 7 pixels
    of where it went down, both across and down, no drag is started or
    stopped; each move is reported as not dragging; [onClick] is called,
    once and before [onPointerUp], exactly when the pointer is released
    within 7 pixels of where it went down; and the records of the
    pointer-down are cleared. *)
Theorem press_without_drag_is_a_click base w context event moves
    context' event' :
  sound base w -> is_Some (pointerHandlers (state w)) ->
  let start := getScreenCoords context event in
  let picks := pickObject context (start.1, start.2) 10 None in
  let ground := getGroundCoords context start in
  let stop := getScreenCoords context' event' in
  picks = [] \/ Forall (near start) moves ->
  run (Dom "pointerdown" context event :: map pointermove moves
       ++ [Dom "pointerup" context' event']) w =
  (Ok (), with_pointer w None None None false,
   OnPointerDown start ground picks event ::
   map (moved_call false (Some picks) (Some start) (Some ground)) moves ++
   match movedEnoughForDrag (Some start) stop with
   | Ok false => [OnClick (Some picks) stop (getGroundCoords context' stop)]
   | _ => []
   end ++ [OnPointerUp stop (getGroundCoords context' stop) event']).
Proof.
  intros Hw [h Hh] start picks ground stop Hcase.
  pose proof Hw as (Hf & _ & Hin). rewrite Hh in Hin. destruct Hin as [Hin Hcv].
  rewrite run_cons with
    (w1 := with_pointer w (Some picks) (Some start) (Some ground) false)
    (calls := [OnPointerDown start ground picks event]).
  2:{ cbn [step]. rewrite (dispatch_installed base w h) by done.
      rewrite bool_decide_eq_false_2 by done.
      rewrite bool_decide_eq_true_2 by done. apply onPointerDown_run. }
  rewrite (run_moves base w h) by auto.
  rewrite run_cons with
    (w1 := with_pointer w None None None false)
    (calls := match movedEnoughForDrag (Some start) stop with
              | Ok false =>
                [OnClick (Some picks) stop (getGroundCoords context' stop)]
              | _ => []
              end ++ [OnPointerUp stop (getGroundCoords context' stop) event']).
  2:{ cbn [step].
      destruct (dispatch_with_pointer base w h (Some picks) (Some start)
                  (Some ground) false context' event' Hw Hh) as (_ & _ & ->).
      apply onPointerUp_not_dragging. }
  cbn [run]. unfold mret, L_ret. by rewrite app_nil_r.
Qed.

(** X21. A press that becomes a drag.  With the handlers installed, a
    pointerdown on something, pointermoves within 7 pixels of it, a
    pointermove farther than 7 pixels across or down, any pointermoves
    after it, then a pointerup anywhere: [onStartDragging] is called once,
    at the first move that is far enough and before that move is reported,
    with the picks and the positions of the pointer-down;
    [onStopDragging] is called once, at the pointerup, with the same; that
    move and all later ones are reported as dragging; [onClick] is not
    called, also when the pointer is released where it went down. *)
Theorem press_move_release_is_a_drag base w context event before m after
    context' event' :
  sound base w -> is_Some (pointerHandlers (state w)) ->
  let start := getScreenCoords context event in
  let picks := pickObject context (start.1, start.2) 10 None in
  let ground := getGroundCoords context start in
  let stop := getScreenCoords context' event' in
  let there := getScreenCoords m.1 m.2 in
  picks <> [] ->
  Forall (near start) before ->
  movedEnoughForDrag (Some start) there = Ok true ->
  run (Dom "pointerdown" context event
       :: map pointermove (before ++ m :: after)
       ++ [Dom "pointerup" context' event']) w =
  (Ok (), with_pointer w None None None false,
   OnPointerDown start ground picks event ::
   map (moved_call false (Some picks) (Some start) (Some ground)) before ++
   OnStartDragging (Some picks) there (getGroundCoords m.1 there)
     (Some start) (Some ground) ::
   map (moved_call true (Some picks) (Some start) (Some ground)) (m :: after)
   ++ [OnStopDragging (Some picks) stop (getGroundCoords context' stop)
         (Some start) (Some ground);
       OnPointerUp stop (getGroundCoords context' stop) event']).
Proof.
  intros Hw [h Hh] start picks ground stop there Hpicks Hnear Hfar.
  pose proof Hw as (Hf & _ & Hin). rewrite Hh in Hin. destruct Hin as [Hin Hcv].
  rewrite run_cons with
    (w1 := with_pointer w (Some picks) (Some start) (Some ground) false)
    (calls := [OnPointerDown start ground picks event]).
  2:{ cbn [step]. rewrite (dispatch_installed base w h) by done.
      rewrite bool_decide_eq_false_2 by done.
      rewrite bool_decide_eq_true_2 by done. apply onPointerDown_run. }
  rewrite map_app, <- (assoc_L (++)).
  rewrite (run_moves base w h) by auto.
  cbn [map app].
  rewrite run_cons with
    (w1 := with_pointer w (Some picks) (Some start) (Some ground) true)
    (calls := [OnStartDragging (Some picks) there (getGroundCoords m.1 there)
                 (Some start) (Some ground);
               moved_call true (Some picks) (Some start) (Some ground) m]).
  2:{ unfold pointermove. cbn [step].
      destruct (dispatch_with_pointer base w h (Some picks) (Some start)
                  (Some ground) false m.1 m.2 Hw Hh) as (-> & _).
      by apply onPointerMove_far. }
  rewrite (run_moves base w h) by auto.
  rewrite run_cons with
    (w1 := with_pointer w None None None false)
    (calls := [OnStopDragging (Some picks) stop
                 (getGroundCoords context' stop) (Some start) (Some ground);
               OnPointerUp stop (getGroundCoords context' stop) event']).
  2:{ cbn [step].
      destruct (dispatch_with_pointer base w h (Some picks) (Some start)
                  (Some ground) true context' event' Hw Hh) as (_ & _ & ->).
      apply onPointerUp_dragging. }
  cbn [run]. unfold mret, L_ret. by rewrite app_nil_r.
Qed.

(** X22. A drag that a second pointer-down interrupts is never stopped.
    With the handlers installed, a pointerdown on something, a pointermove
    farther than 7 pixels, a second pointerdown and a pointerup:
    [onStartDragging] is called and [onStopDragging] is not; the pointerup
    is a click of the second pointer-down, or nothing. *)
Theorem pointerdown_abandons_the_drag base w context event m
    context2 event2 context' event' :
  sound base w -> is_Some (pointerHandlers (state w)) ->
  let start := getScreenCoords context event in
  let picks := pickObject context (start.1, start.2) 10 None in
  let ground := getGroundCoords context start in
  let there := getScreenCoords m.1 m.2 in
  let start2 := getScreenCoords context2 event2 in
  let picks2 := pickObject context2 (start2.1, start2.2) 10 None in
  let ground2 := getGroundCoords context2 start2 in
  let stop := getScreenCoords context' event' in
  picks <> [] ->
  movedEnoughForDrag (Some start) there = Ok true ->
  run [Dom "pointerdown" context event; pointermove m;
       Dom "pointerdown" context2 event2;
       Dom "pointerup" context' event'] w =
  (Ok (), with_pointer w None None None false,
   [OnPointerDown start ground picks event;
    OnStartDragging (Some picks) there (getGroundCoords m.1 there)
      (Some start) (Some ground);
    moved_call true (Some picks) (Some start) (Some ground) m;
    OnPointerDown start2 ground2 picks2 event2] ++
   match movedEnoughForDrag (Some start2) stop with
   | Ok false => [OnClick (Some picks2) stop (getGroundCoords context' stop)]
   | _ => []
   end ++ [OnPointerUp stop (getGroundCoords context' stop) event']).
Proof.
  intros Hw [h Hh] start picks ground there start2 picks2 ground2 stop
    Hpicks Hfar.
  pose proof Hw as (Hf & _ & Hin). rewrite Hh in Hin. destruct Hin as [Hin Hcv].
  rewrite run_cons with
    (w1 := with_pointer w (Some picks) (Some start) (Some ground) false)
    (calls := [OnPointerDown start ground picks event]).
  2:{ cbn [step]. rewrite (dispatch_installed base w h) by done.
      rewrite bool_decide_eq_false_2 by done.
      rewrite bool_decide_eq_true_2 by done. apply onPointerDown_run. }
  rewrite run_cons with
    (w1 := with_pointer w (Some picks) (Some start) (Some ground) true)
    (calls := [OnStartDragging (Some picks) there (getGroundCoords m.1 there)
                 (Some start) (Some ground);
               moved_call true (Some picks) (Some start) (Some ground) m]).
  2:{ unfold pointermove. cbn [step].
      destruct (dispatch_with_pointer base w h (Some picks) (Some start)
                  (Some ground) false m.1 m.2 Hw Hh) as (-> & _).
      by apply onPointerMove_far. }
  rewrite run_cons with
    (w1 := with_pointer w (Some picks2) (Some start2) (Some ground2) false)
    (calls := [OnPointerDown start2 ground2 picks2 event2]).
  2:{ cbn [step].
      destruct (dispatch_with_pointer base w h (Some picks) (Some start)
                  (Some ground) true context2 event2 Hw Hh) as (_ & -> & _).
      reflexivity. }
  rewrite run_cons with
    (w1 := with_pointer w None None None false)
    (calls := match movedEnoughForDrag (Some start2) stop with
              | Ok false =>
                [OnClick (Some picks2) stop (getGroundCoords context' stop)]
              | _ => []
              end ++ [OnPointerUp stop (getGroundCoords context' stop) event']).
  2:{ cbn [step].
      destruct (dispatch_with_pointer base w h (Some picks2) (Some start2)
                  (Some ground2) false context' event' Hw Hh) as (_ & _ & ->).
      apply onPointerUp_not_dragging. }
  cbn [run]. unfold mret, L_ret. by rewrite app_nil_r.
Qed.

Lemma run_same_pointer base (inputs : list (@Input Ground Pick)) wa wb :
  Forall (fun i => is_finalize i = false) inputs ->
  sound base wa -> sound base wb ->
  is_Some (pointerHandlers (state wa)) ->
  is_Some (pointerHandlers (state wb)) ->
  same_pointer wa wb ->
  exists calls wa' wb',
    run inputs wa = (Ok (), wa', calls) /\
    run (without_updates inputs) wb = (Ok (), wb', calls) /\
    same_pointer wa' wb'.
Proof.
  intros Hall. revert wa wb.
  induction Hall as [|i rest Hi _ IH]; intros wa wb Hwa Hwb Hha Hhb Hsame.
  { by exists [], wa, wb. }
  destruct i as [| |type context event]; [|done|].
  - cbn [without_updates].
    destruct (keeps_updateState base wa Hwa) as (wa1 & c1 & Hup & Hwa1 & _).
    pose proof Hup as Hup'. rewrite (updateState_run base wa Hwa) in Hup'.
    cbv zeta in Hup'. injection Hup' as <- <-.
    destruct (IH _ wb Hwa1 Hwb ltac:(by eexists) Hhb Hsame)
      as (calls & wa' & wb' & Hruna & Hrunb & Hsame').
    exists calls, wa', wb'. split; [|done].
    by rewrite (run_cons Update rest wa _ _ Hup), Hruna.
  - cbn [without_updates].
    destruct (dispatch_same_pointer base type context event wa wb
                Hwa Hwb Hha Hhb Hsame)
      as (c1 & wa1 & wb1 & Hda & Hdb & Hwa1 & Hwb1 & Hha1 & Hhb1 & Hsame1).
    destruct (IH wa1 wb1 Hwa1 Hwb1 Hha1 Hhb1 Hsame1)
      as (calls & wa' & wb' & Hruna & Hrunb & Hsame').
    exists (c1 ++ calls), wa', wb'.
    rewrite (run_cons (Dom type context event) _ _ _ _ Hda), Hruna.
    by rewrite (run_cons (Dom type context event) _ _ _ _ Hdb), Hrunb.
Qed.

(** X23. Updates do not disturb a gesture.  With the handlers installed
    and as long as the layer is not finalised, the calls of a run are the
    calls of the same events without the updates between them, and the
    records of the pointer-down end the same: a layer that is rendered
    again in the middle of a click or a drag goes on with it. *)
Theorem updates_do_not_disturb_the_calls base w
    (inputs : list (@Input Ground Pick)) :
  sound base w -> is_Some (pointerHandlers (state w)) ->
  Forall (fun i => is_finalize i = false) inputs ->
  exists calls w1 w2,
    run inputs w = (Ok (), w1, calls) /\
    run (without_updates inputs) w = (Ok (), w2, calls) /\
    same_pointer w1 w2.
Proof.
  intros Hw Hh Hall. by apply (run_same_pointer base).
Qed.

End layer_facts.

(** ** Instances on the example canvas *)

Lemma example_world_foreign : foreign (canvas example_world).
Proof. by repeat constructor. Qed.

Lemma example_ready_world_sound :
  sound [("wheel", Foreign 0)] example_ready_world.
Proof.
  split; [by repeat constructor|]. split; [done|]. split; [|done].
  exists 1%nat, 2%nat, 3%nat, 4%nat. split; [done|]. simpl. lia.
Qed.

Lemma initialized_layer_never_throws_example :
  exists w calls,
    (initializeState ≫= fun _ =>
       run [Update; Dom "pointerup" example_context at_10_10;
            Dom "pointermove" example_context at_13_12; Finalize])
      example_world = (Ok (), w, calls) /\
    coherent (state w).
Proof.
  apply (initialized_layer_never_throws example_world).
  exact example_world_foreign.
Defined.

Lemma listeners_are_registered_once_example :
  (exists w calls h,
     (initializeState ≫= fun _ => run ([Update; Update] ++ [Update]))
       example_world = (Ok (), w, calls) /\
     pointerHandlers (state w) = Some h /\ installed (bound w) h /\
     canvas w = [("wheel", Foreign 0)] ++ own h) /\
  (exists w calls,
     (initializeState ≫= fun _ => run ([Update; Update] ++ [Finalize]))
       example_world = (Ok (), w, calls) /\
     pointerHandlers (state w) = None /\
     canvas w = [("wheel", Foreign 0)]).
Proof.
  apply (listeners_are_registered_once example_world [Update; Update]).
  exact example_world_foreign.
Defined.

Lemma handlers_get_what_their_types_promise_example :
  exists w calls,
    (initializeState ≫= fun _ =>
       run [Update; Dom "pointerdown" example_context at_10_10;
            Dom "pointermove" example_context at_30_10;
            Dom "pointerup" example_context at_10_10])
      example_world = (Ok (), w, calls) /\
    Forall well_formed calls.
Proof.
  apply (handlers_get_what_their_types_promise example_world).
  exact example_world_foreign.
Defined.

Lemma calls_come_in_order_example :
  exists w calls,
    (initializeState ≫= fun _ =>
       run [Update; Dom "pointerdown" example_context at_10_10;
            Dom "pointermove" example_context at_30_10;
            Dom "pointerdown" example_context at_10_10])
      example_world = (Ok (), w, calls) /\
    follow_all None calls = Some (open_drag (state w)).
Proof.
  apply (calls_come_in_order example_world).
  exact example_world_foreign.
Defined.

Lemma second_pointerup_is_ignored_example :
  (initializeState ≫= fun _ =>
     run ([Update; Dom "pointerdown" example_context at_10_10]
          ++ [Dom "pointerup" example_context at_10_10;
              Dom "pointerup" example_context at_13_12])) example_world =
  (initializeState ≫= fun _ =>
     run ([Update; Dom "pointerdown" example_context at_10_10]
          ++ [Dom "pointerup" example_context at_10_10])) example_world.
Proof.
  apply (second_pointerup_is_ignored example_world).
  exact example_world_foreign.
Defined.

Lemma press_without_drag_is_a_click_example :
  run (Dom "pointerdown" example_context at_10_10
       :: map pointermove [(example_context, at_13_12)]
       ++ [Dom "pointerup" example_context at_10_10]) example_ready_world =
  (Ok (), with_pointer example_ready_world None None None false,
   [OnPointerDown (10, 10) (10, 10) [0%nat] at_10_10;
    OnPointerMove (13, 12) (13, 12) [0%nat] false
      (Some [0%nat]) (Some (10, 10)) (Some (10, 10)) at_13_12;
    OnClick (Some [0%nat]) (10, 10) (10, 10);
    OnPointerUp (10, 10) (10, 10) at_10_10]).
Proof.
  apply (press_without_drag_is_a_click [("wheel", Foreign 0)]
           example_ready_world example_context at_10_10
           [(example_context, at_13_12)] example_context at_10_10).
  - exact example_ready_world_sound.
  - by eexists.
  - right. repeat constructor.
Defined.

Lemma press_move_release_is_a_drag_example :
  run (Dom "pointerdown" example_context at_10_10
       :: map pointermove ([(example_context, at_13_12)]
                           ++ (example_context, at_30_10)
                           :: [(example_context, at_13_12)])
       ++ [Dom "pointerup" example_context at_10_10]) example_ready_world =
  (Ok (), with_pointer example_ready_world None None None false,
   [OnPointerDown (10, 10) (10, 10) [0%nat] at_10_10;
    OnPointerMove (13, 12) (13, 12) [0%nat] false
      (Some [0%nat]) (Some (10, 10)) (Some (10, 10)) at_13_12;
    OnStartDragging (Some [0%nat]) (30, 10) (30, 10)
      (Some (10, 10)) (Some (10, 10));
    OnPointerMove (30, 10) (30, 10) [0%nat] true
      (Some [0%nat]) (Some (10, 10)) (Some (10, 10)) at_30_10;
    OnPointerMove (13, 12) (13, 12) [0%nat] true
      (Some [0%nat]) (Some (10, 10)) (Some (10, 10)) at_13_12;
    OnStopDragging (Some [0%nat]) (10, 10) (10, 10)
      (Some (10, 10)) (Some (10, 10));
    OnPointerUp (10, 10) (10, 10) at_10_10]).
Proof.
  apply (press_move_release_is_a_drag [("wheel", Foreign 0)]
           example_ready_world example_context at_10_10
           [(example_context, at_13_12)] (example_context, at_30_10)
           [(example_context, at_13_12)] example_context at_10_10).
  - exact example_ready_world_sound.
  - by eexists.
  - discriminate.
  - repeat constructor.
  - reflexivity.
Defined.

Lemma pointerdown_abandons_the_drag_example :
  run [Dom "pointerdown" example_context at_10_10;
       pointermove (example_context, at_30_10);
       Dom "pointerdown" example_context at_150_10;
       Dom "pointerup" example_context at_150_10] example_ready_world =
  (Ok (), with_pointer example_ready_world None None None false,
   [OnPointerDown (10, 10) (10, 10) [0%nat] at_10_10;
    OnStartDragging (Some [0%nat]) (30, 10) (30, 10)
      (Some (10, 10)) (Some (10, 10));
    OnPointerMove (30, 10) (30, 10) [0%nat] true
      (Some [0%nat]) (Some (10, 10)) (Some (10, 10)) at_30_10;
    OnPointerDown (150, 10) (150, 10) [] at_150_10;
    OnClick (Some []) (150, 10) (150, 10);
    OnPointerUp (150, 10) (150, 10) at_150_10]).
Proof.
  apply (pointerdown_abandons_the_drag [("wheel", Foreign 0)]
           example_ready_world example_context at_10_10
           (example_context, at_30_10) example_context at_150_10
           example_context at_150_10).
  - exact example_ready_world_sound.
  - by eexists.
  - discriminate.
  - reflexivity.
Defined.

Lemma updates_do_not_disturb_the_calls_example :
  exists calls w1 w2,
    run [Dom "pointerdown" example_context at_10_10; Update;
         Dom "pointermove" example_context at_30_10; Update;
         Dom "pointerup" example_context at_10_10] example_ready_world
    = (Ok (), w1, calls) /\
    run (without_updates
           [Dom "pointerdown" example_context at_10_10; Update;
            Dom "pointermove" example_context at_30_10; Update;
            Dom "pointerup" example_context at_10_10]) example_ready_world
    = (Ok (), w2, calls) /\
    same_pointer w1 w2.
Proof.
  apply (updates_do_not_disturb_the_calls [("wheel", Foreign 0)]).
  - exact example_ready_world_sound.
  - by eexists.
  - repeat constructor.
Defined.

End LayerFacts.
